(** * AtomicDB: an embedded document store

    A shallow embedding of the Python package [atomicdb] (modules
    [queries], [indexes], [schema], [results], [database] and [pool])
    and the properties of its specification, stated and settled on the
    embedding.

    Conventions.
    - A Python value is a [Value]; floating-point numbers are left out.
    - A Python [dict] that holds a document is a [gmap string Value]; the
      dict objects themselves live in an object store ([heap]) and are
      referred to by location, because the store keeps and mutates the very
      objects its callers hold.
    - A method that mutates the database is a function in the monad [M]:
      it maps the state before the call to an outcome ([Ok] or [Raise])
      and the state at the moment the call returns or raises.
    - The storage backend is the list of the calls made on it. Its own
      failures (a file that cannot be written) are outside the embedding.

    Left out: [Field.type], [commit] and [close], indexing and slicing
    of a [QueryResult], and the modules [security] and [storage]. *)

From Stdlib Require Import ZArith String Ascii Bool Lia OrderedTypeEx.
From stdpp Require Import base option gmap sets list sorting strings.

Set Default Proof Using "Type".
Set Warnings "-register-all".

(** ** Python values *)

(** The values a document holds, as JSON gives them, without floats: a
    property below that speaks of every value or of numbers speaks of
    these values, and says nothing of a document that holds a float. *)
Inductive Value : Type :=
  | VNone
  | VBool (b : bool)
  | VInt (n : Z)
  | VStr (s : string)
  | VList (l : list Value)
  | VDict (d : list (string * Value)).

Abbreviation Document := (gmap string Value).

Fixpoint Value_eq_dec (a b : Value) {struct a} : {a = b} + {a <> b}.
Proof.
  decide equality.
  - apply bool_dec.
  - apply Z.eq_dec.
  - apply string_dec.
  - apply (List.list_eq_dec Value_eq_dec).
  - apply List.list_eq_dec. intros [k v] [k' v'].
    destruct (string_dec k k') as [->|Hk]; [|right; congruence].
    destruct (Value_eq_dec v v') as [->|Hv]; [left; reflexivity|right; congruence].
Defined.

Global Instance Value_eq : EqDecision Value := Value_eq_dec.

(** [bool] is a subclass of [int]: [True] and [False] take part in
    arithmetic comparisons as 1 and 0. *)
Definition as_number (v : Value) : option Z :=
  match v with
  | VBool b => Some (Z.b2z b)
  | VInt n => Some n
  | _ => None
  end.

(** Python's [==] on values. *)
Fixpoint py_eq (a b : Value) {struct a} : bool :=
  match a, b with
  | VNone, VNone => true
  | VBool x, VBool y => Bool.eqb x y
  | VBool x, VInt n => Z.eqb (Z.b2z x) n
  | VInt n, VBool x => Z.eqb n (Z.b2z x)
  | VInt n, VInt m => Z.eqb n m
  | VStr s, VStr t => String.eqb s t
  | VList l, VList l' =>
      (fix all2 (l l' : list Value) {struct l} : bool :=
         match l, l' with
         | [], [] => true
         | x :: xs, y :: ys => py_eq x y && all2 xs ys
         | _, _ => false
         end) l l'
  | VDict d, VDict d' =>
      Nat.eqb (length d) (length d') &&
      (fix sub (d : list (string * Value)) {struct d} : bool :=
         match d with
         | [] => true
         | (k, v) :: r =>
             (fix look (e : list (string * Value)) {struct e} : bool :=
                match e with
                | [] => false
                | (k', v') :: r' =>
                    if String.eqb k k' then py_eq v v' else look r'
                end) d' && sub r
         end) d
  | _, _ => false
  end.

(** Python's [==] on the optional key tuples of [Index._get_key]:
    [None == None], and tuples compare element by element. *)
Fixpoint py_eq_tuple (k k' : list Value) : bool :=
  match k, k' with
  | [], [] => true
  | x :: xs, y :: ys => py_eq x y && py_eq_tuple xs ys
  | _, _ => false
  end.

Definition py_eq_key (k k' : option (list Value)) : bool :=
  match k, k' with
  | None, None => true
  | Some t, Some t' => py_eq_tuple t t'
  | _, _ => false
  end.

(** The four ordering operators. *)
Inductive CmpOp := OpLt | OpLe | OpGt | OpGe.

Definition cmp_holds (op : CmpOp) (c : comparison) : bool :=
  match op, c with
  | OpLt, Lt | OpLe, Lt | OpLe, Eq | OpGt, Gt | OpGe, Gt | OpGe, Eq => true
  | _, _ => false
  end.

(** [py_order op a b] is [a op b]; [None] stands for the [TypeError] that
    Python raises when the two operands are not ordered ([None], a dict,
    or operands of unrelated types). Lists compare lexicographically: the
    first pair of unequal elements decides. *)
Fixpoint py_order (op : CmpOp) (a b : Value) {struct a} : option bool :=
  match a, b with
  | VStr s, VStr t => Some (cmp_holds op (String.compare s t))
  | VList l, VList l' =>
      (fix lex (l l' : list Value) {struct l} : option bool :=
         match l, l' with
         | [], [] => Some (cmp_holds op Eq)
         | [], _ :: _ => Some (cmp_holds op Lt)
         | _ :: _, [] => Some (cmp_holds op Gt)
         | x :: xs, y :: ys =>
             if py_eq x y then lex xs ys else py_order op x y
         end) l l'
  | _, _ =>
      match as_number a, as_number b with
      | Some n, Some m => Some (cmp_holds op (n ?= m)%Z)
      | _, _ => None
      end
  end.

(** [isinstance] against the classes the schema validator tests. *)
Definition is_str (v : Value) : bool := match v with VStr _ => true | _ => false end.
Definition is_number (v : Value) : bool :=
  match v with VInt _ | VBool _ => true | _ => false end.
Definition is_bool (v : Value) : bool := match v with VBool _ => true | _ => false end.
Definition is_dict (v : Value) : bool := match v with VDict _ => true | _ => false end.
Definition is_list (v : Value) : bool := match v with VList _ => true | _ => false end.

(** ** Hashable keys

    An index bucket is found by hashing the key tuple. [None], booleans,
    integers and strings are hashable; lists and dicts are not. Two keys
    select the same bucket exactly when they are equal under [==], so a
    boolean and the integer it equals share one [HKey]. *)

Inductive HKey := KNone | KNum (n : Z) | KStr (s : string).

Global Instance HKey_eq_dec : EqDecision HKey.
Proof. solve_decision. Defined.

Global Instance HKey_countable : Countable HKey.
Proof.
  refine (inj_countable'
    (fun k => match k with
              | KNone => inl ()
              | KNum n => inr (inl n)
              | KStr s => inr (inr s)
              end)
    (fun x => match x with
              | inl _ => KNone
              | inr (inl n) => KNum n
              | inr (inr s) => KStr s
              end) _).
  intros []; reflexivity.
Defined.

Definition hash_value (v : Value) : option HKey :=
  match v with
  | VNone => Some KNone
  | VBool b => Some (KNum (Z.b2z b))
  | VInt n => Some (KNum n)
  | VStr s => Some (KStr s)
  | VList _ | VDict _ => None
  end.

Fixpoint hash_tuple (key : list Value) : option (list HKey) :=
  match key with
  | [] => Some []
  | v :: vs =>
      match hash_value v, hash_tuple vs with
      | Some k, Some ks => Some (k :: ks)
      | _, _ => None
      end
  end.

(** ** Exceptions and outcomes

    [OutOfFuel] is not a Python exception: it is the outcome of a loop of
    the embedding that was given too few iterations. The loop of
    [AtomicDB.remove] is shown never to produce it ([remove_ends]). *)

Inductive ValidationReason :=
  | MissingRequired (field : string)
  | MustBe (field : string) (type_name : string).

Inductive Exn :=
  | TypeError
  | KeyError
  | AttributeError
  | StopIteration
  | ValidationError (reason : ValidationReason)
  | ReError
  | RuntimeError
  | QueueEmpty
  | OutOfFuel.

Inductive Res (A : Type) : Type :=
  | Ok (a : A)
  | Raise (e : Exn).
Arguments Ok {A} a.
Arguments Raise {A} e.

Definition of_option {A} (e : Exn) (o : option A) : Res A :=
  match o with Some a => Ok a | None => Raise e end.

(** ** State and exceptions

    [M S A] is a computation over a mutable object of type [S] that
    returns an [A] or raises; the object is kept as it is at the moment
    of the raise, since Python undoes nothing. *)

Definition M (S A : Type) : Type := S -> Res A * S.

Definition ret {S A} (a : A) : M S A := fun s => (Ok a, s).

Definition bind {S A B} (m : M S A) (k : A -> M S B) : M S B :=
  fun s =>
    match m s with
    | (Ok a, s') => k a s'
    | (Raise e, s') => (Raise e, s')
    end.

Definition raise {S A} (e : Exn) : M S A := fun s => (Raise e, s).

Definition lift {S A} (r : Res A) : M S A := fun s => (r, s).

Definition gets {S A} (f : S -> A) : M S A := fun s => (Ok (f s), s).

Definition modify {S} (f : S -> S) : M S unit := fun s => (Ok tt, f s).

(** Run a computation on a component of the state. *)
Definition zoom {S T A} (proj : S -> T) (upd : T -> S -> S) (m : M T A) : M S A :=
  fun s => let (r, t') := m (proj s) in (r, upd t' s).

Declare Scope monad_scope.
Delimit Scope monad_scope with monad.
Notation "x <- m ;; k" := (bind m (fun x => k))
  (at level 20, m at level 99, k at level 200, right associativity) : monad_scope.
Notation "m ;; k" := (bind m (fun _ => k))
  (at level 100, k at level 200, right associativity) : monad_scope.
Open Scope monad_scope.

Definition when {S} (b : bool) (m : M S unit) : M S unit :=
  if b then m else ret tt.

(** ** queries.py *)

(** A [Query] wraps a test on documents; evaluating the test may raise
    (an ordering comparison between unrelated types, a missing key in a
    caller's function). [parent] is stored by the constructor and read
    nowhere. *)
Inductive Query : Type :=
  mkQuery (test : Document -> Res bool) (parent : option Query).

(** A query as in [Query()]: the default test accepts every document. *)
Definition Query_new : Query := mkQuery (fun _ => Ok true) None.

(** [doc.get(name)]: the value, or [None] where the key is missing. *)
Definition doc_get (doc : Document) (name : string) : Value :=
  default VNone (doc !! name).

(** Python's [value in container]. A list holds the value when one of its
    elements equals it; a string holds only strings, as substrings; a dict
    holds its keys, and looking one up hashes it; anything else is not
    iterable. *)
Definition py_in (value container : Value) : Res bool :=
  match container with
  | VList l => Ok (existsb (py_eq value) l)
  | VStr s =>
      match value with
      | VStr sub => Ok (bool_decide (is_Some (String.index 0 sub s)))
      | _ => Raise TypeError
      end
  | VDict d =>
      match value with
      | VStr k => Ok (existsb (fun kv => String.eqb k (fst kv)) d)
      | VList _ | VDict _ => Raise TypeError
      | _ => Ok false
      end
  | _ => Raise TypeError
  end.

Module Field.

Record t := mk { name : string; parent : option Query }.

Definition __eq__ (self : t) (value : Value) : Query :=
  mkQuery (fun doc => Ok (py_eq (doc_get doc (name self)) value)) (parent self).

Definition __ne__ (self : t) (value : Value) : Query :=
  mkQuery (fun doc => Ok (negb (py_eq (doc_get doc (name self)) value))) (parent self).

Definition ordered (op : CmpOp) (self : t) (value : Value) : Query :=
  mkQuery (fun doc => of_option TypeError (py_order op (doc_get doc (name self)) value))
          (parent self).

Definition __gt__ := ordered OpGt.
Definition __lt__ := ordered OpLt.
Definition __ge__ := ordered OpGe.
Definition __le__ := ordered OpLe.

(** [contains]: [value in doc.get(name, [])]. *)
Definition contains (self : t) (value : Value) : Query :=
  mkQuery (fun doc => py_in value (default (VList []) (doc !! name self))) (parent self).

Definition exists_ (self : t) : Query :=
  mkQuery (fun doc => Ok (bool_decide (is_Some (doc !! name self)))) (parent self).

(** [matches] compiles the pattern when the query is built and matches it
    at position 0 of [str(doc.get(name))]. The regular-expression engine
    and [str] are Python's own: [re_compile] gives the compiled
    pattern's [match] as a test on strings, or nothing where
    [re.compile] raises. *)
Section Regex.
Variable re_compile : string -> option (string -> bool).
Variable py_str : Value -> string.

Definition matches (self : t) (pattern : string) : Res Query :=
  match re_compile pattern with
  | None => Raise ReError
  | Some regex =>
      Ok (mkQuery (fun doc => Ok (regex (py_str (doc_get doc (name self)))))
                  (parent self))
  end.
End Regex.

End Field.

Module Query.

Definition test (self : Query) : Document -> Res bool :=
  match self with mkQuery test _ => test end.

Definition parent (self : Query) : option Query :=
  match self with mkQuery _ parent => parent end.

Definition __getattr__ (self : Query) (name : string) : Field.t :=
  Field.mk name (Some self).

(** [a and b] evaluates [b] only when [a] is true; [a or b] only when
    [a] is false. *)
Definition __and__ (self other : Query) : Query :=
  mkQuery (fun doc =>
             match test self doc with
             | Ok true => test other doc
             | r => r
             end) None.

Definition __or__ (self other : Query) : Query :=
  mkQuery (fun doc =>
             match test self doc with
             | Ok false => test other doc
             | r => r
             end) None.

Definition __invert__ (self : Query) : Query :=
  mkQuery (fun doc =>
             match test self doc with
             | Ok b => Ok (negb b)
             | Raise e => Raise e
             end) None.

Definition match_ (self : Query) (document : Document) : Res bool :=
  test self document.

(** The equality conditions of a query, for index selection: a dict from
    field name to literal, here in insertion order. The body is the
    placeholder of the source: it returns the empty dict for every
    query. *)
Definition get_equality_conditions (self : Query) : list (string * Value) := [].

End Query.

(** The query argument of the database methods: a [Query] or any function
    from documents to booleans. *)
Inductive QueryArg :=
  | AQuery (q : Query)
  | ACallable (f : Document -> Res bool).

(** What [query.match(doc)] or [query(doc)] evaluates, by the
    [isinstance(query, Query)] test. *)
Definition query_test (query : QueryArg) : Document -> Res bool :=
  match query with
  | AQuery q => Query.match_ q
  | ACallable f => f
  end.

(** ** indexes.py *)

(** A dict whose iteration order matters is an association list in
    insertion order, with at most one entry per key. *)
Section Assoc.
Context {K V : Type} `{EqDecision K}.

Fixpoint assoc_lookup (k : K) (l : list (K * V)) : option V :=
  match l with
  | [] => None
  | (k', v) :: r => if decide (k = k') then Some v else assoc_lookup k r
  end.

Fixpoint assoc_delete (k : K) (l : list (K * V)) : list (K * V) :=
  match l with
  | [] => []
  | (k', v) :: r => if decide (k = k') then r else (k', v) :: assoc_delete k r
  end.

(** [for v in d.values(): f(v)], where [f] mutates the value it is given;
    a raise leaves the values already visited as [f] left them. *)
Fixpoint for_values (f : M V unit) (l : list (K * V)) : Res unit * list (K * V) :=
  match l with
  | [] => (Ok tt, [])
  | (k, v) :: r =>
      match f v with
      | (Ok _, v') => let (res, r') := for_values f r in (res, (k, v') :: r')
      | (Raise e, v') => (Raise e, (k, v') :: r)
      end
  end.
End Assoc.

(** [sorted] on a list of field names: ascending by code point. *)
Fixpoint insert_sorted (x : string) (l : list string) : list string :=
  match l with
  | [] => [x]
  | y :: r => if String.ltb y x then y :: insert_sorted x r else x :: l
  end.

Definition sorted (l : list string) : list string := foldr insert_sorted [] l.

Module Index.

(** [_index] maps a key tuple to the set of document positions that were
    added under it. *)
Record t := mk {
  fields : list string;
  _index : gmap (list HKey) (gset nat)
}.

Definition __init__ (fields : list string) : t := mk fields ∅.

Definition bucket (self : t) (k : list HKey) : gset nat :=
  default ∅ (_index self !! k).

Definition has_key (self : t) (k : list HKey) : bool :=
  bool_decide (is_Some (_index self !! k)).

Definition set_bucket (k : list HKey) (s : gset nat) (self : t) : t :=
  mk (fields self) (<[k := s]> (_index self)).

Definition del_bucket (k : list HKey) (self : t) : t :=
  mk (fields self) (delete k (_index self)).

(** Looking a key tuple up in [_index] hashes it: [TypeError] for a
    tuple that holds a list or a dict. *)
Definition hash (key : list Value) : M t (list HKey) :=
  lift (of_option TypeError (hash_tuple key)).

(** [tuple(doc[field] for field in self.fields)], or [None] when a field
    is missing ([KeyError] is caught). *)
Definition _get_key (self : t) (doc : Document) : option (list Value) :=
  mapM (fun field => doc !! field) (fields self).

(** [self._index[key].discard(doc_id)], then the bucket is deleted if it
    became empty. *)
Definition discard (k : list HKey) (doc_id : nat) : M t unit :=
  modify (fun self => set_bucket k (bucket self k ∖ {[doc_id]}) self) ;;
  empty <- gets (fun self => bool_decide (bucket self k = ∅)) ;;
  when empty (modify (del_bucket k)).

(** The bucket is created if the key is new, then [doc_id] is added. *)
Definition add (k : list HKey) (doc_id : nat) : M t unit :=
  present <- gets (fun self => has_key self k) ;;
  when (negb present) (modify (set_bucket k ∅)) ;;
  modify (fun self => set_bucket k (bucket self k ∪ {[doc_id]}) self).

Definition add_document (doc_id : nat) (doc : Document) : M t unit :=
  key <- gets (fun self => _get_key self doc) ;;
  match key with
  | Some key => k <- hash key ;; add k doc_id
  | None => ret tt
  end.

Definition remove_document (doc_id : nat) (doc : Document) : M t unit :=
  key <- gets (fun self => _get_key self doc) ;;
  match key with
  | Some key =>
      k <- hash key ;;
      present <- gets (fun self => has_key self k) ;;
      when present (discard k doc_id)
  | None => ret tt
  end.

Definition update_document (doc_id : nat) (old_doc new_doc : Document) : M t unit :=
  old_key <- gets (fun self => _get_key self old_doc) ;;
  new_key <- gets (fun self => _get_key self new_doc) ;;
  if py_eq_key old_key new_key then ret tt
  else
    match old_key with
    | Some key =>
        k <- hash key ;;
        present <- gets (fun self => has_key self k) ;;
        when present (discard k doc_id)
    | None => ret tt
    end ;;
    match new_key with
    | Some key => k <- hash key ;; add k doc_id
    | None => ret tt
    end.

(** [next(iter(bucket))]: the element a Python set yields first is not
    specified; the embedding takes the first of [elements]. *)
Definition find_one (values : list Value) (self : t) : Res (option nat) :=
  match hash_tuple values with
  | None => Raise TypeError
  | Some k =>
      match _index self !! k with
      | Some s => of_option StopIteration (Some <$> head (elements s))
      | None => Ok None
      end
  end.

Definition find_all (values : list Value) (self : t) : Res (gset nat) :=
  match hash_tuple values with
  | None => Raise TypeError
  | Some k => Ok (bucket self k)
  end.

End Index.

Module IndexManager.

(** [_indexes] maps the sorted tuple of field names to the index. *)
Record t := mk { _indexes : list (list string * Index.t) }.

Definition __init__ : t := mk [].

Definition create_index (fields : list string) (self : t) : t :=
  let key := sorted fields in
  match assoc_lookup key (_indexes self) with
  | None => mk (_indexes self ++ [(key, Index.__init__ fields)])
  | Some _ => self
  end.

Definition drop_index (fields : list string) (self : t) : t :=
  mk (assoc_delete (sorted fields) (_indexes self)).

Definition has_index (fields : list string) (self : t) : bool :=
  bool_decide (is_Some (assoc_lookup (sorted fields) (_indexes self))).

Definition get_index (fields : list string) (self : t) : option Index.t :=
  assoc_lookup (sorted fields) (_indexes self).

Definition for_indexes (f : M Index.t unit) : M t unit :=
  fun self => let (res, l) := for_values f (_indexes self) in (res, mk l).

Definition add_document (doc_id : nat) (doc : Document) : M t unit :=
  for_indexes (Index.add_document doc_id doc).

Definition remove_document (doc_id : nat) (doc : Document) : M t unit :=
  for_indexes (Index.remove_document doc_id doc).

Definition update_document (doc_id : nat) (old_doc new_doc : Document) : M t unit :=
  for_indexes (Index.update_document doc_id old_doc new_doc).

Definition clear (self : t) : t := mk [].

End IndexManager.

(** ** schema.py *)

Module Schema.

(** The entry of one field in a collection's schema: the dict
    [{"required": ..., "type": ...}], either key optional. *)
Record FieldSchema := mkField {
  required : bool;
  type_ : option string
}.

(** A schema lists its fields in declaration order. *)
Definition CollectionSchema := list (string * FieldSchema).

Record t := mk {
  _schemas : gmap string CollectionSchema;
  _metadata : gmap string (gmap string nat)
}.

Definition __init__ : t := mk {[ "default" := [] ]} {[ "default" := ∅ ]}.

Definition create_collection (name : string) (schema : CollectionSchema) (self : t) : t :=
  mk (<[name := schema]> (_schemas self)) (<[name := ∅]> (_metadata self)).

Definition declares (field_type : option string) (type_name : string) : bool :=
  bool_decide (field_type = Some type_name).

(** The checks on a field that is present, in the order of the source's
    [if]/[elif] chain. *)
Definition check_type (field : string) (field_type : option string) (value : Value)
  : Res unit :=
  if declares field_type "string" && negb (is_str value)
  then Raise (ValidationError (MustBe field "string"))
  else if declares field_type "number" && negb (is_number value)
  then Raise (ValidationError (MustBe field "number"))
  else if declares field_type "boolean" && negb (is_bool value)
  then Raise (ValidationError (MustBe field "boolean"))
  else if declares field_type "object" && negb (is_dict value)
  then Raise (ValidationError (MustBe field "object"))
  else if declares field_type "array" && negb (is_list value)
  then Raise (ValidationError (MustBe field "array"))
  else Ok tt.

Fixpoint _validate_against_schema (document : Document) (schema : CollectionSchema)
  : Res unit :=
  match schema with
  | [] => Ok tt
  | (field, field_schema) :: rest =>
      match document !! field with
      | None =>
          if required field_schema
          then Raise (ValidationError (MissingRequired field))
          else _validate_against_schema document rest
      | Some value =>
          match check_type field (type_ field_schema) value with
          | Ok _ => _validate_against_schema document rest
          | Raise e => Raise e
          end
      end
  end.

Definition validate_document (collection : string) (document : Document) (self : t)
  : Res unit :=
  match _schemas self !! collection with
  | None => Ok tt
  | Some [] => Ok tt
  | Some schema => _validate_against_schema document schema
  end.

Definition update_metadata (collection : string) (metadata : gmap string nat) (self : t)
  : t :=
  mk (_schemas self)
     (<[collection := metadata ∪ default ∅ (_metadata self !! collection)]>
        (_metadata self)).

End Schema.

(** ** The storage backend

    The backend is outside the store: it is the record of the calls made
    on it. [save] receives the collections as they are at the call. *)

Module Storage.

Inductive Call :=
  | Load
  | Save (data : gmap string (list Document))
  | Clear.

Record t := mk {
  has_clear : bool;
  calls : list Call
}.

Definition log (c : Call) (self : t) : t := mk (has_clear self) (calls self ++ [c]).

Definition is_save (c : Call) : bool :=
  match c with Save _ => true | _ => false end.

(** How many times [save] was called. *)
Definition saves (self : t) : nat := length (List.filter is_save (calls self)).

End Storage.

(** ** results.py *)

Definition loc := nat.

(** The dict object at a location. *)
Definition deref (h : gmap loc Document) (l : loc) : Document := default ∅ (h !! l).

(** Python's built-in [sorted]: a stable sort that compares with [<] only.
    Each element is inserted, from the last to the first, in front of the
    sorted rest and moved past the elements that are smaller than it. *)
Section Sorted.
Context {A : Type} (lt : A -> A -> Res bool).

Fixpoint insert_by (x : A) (l : list A) : Res (list A) :=
  match l with
  | [] => Ok [x]
  | y :: r =>
      match lt y x with
      | Ok true =>
          match insert_by x r with
          | Ok r' => Ok (y :: r')
          | Raise e => Raise e
          end
      | Ok false => Ok (x :: l)
      | Raise e => Raise e
      end
  end.

Fixpoint sorted_by (l : list A) : Res (list A) :=
  match l with
  | [] => Ok []
  | x :: r =>
      match sorted_by r with
      | Ok r' => insert_by x r'
      | Raise e => Raise e
      end
  end.
End Sorted.

(** The comparison of two elements by their keys; [None], a dict, or
    keys of unrelated types raise [TypeError]. *)
Definition key_lt {A} (key : A -> Value) (x y : A) : Res bool :=
  of_option TypeError (py_order OpLt (key x) (key y)).

(** [sorted(l, key=key, reverse=reverse)]: with [reverse] the list is
    reversed before and after the sort, which keeps elements with equal
    keys in their original order. *)
Definition py_sorted {A} (key : A -> Value) (reverse : bool) (l : list A) : Res (list A) :=
  if reverse
  then match sorted_by (key_lt key) (list.reverse l) with
       | Ok r => Ok (list.reverse r)
       | Raise e => Raise e
       end
  else sorted_by (key_lt key) l.

(** An argument passed to a constructor beyond those it declares. *)
Inductive Extra := DatabaseInstance.

Module QueryResult.

Record t := mk { _documents : list loc }.

(** [QueryResult(documents, *extra)]: [__init__] declares [documents]
    only, so a call with any further positional argument raises
    [TypeError] before the body runs. *)
Definition __init__ (documents : list loc) (extra : list Extra) : Res t :=
  match extra with
  | [] => Ok (mk documents)
  | _ :: _ => Raise TypeError
  end.

Definition __len__ (self : t) : nat := length (_documents self).

Definition first (self : t) : option loc := head (_documents self).

Definition last (self : t) : option loc := list.last (_documents self).

Definition sort_by (h : gmap loc Document) (field : string) (reverse : bool) (self : t)
  : Res t :=
  match py_sorted (fun x => doc_get (deref h x) field) reverse (_documents self) with
  | Ok sorted_docs => __init__ sorted_docs []
  | Raise e => Raise e
  end.

Definition as_list (self : t) : list loc := _documents self.

Definition count (self : t) : nat := length (_documents self).

Definition is_empty (self : t) : bool := Nat.eqb (length (_documents self)) 0.

(** The dict [pluck] builds for one document: the requested fields that
    the document has, each with its value. *)
Definition pluck_doc (fields : list string) (doc : Document) : Document :=
  foldl (fun plucked field =>
           match doc !! field with
           | Some value => <[field := value]> plucked
           | None => plucked
           end) ∅ fields.

(** [pluck]: the dicts are new; they are returned as values. *)
Definition pluck (h : gmap loc Document) (fields : list string) (self : t)
  : list Document :=
  (fun doc => pluck_doc fields (deref h doc)) <$> _documents self.

(** The dict [exclude] builds for one document: a copy from which each
    field is popped, if it is there. *)
Definition exclude_doc (fields : list string) (doc : Document) : Document :=
  foldl (fun excluded field => delete field excluded) doc fields.

Definition exclude (h : gmap loc Document) (fields : list string) (self : t)
  : list Document :=
  (fun doc => exclude_doc fields (deref h doc)) <$> _documents self.

End QueryResult.

(** ** database.py *)

Module AtomicDB.

(** The state the methods work on: the attributes of the [AtomicDB]
    instance, and [heap], the dict objects that callers and collections
    refer to. A collection is the list of the locations of its
    documents; the position of a location in the list is the document's
    id. The dict [_collections] is a finite map: the order in which
    [create_index] visits the collections changes nothing but the
    state that a raise in the middle of the visit leaves behind. *)
Record t := mk {
  heap : gmap loc Document;
  _collections : gmap string (list loc);
  _indexes : IndexManager.t;
  _schema : Schema.t;
  _storage : Storage.t
}.

Definition set_heap (h : gmap loc Document) (self : t) : t :=
  mk h (_collections self) (_indexes self) (_schema self) (_storage self).

Definition set_collections (c : gmap string (list loc)) (self : t) : t :=
  mk (heap self) c (_indexes self) (_schema self) (_storage self).

Definition set_indexes (i : IndexManager.t) (self : t) : t :=
  mk (heap self) (_collections self) i (_schema self) (_storage self).

Definition set_schema (s : Schema.t) (self : t) : t :=
  mk (heap self) (_collections self) (_indexes self) s (_storage self).

Definition set_storage (s : Storage.t) (self : t) : t :=
  mk (heap self) (_collections self) (_indexes self) (_schema self) s.

(** [self._collections[collection] = docs] *)
Definition set_collection (collection : string) (docs : list loc) (self : t) : t :=
  set_collections (<[collection := docs]> (_collections self)) self.

(** A new dict object, as a caller's dict display or [dict.copy] makes. *)
Definition new_dict (d : Document) : M t loc :=
  fun self =>
    let l := fresh (dom (heap self)) in
    (Ok l, set_heap (<[l := d]> (heap self)) self).

Definition read (document : loc) : M t Document :=
  gets (fun self => deref (heap self) document).

(** [doc.copy()] *)
Definition copy (document : loc) : M t loc :=
  d <- read document ;; new_dict d.

(** [doc.update(fields)]: the keys of [fields] are overwritten or added
    in the object itself. *)
Definition dict_update (document : loc) (fields : Document) : M t unit :=
  modify (fun self =>
    set_heap (<[document := fields ∪ deref (heap self) document]> (heap self)) self).

(** [self._collections[collection]] *)
Definition collection_of (collection : string) : M t (list loc) :=
  fun self => (of_option KeyError (_collections self !! collection), self).

Definition on_indexes {A} (m : M IndexManager.t A) : M t A :=
  zoom _indexes set_indexes m.

(** The collections as the backend serialises them at a [save]. *)
Definition snapshot (self : t) : gmap string (list Document) :=
  (fun docs : list loc => deref (heap self) <$> docs) <$> _collections self.

Definition _save : M t unit :=
  modify (fun self =>
    set_storage (Storage.log (Storage.Save (snapshot self)) (_storage self)) self).

(** [AtomicDB(storage=storage)]: [objects] and [data] are what
    [storage.load()] returned, the dicts it built and the collections
    that list them; an empty [data] keeps the default collection. *)
Definition __init__ (storage : Storage.t) (objects : gmap loc Document)
    (data : gmap string (list loc)) : t :=
  mk objects
     (if bool_decide (data = ∅) then {[ "default" := [] ]} else data)
     IndexManager.__init__
     Schema.__init__
     (Storage.log Storage.Load storage).

Definition create_collection (name : string) (schema : Schema.CollectionSchema) : M t unit :=
  modify (fun self => set_schema (Schema.create_collection name schema (_schema self)) self) ;;
  present <- gets (fun self => bool_decide (is_Some (_collections self !! name))) ;;
  when (negb present) (modify (set_collection name [])).

Section Insert.
(** [len(str(d))], the length of Python's rendering of a dict; the
    metadata statistics are its only use. *)
Variable str_len : Document -> nat.

Definition insert (document : loc) (collection : string) : M t nat :=
  doc <- read document ;;
  schema <- gets _schema ;;
  lift (Schema.validate_document collection doc schema) ;;
  present <- gets (fun self => bool_decide (is_Some (_collections self !! collection))) ;;
  when (negb present) (modify (set_collection collection [])) ;;
  modify (fun self =>
    set_collection collection
      (default [] (_collections self !! collection) ++ [document]) self) ;;
  coll <- collection_of collection ;;
  let doc_id := length coll - 1 in
  on_indexes (IndexManager.add_document doc_id doc) ;;
  h <- gets heap ;;
  let stats : gmap string nat :=
    {[ "document_count" := length coll;
       "avg_document_size" := str_len doc;
       "total_size" := sum_list (str_len ∘ deref h <$> coll) ]} in
  modify (fun self =>
    set_schema (Schema.update_metadata collection stats (_schema self)) self) ;;
  _save ;;
  ret doc_id.

Fixpoint insert_many (documents : list loc) (collection : string) : M t (list nat) :=
  match documents with
  | [] => ret []
  | doc :: rest =>
      doc_id <- insert doc collection ;;
      doc_ids <- insert_many rest collection ;;
      ret (doc_id :: doc_ids)
  end.
End Insert.

(** [[doc for doc in docs if test(doc)]]: the documents kept are the
    objects of the collection themselves. *)
Fixpoint filter_docs (test : Document -> Res bool) (docs : list loc) : M t (list loc) :=
  match docs with
  | [] => ret []
  | doc :: rest =>
      d <- read doc ;;
      matches <- lift (test d) ;;
      kept <- filter_docs test rest ;;
      ret (if matches : bool then doc :: kept else kept)
  end.

(** The full scan of [get] and [search]. *)
Definition full_scan (test : Document -> Res bool) (collection : string) : M t (list loc) :=
  docs <- collection_of collection ;;
  filter_docs test docs.

(** [[self._collections[collection][doc_id].copy() for doc_id in doc_ids
    if doc_id < len(self._collections[collection])]] *)
Fixpoint copy_docs (collection : string) (doc_ids : list nat) : M t (list loc) :=
  match doc_ids with
  | [] => ret []
  | doc_id :: rest =>
      docs <- collection_of collection ;;
      match docs !! doc_id with
      | Some doc =>
          c <- copy doc ;;
          copies <- copy_docs collection rest ;;
          ret (c :: copies)
      | None => copy_docs collection rest
      end
  end.

(** The values of the conditions, in the order of [fields]. *)
Definition values_of (conditions : list (string * Value)) (fields : list string)
  : list Value :=
  omap (fun f => assoc_lookup f conditions) fields.

(** The list of documents [get] passes to [QueryResult]. With
    conditions and an index for them, [get] calls
    [self._indexes.find_one], a method [IndexManager] does not have. *)
Definition get_docs (query : QueryArg) (collection : string) : M t (list loc) :=
  match query with
  | AQuery q =>
      let conditions := Query.get_equality_conditions q in
      let fields := conditions.*1 in
      indexed <- gets (fun self =>
        negb (Nat.eqb (length conditions) 0)
        && IndexManager.has_index fields (_indexes self)) ;;
      if indexed : bool then raise AttributeError
      else full_scan (Query.match_ q) collection
  | ACallable f => full_scan f collection
  end.

Definition get (query : QueryArg) (collection : string) : M t QueryResult.t :=
  docs <- get_docs query collection ;;
  lift (QueryResult.__init__ docs [DatabaseInstance]).

(** The list of documents [search] passes to [QueryResult]: copies of
    the documents at the positions the index gives, or else the
    documents a full scan keeps. *)
Definition search_docs (query : QueryArg) (collection : string) : M t (list loc) :=
  match query with
  | AQuery q =>
      let conditions := Query.get_equality_conditions q in
      let fields := conditions.*1 in
      index <- gets (fun self =>
        if negb (Nat.eqb (length conditions) 0)
           && IndexManager.has_index fields (_indexes self)
        then IndexManager.get_index fields (_indexes self)
        else None) ;;
      match index with
      | Some index =>
          doc_ids <- lift (Index.find_all (values_of conditions fields) index) ;;
          copy_docs collection (elements doc_ids)
      | None => full_scan (Query.match_ q) collection
      end
  | ACallable f => full_scan f collection
  end.

Definition search (query : QueryArg) (collection : string) : M t QueryResult.t :=
  docs <- search_docs query collection ;;
  lift (QueryResult.__init__ docs [DatabaseInstance]).

(** [[doc.copy() for doc in docs]] *)
Fixpoint copy_all (docs : list loc) : M t (list loc) :=
  match docs with
  | [] => ret []
  | doc :: rest =>
      c <- copy doc ;;
      copies <- copy_all rest ;;
      ret (c :: copies)
  end.

Definition all (collection : string) : M t QueryResult.t :=
  docs <- collection_of collection ;;
  copies <- copy_all docs ;;
  lift (QueryResult.__init__ copies [DatabaseInstance]).

(** The scan of [update]: [for i, doc in enumerate(docs)]. [old_doc] is
    a copy that lives for one iteration; it is held as a value. *)
Fixpoint update_scan (fields : Document) (test : Document -> Res bool)
    (i : nat) (docs : list loc) (count : nat) : M t nat :=
  match docs with
  | [] => ret count
  | doc :: rest =>
      old_doc <- read doc ;;
      matches <- lift (test old_doc) ;;
      if matches : bool then
        dict_update doc fields ;;
        new_doc <- read doc ;;
        on_indexes (IndexManager.update_document i old_doc new_doc) ;;
        update_scan fields test (S i) rest (count + 1)
      else update_scan fields test (S i) rest count
  end.

(** With conditions and an index for them, [update] calls
    [self._indexes.find_all], a method [IndexManager] does not have. *)
Definition update (fields : Document) (query : QueryArg) (collection : string)
  : M t nat :=
  count <-
    match query with
    | AQuery q =>
        let conditions := Query.get_equality_conditions q in
        let fields_list := conditions.*1 in
        indexed <- gets (fun self =>
          negb (Nat.eqb (length conditions) 0)
          && IndexManager.has_index fields_list (_indexes self)) ;;
        if indexed : bool then raise AttributeError
        else
          docs <- collection_of collection ;;
          update_scan fields (Query.match_ q) 0 docs 0
    | ACallable f =>
        docs <- collection_of collection ;;
        update_scan fields f 0 docs 0
    end ;;
  when (0 <? count) _save ;;
  ret count.

(** The loop of [remove]. [docs !! i] is the document at [i] while
    [i < len(docs)] and nothing once the loop condition fails. Every
    iteration removes a document or advances [i], so the loop ends
    within [len(docs) + 1] tests of its condition. *)
Fixpoint remove_loop (fuel : nat) (test : Document -> Res bool) (collection : string)
    (i count : nat) : M t nat :=
  match fuel with
  | O => raise OutOfFuel
  | S fuel =>
      docs <- collection_of collection ;;
      match docs !! i with
      | Some doc =>
          d <- read doc ;;
          matches <- lift (test d) ;;
          if matches : bool then
            modify (set_collection collection (delete i docs)) ;;
            on_indexes (IndexManager.remove_document i d) ;;
            remove_loop fuel test collection i (count + 1)
          else remove_loop fuel test collection (i + 1) count
      | None => ret count
      end
  end.

Definition remove (query : QueryArg) (collection : string) : M t nat :=
  size <- gets (fun self => length (default [] (_collections self !! collection))) ;;
  count <- remove_loop (S size) (query_test query) collection 0 0 ;;
  when (0 <? count) _save ;;
  ret count.

Definition clear (collection : string) : M t unit :=
  present <- gets (fun self => bool_decide (is_Some (_collections self !! collection))) ;;
  when present (modify (set_collection collection []) ;; _save) ;;
  has_clear <- gets (fun self => Storage.has_clear (_storage self)) ;;
  when has_clear
    (modify (fun self => set_storage (Storage.log Storage.Clear (_storage self)) self)).

Definition count (query : option QueryArg) (collection : string) : M t nat :=
  match query with
  | None => docs <- collection_of collection ;; ret (length docs)
  | Some query => r <- search query collection ;; ret (QueryResult.count r)
  end.

Definition contains (query : QueryArg) (collection : string) : M t bool :=
  r <- get query collection ;; ret (0 <? QueryResult.count r).

Definition document_ids (collection : string) : M t (list nat) :=
  docs <- collection_of collection ;; ret (seq 0 (length docs)).

(** [for i, doc in enumerate(collection): self._indexes.add_document(i, doc)] *)
Fixpoint backfill (i : nat) (docs : list loc) : M t unit :=
  match docs with
  | [] => ret tt
  | doc :: rest =>
      d <- read doc ;;
      on_indexes (IndexManager.add_document i d) ;;
      backfill (S i) rest
  end.

Fixpoint backfill_each (collections : list (list loc)) : M t unit :=
  match collections with
  | [] => ret tt
  | docs :: rest => backfill 0 docs ;; backfill_each rest
  end.

Definition create_index (fields : list string) : M t unit :=
  modify (fun self => set_indexes (IndexManager.create_index fields (_indexes self)) self) ;;
  collections <- gets (fun self => (map_to_list (_collections self)).*2) ;;
  backfill_each collections.

Definition drop_index (fields : list string) : M t unit :=
  modify (fun self => set_indexes (IndexManager.drop_index fields (_indexes self)) self).

Definition query : Query := Query_new.

(** [insert_multiple] has the body of [insert_many]. *)
Definition insert_multiple (str_len : Document -> nat) (documents : list loc)
    (collection : string) : M t (list nat) :=
  insert_many str_len documents collection.

Section Find.
(** [bool(re.search(op_value, str(field_value)))]: the engine and [str]
    are Python's own. *)
Variable re_search : Value -> Value -> Res bool.

Definition is_none (v : Value) : bool := match v with VNone => true | _ => false end.

Definition negate (r : Res bool) : Res bool :=
  match r with
  | Ok b => Ok (negb b)
  | Raise e => Raise e
  end.

Definition _apply_operator (field_value : Value) (op : string) (op_value : Value)
  : Res bool :=
  if String.eqb op "$eq" then Ok (py_eq field_value op_value)
  else if String.eqb op "$ne" then Ok (negb (py_eq field_value op_value))
  else if String.eqb op "$gt" then of_option TypeError (py_order OpGt field_value op_value)
  else if String.eqb op "$gte" then of_option TypeError (py_order OpGe field_value op_value)
  else if String.eqb op "$lt" then of_option TypeError (py_order OpLt field_value op_value)
  else if String.eqb op "$lte" then of_option TypeError (py_order OpLe field_value op_value)
  else if String.eqb op "$in" then py_in field_value op_value
  else if String.eqb op "$nin" then negate (py_in field_value op_value)
  else if String.eqb op "$exists"
  then Ok (py_eq (VBool (negb (is_none field_value))) op_value)
  else if String.eqb op "$regex" then re_search op_value field_value
  else Ok false.

(** The inner loop of [_matches_query]: the operators of one field, in
    the order of the dict; the first that fails decides. *)
Fixpoint apply_operators (field_value : Value) (operators : list (string * Value))
  : Res bool :=
  match operators with
  | [] => Ok true
  | (op, op_value) :: rest =>
      match _apply_operator field_value op op_value with
      | Ok true => apply_operators field_value rest
      | r => r
      end
  end.

(** A dict query: a field maps to a literal, or to a dict of operators. *)
Fixpoint _matches_query (document : Document) (query : list (string * Value)) : Res bool :=
  match query with
  | [] => Ok true
  | (field, value) :: rest =>
      match value with
      | VDict operators =>
          match apply_operators (doc_get document field) operators with
          | Ok true => _matches_query document rest
          | r => r
          end
      | _ =>
          if negb (py_eq (doc_get document field) value) then Ok false
          else _matches_query document rest
      end
  end.

(** [find]: [QueryResult] is called with the documents alone. Without a
    query the result holds the list of the collection: in the source the
    list object itself, which later inserts and removes change; here its
    elements at the time of the call. *)
Definition find (query : option (list (string * Value))) (collection : string)
  : M t QueryResult.t :=
  present <- gets (fun self => bool_decide (is_Some (_collections self !! collection))) ;;
  if negb present then lift (QueryResult.__init__ [] [])
  else
    documents <- collection_of collection ;;
    match query with
    | None | Some [] => lift (QueryResult.__init__ documents [])
    | Some query =>
        matches <- filter_docs (fun doc => _matches_query doc query) documents ;;
        lift (QueryResult.__init__ matches [])
    end.

(** [result[0] if result else None] *)
Definition find_one (query : list (string * Value)) (collection : string)
  : M t (option loc) :=
  result <- find (Some query) collection ;;
  ret (QueryResult.first result).
End Find.

End AtomicDB.

(** ** pool.py

    The pool as one thread sees it, call after call. A wait on the
    queue that finds it empty ends in [queue.Empty] when the timeout has
    passed: no other thread runs in between, so no handle is returned
    during the wait. The pool's lock is a [threading.Lock], which a
    thread that holds it cannot take again: taking it then never
    returns, and the call is [Blocked] with the lock held. *)

Module ConnectionPool.

(** A [DatabaseConnection] object, by identity. *)
Definition conn := nat.

Record t := mk {
  _max_connections : Z;
  _available : list conn;         (* the queue, oldest first *)
  _in_use : list conn;
  _lock : bool;                   (* the lock is held *)
  in_use : gmap conn bool;        (* the attribute [in_use] of each connection *)
  created : nat                   (* connections built so far *)
}.

Inductive Outcome (A : Type) : Type :=
  | Done (r : Res A)
  | Blocked.
Arguments Done {A} r.
Arguments Blocked {A}.

Definition P (A : Type) : Type := t -> Outcome A * t.

Definition pret {A} (a : A) : P A := fun p => (Done (Ok a), p).

Definition praise {A} (e : Exn) : P A := fun p => (Done (Raise e), p).

Definition pbind {A B} (m : P A) (k : A -> P B) : P B :=
  fun p =>
    match m p with
    | (Done (Ok a), p') => k a p'
    | (Done (Raise e), p') => (Done (Raise e), p')
    | (Blocked, p') => (Blocked, p')
    end.

(** [try: m except handled: handler] *)
Definition catch {A} (m : P A) (handled : Exn -> bool) (handler : P A) : P A :=
  fun p =>
    match m p with
    | (Done (Raise e), p') => if handled e then handler p' else (Done (Raise e), p')
    | r => r
    end.

Definition set_lock (b : bool) (p : t) : t :=
  mk (_max_connections p) (_available p) (_in_use p) b (in_use p) (created p).

Definition set_available (q : list conn) (p : t) : t :=
  mk (_max_connections p) q (_in_use p) (_lock p) (in_use p) (created p).

Definition set_in_use (l : list conn) (p : t) : t :=
  mk (_max_connections p) (_available p) l (_lock p) (in_use p) (created p).

Definition set_flag (c : conn) (b : bool) (p : t) : t :=
  mk (_max_connections p) (_available p) (_in_use p) (_lock p) (<[c := b]> (in_use p))
     (created p).

(** [with self._lock: body]: the lock is released when the body returns
    or raises. *)
Definition with_lock {A} (body : P A) : P A :=
  fun p =>
    if _lock p then (Blocked, p)
    else
      match body (set_lock true p) with
      | (Done r, p') => (Done r, set_lock false p')
      | (Blocked, p') => (Blocked, p')
      end.

(** [self._available.get(timeout=self._timeout)] and [get_nowait()] *)
Definition queue_get : P conn :=
  fun p =>
    match _available p with
    | c :: rest => (Done (Ok c), set_available rest p)
    | [] => (Done (Raise QueueEmpty), p)
    end.

Definition qsize (p : t) : Z := Z.of_nat (length (_available p)).

Definition below_capacity (p : t) : bool :=
  (Z.of_nat (length (_in_use p)) + qsize p <? _max_connections p)%Z.

Definition _create_connection : P conn :=
  with_lock (fun p =>
    if below_capacity p then
      let c := created p in
      (Done (Ok c),
       mk (_max_connections p) (_available p ++ [c]) (_in_use p) (_lock p)
          (<[c := false]> (in_use p)) (S (created p)))
    else (Done (Raise RuntimeError), p)).

Definition is_full_or_empty (e : Exn) : bool :=
  match e with RuntimeError | QueueEmpty => true | _ => false end.

Definition is_empty (e : Exn) : bool :=
  match e with QueueEmpty => true | _ => false end.

Definition get_connection : P conn :=
  pbind
    (catch queue_get is_empty
       (with_lock
          (catch
             (fun p =>
                if below_capacity p
                then pbind _create_connection (fun _ => queue_get) p
                else praise QueueEmpty p)
             is_full_or_empty
             queue_get)))
    (fun c =>
       pbind (with_lock (fun p => (Done (Ok tt), set_in_use (_in_use p ++ [c]) (set_flag c true p))))
             (fun _ => pret c)).

(** [list.remove]: the first occurrence. *)
Fixpoint list_remove (c : conn) (l : list conn) : list conn :=
  match l with
  | [] => []
  | x :: r => if decide (c = x) then r else x :: list_remove c r
  end.

Definition return_connection (c : conn) : P unit :=
  with_lock (fun p =>
    if bool_decide (c ∈ _in_use p) then
      (Done (Ok tt),
       set_available (_available p ++ [c]) (set_flag c false (set_in_use (list_remove c (_in_use p)) p)))
    else (Done (Ok tt), p)).

Definition close_all : P unit :=
  with_lock (fun p => (Done (Ok tt), set_available [] (set_in_use [] p))).

(** [ConnectionPool(max_connections=n)]: the constructor creates the
    first connection, and raises if even that one exceeds the bound. *)
Definition __init__ (max_connections : Z) : Outcome unit * t :=
  pbind _create_connection (fun _ => pret tt) (mk max_connections [] [] false ∅ 0).

(** The calls a client makes on a pool, and the pools they lead to. *)
Inductive Call :=
  | GetConnection
  | ReturnConnection (c : conn)
  | CloseAll
  | CreateConnection.

Definition after (c : Call) (p : t) : t :=
  match c with
  | GetConnection => snd (get_connection p)
  | ReturnConnection c => snd (return_connection c p)
  | CloseAll => snd (close_all p)
  | CreateConnection => snd (_create_connection p)
  end.

Inductive reachable (max_connections : Z) : t -> Prop :=
  | reachable_init p :
      __init__ max_connections = (Done (Ok tt), p) -> reachable max_connections p
  | reachable_call c p :
      reachable max_connections p -> reachable max_connections (after c p).

End ConnectionPool.

(** The facade over the pool. Each connection holds a database of its
    own: [dbs] gives the database of every connection object. The lock
    of a connection is re-entrant and taken by one caller at a time
    here, so entering it always succeeds. *)
Module ThreadSafeDatabase.

Record t := mk {
  _pool : ConnectionPool.t;
  dbs : ConnectionPool.conn -> AtomicDB.t
}.

(** The databases after the operation left [db] in connection [conn]. *)
Definition set_db (conn : ConnectionPool.conn) (db : AtomicDB.t)
    (dbs : ConnectionPool.conn -> AtomicDB.t) : ConnectionPool.conn -> AtomicDB.t :=
  fun c => if Nat.eqb c conn then db else dbs c.

(** [execute]: a connection is taken from the pool, the operation runs
    on its database, and [finally] the connection is returned. *)
Definition execute {A} (operation : M AtomicDB.t A) : t -> ConnectionPool.Outcome A * t :=
  fun self =>
    match ConnectionPool.get_connection (_pool self) with
    | (ConnectionPool.Done (Ok conn), pool) =>
        let (result, db) := operation (dbs self conn) in
        let dbs' := set_db conn db (dbs self) in
        match ConnectionPool.return_connection conn pool with
        | (ConnectionPool.Done _, pool') => (ConnectionPool.Done result, mk pool' dbs')
        | (ConnectionPool.Blocked, pool') => (ConnectionPool.Blocked, mk pool' dbs')
        end
    | (ConnectionPool.Done (Raise e), pool) => (ConnectionPool.Done (Raise e), mk pool (dbs self))
    | (ConnectionPool.Blocked, pool) => (ConnectionPool.Blocked, mk pool (dbs self))
    end.

(** [atomic_update] enters [db._storage._lock] first; the backends of
    the package have no attribute [_lock]. *)
Definition atomic_update : t -> ConnectionPool.Outcome (option loc) * t :=
  execute (raise AttributeError).

Definition insert (str_len : Document -> nat) (document : loc) :=
  execute (AtomicDB.insert str_len document "default").

Definition insert_many (str_len : Document -> nat) (documents : list loc) :=
  execute (AtomicDB.insert_many str_len documents "default").

Definition get (query : QueryArg) := execute (AtomicDB.get query "default").

Definition search (query : QueryArg) := execute (AtomicDB.search query "default").

Definition update (fields : Document) (query : QueryArg) :=
  execute (AtomicDB.update fields query "default").

Definition remove (query : QueryArg) := execute (AtomicDB.remove query "default").

Definition clear := execute (AtomicDB.clear "default").

Definition query := execute (ret AtomicDB.query).

(** [close]: the connections are dropped from the pool. *)
Definition close (self : t) : ConnectionPool.Outcome unit * t :=
  let (r, pool) := ConnectionPool.close_all (_pool self) in (r, mk pool (dbs self)).

End ThreadSafeDatabase.

(** * Specification-side definitions *)

Global Instance ValidationReason_eq_dec : EqDecision ValidationReason.
Proof. solve_decision. Defined.

Global Instance Exn_eq_dec : EqDecision Exn.
Proof. solve_decision. Defined.

(** [test] holds of the document at [doc]. *)
Definition is_match (test : Document -> Res bool) (h : gmap loc Document) (doc : loc) : bool :=
  match test (deref h doc) with
  | Ok true => true
  | _ => false
  end.

(** [test] evaluates on every document of [docs] without raising. *)
Definition evaluates (test : Document -> Res bool) (h : gmap loc Document) (docs : list loc)
  : Prop :=
  forall doc, doc ∈ docs -> exists b, test (deref h doc) = Ok b.

(** ** Schema violations, in the words of the specification *)

(** A value has the wrong type for a declared type name: the five names
    the validator knows, each against its Python class. As [bool] is a
    subclass of [int] in Python, a boolean is a number. *)
Definition wrong_type (type_name : string) (value : Value) : Prop :=
  (type_name = "string" /\ is_str value = false) \/
  (type_name = "number" /\ is_number value = false) \/
  (type_name = "boolean" /\ is_bool value = false) \/
  (type_name = "object" /\ is_dict value = false) \/
  (type_name = "array" /\ is_list value = false).

(** The document violates the schema: a required field is missing, or a
    field that is present has the wrong type. *)
Definition violates (schema : Schema.CollectionSchema) (document : Document) : Prop :=
  exists field field_schema,
    (field, field_schema) ∈ schema /\
    match document !! field with
    | None => Schema.required field_schema = true
    | Some value =>
        exists type_name,
          Schema.type_ field_schema = Some type_name /\ wrong_type type_name value
    end.

(** ** What [remove] tells the index manager *)

(** The removals of a left-to-right scan that starts at position [i]: a
    matching document is removed at the position the scan stands at, and
    the scan stays there; any other document moves the scan on. *)
Fixpoint removals (test : Document -> Res bool) (h : gmap loc Document)
    (docs : list loc) (i : nat) : list (nat * Document) :=
  match docs with
  | [] => []
  | doc :: rest =>
      if is_match test h doc
      then (i, deref h doc) :: removals test h rest i
      else removals test h rest (S i)
  end.

(** The index manager after it was told of each removal in turn, and
    nothing else. *)
Fixpoint notify_removals (rs : list (nat * Document)) : M IndexManager.t unit :=
  match rs with
  | [] => ret tt
  | (i, d) :: rest => IndexManager.remove_document i d ;; notify_removals rest
  end.


(** ** What [update] tells the index manager *)

(** The (position, old, new) triples of the documents of [docs] that
    match, the first of them at position [i]. *)
Fixpoint changes (fields : Document) (test : Document -> Res bool) (h : gmap loc Document)
    (docs : list loc) (i : nat) : list (nat * Document * Document) :=
  match docs with
  | [] => []
  | doc :: rest =>
      if is_match test h doc
      then (i, deref h doc, fields ∪ deref h doc) :: changes fields test h rest (S i)
      else changes fields test h rest (S i)
  end.

Fixpoint notify_changes (cs : list (nat * Document * Document)) : M IndexManager.t unit :=
  match cs with
  | [] => ret tt
  | (i, old_doc, new_doc) :: rest =>
      IndexManager.update_document i old_doc new_doc ;; notify_changes rest
  end.

(** The documents after [update]: the fields are merged into each
    document of the scan that matched in the store [h0] of before the
    call. *)
Definition merge_one (fields : Document) (test : Document -> Res bool)
    (h0 : gmap loc Document) (h : gmap loc Document) (doc : loc) : gmap loc Document :=
  if is_match test h0 doc then <[doc := fields ∪ deref h0 doc]> h else h.

(** ** Stable sorting *)

(** The elements of [l] whose key is [k], in the order of [l]. *)
Definition with_key {A} (key : A -> Value) (k : Value) (l : list A) : list A :=
  filter (fun x => key x = k) l.

(** The elements of [l] whose key equals [k] under [==], in the order
    of [l]: [True] and [1] are in one group. *)
Definition same_key {A} (key : A -> Value) (k : Value) (l : list A) : list A :=
  List.filter (fun x => py_eq (key x) k) l.

(** [x] may stand before [y]: it is smaller, or at least [y] is not
    smaller than it. *)
Definition in_order {A} (key : A -> Value) (x y : A) : Prop :=
  key_lt key x y = Ok true \/ key_lt key y x = Ok false.

(** ** The bound of the pool *)

(** The handles the pool holds: those waiting in the queue and those
    handed out. *)
Definition handles (p : ConnectionPool.t) : Z :=
  Z.of_nat (length (ConnectionPool._available p))
  + Z.of_nat (length (ConnectionPool._in_use p)).

(** What every reachable pool satisfies: the bound, and a lock that is
    held (by a call that is blocked for good) only below the bound. *)
Definition pool_inv (max_connections : Z) (p : ConnectionPool.t) : Prop :=
  ConnectionPool._max_connections p = max_connections /\
  (handles p <= max_connections)%Z /\
  (ConnectionPool._lock p = true -> (handles p < max_connections)%Z).

(** ** What [insert] leaves behind

    The state after the statistics of the collection were recorded and
    the collections saved, given the state in which the document was
    appended and the indexes told. *)
Definition finish_insert (str_len : Document -> nat) (collection : string) (doc : Document)
    (docs : list loc) (self : AtomicDB.t) : AtomicDB.t :=
  let stats : gmap string nat :=
    {[ "document_count" := length docs;
       "avg_document_size" := str_len doc;
       "total_size" := sum_list (str_len ∘ deref (AtomicDB.heap self) <$> docs) ]} in
  snd (AtomicDB._save
         (AtomicDB.set_schema
            (Schema.update_metadata collection stats (AtomicDB._schema self)) self)).

(** ** Dict queries as query objects *)

(** The leaf of the query language that a comparison operator of a dict
    query stands for. *)
Definition leaf_of (op : string) (field : Field.t) (value : Value) : option Query :=
  if String.eqb op "$eq" then Some (Field.__eq__ field value)
  else if String.eqb op "$ne" then Some (Field.__ne__ field value)
  else if String.eqb op "$gt" then Some (Field.__gt__ field value)
  else if String.eqb op "$gte" then Some (Field.__ge__ field value)
  else if String.eqb op "$lt" then Some (Field.__lt__ field value)
  else if String.eqb op "$lte" then Some (Field.__le__ field value)
  else None.

Fixpoint leaves_of (field : Field.t) (operators : list (string * Value)) : option Query :=
  match operators with
  | [] => Some Query_new
  | (op, value) :: rest =>
      q ← leaf_of op field value;
      r ← leaves_of field rest;
      Some (Query.__and__ q r)
  end.

(** The query object a dict query stands for: the conjunction of its
    leaves, in the order of the dict. Nothing for a query that uses
    another operator. *)
Fixpoint as_query (query : list (string * Value)) : option Query :=
  match query with
  | [] => Some Query_new
  | (field, value) :: rest =>
      q ← match value with
          | VDict operators => leaves_of (Query.__getattr__ Query_new field) operators
          | _ => Some (Field.__eq__ (Query.__getattr__ Query_new field) value)
          end;
      r ← as_query rest;
      Some (Query.__and__ q r)
  end.

(** The operators [_apply_operator] knows. *)
Definition known_operators : list string :=
  ["$eq"; "$ne"; "$gt"; "$gte"; "$lt"; "$lte"; "$in"; "$nin"; "$exists"; "$regex"].

(** The document equals each literal of the query at its field. *)
Definition has_literals (query : list (string * Value)) (document : Document) : bool :=
  forallb (fun kv => py_eq (doc_get document kv.1) kv.2) query.

(** ** The buckets of an index *)

(** Every bucket of the index holds a position: [remove_document]
    deletes the bucket it empties. *)
Definition no_empty_bucket (index : Index.t) : Prop :=
  forall k s, Index._index index !! k = Some s -> s <> ∅.

(** The index after [doc_id] was added under the hashed key [k]. *)
Definition added (k : list HKey) (doc_id : nat) (index : Index.t) : Index.t :=
  Index.set_bucket k (Index.bucket index k ∪ {[ doc_id ]}) index.

(** The index after [doc_id] was discarded from the bucket of [k], if
    there is one. *)
Definition discarded (k : list HKey) (doc_id : nat) (index : Index.t) : Index.t :=
  if Index.has_key index k
  then if bool_decide (Index.bucket index k ∖ {[ doc_id ]} = ∅)
       then Index.del_bucket k index
       else Index.set_bucket k (Index.bucket index k ∖ {[ doc_id ]}) index
  else index.

(** The index after it was told to add each entry in turn. *)
Definition filled (entries : list (nat * Document)) (index : Index.t) : Index.t :=
  foldl (fun index entry => snd (Index.add_document entry.1 entry.2 index)) index entries.

(** ** The keys of the index manager *)

(** [x] is not after [y] in the order of code points. *)
Definition str_le (x y : string) : Prop := String.ltb y x = false.

(** No two entries of the dict [_indexes] have the same key. *)
Definition distinct_keys (indexes : IndexManager.t) : Prop :=
  NoDup (IndexManager._indexes indexes).*1.

(** The index manager after every index was told to add the document. *)
Definition told_add (doc_id : nat) (doc : Document) (indexes : IndexManager.t)
  : IndexManager.t :=
  IndexManager.mk
    (prod_map id (fun index => snd (Index.add_document doc_id doc index))
       <$> IndexManager._indexes indexes).

(** ** The documents [insert] accepts *)

(** Every value of the document can be hashed: no list and no dict at
    the top level. *)
Definition hashable_doc (doc : Document) : Prop :=
  forall field value, doc !! field = Some value -> is_Some (hash_value value).

(** [insert] accepts the document at [document]: the schema of the
    collection admits it and its values can be hashed. *)
Definition accepted (collection : string) (self : AtomicDB.t) (document : loc) : Prop :=
  Schema.validate_document collection (deref (AtomicDB.heap self) document)
    (AtomicDB._schema self) = Ok tt /\
  hashable_doc (deref (AtomicDB.heap self) document).

(** The documents of a collection with their positions, the first at
    position [i]. *)
Fixpoint positions (h : gmap loc Document) (docs : list loc) (i : nat)
  : list (nat * Document) :=
  match docs with
  | [] => []
  | doc :: rest => (i, deref h doc) :: positions h rest (S i)
  end.

(** ** The handles of the pool *)

(** No handle is held twice, and every handle held was built by the
    pool. *)
Definition distinct_handles (p : ConnectionPool.t) : Prop :=
  NoDup (ConnectionPool._available p ++ ConnectionPool._in_use p) /\
  Forall (fun c => c < ConnectionPool.created p)
         (ConnectionPool._available p ++ ConnectionPool._in_use p).

(** * Example data *)

Module Examples.
Import AtomicDB.

Definition john : Document := {[ "name" := VStr "John"; "age" := VInt 30 ]}.
Definition jane : Document := {[ "name" := VStr "Jane"; "age" := VInt 25 ]}.
Definition anonymous : Document := {[ "age" := VInt 41 ]}.

(** [db.query().name == value] *)
Definition name_is (value : string) : Query :=
  Field.__eq__ (Query.__getattr__ AtomicDB.query "name") (VStr value).

Definition age_is (value : Z) : Query :=
  Field.__eq__ (Query.__getattr__ AtomicDB.query "age") (VInt value).

(** [lambda x: x["name"] == "John"] *)
Definition name_is_john : Document -> Res bool :=
  fun x =>
    match x !! "name" with
    | Some v => Ok (py_eq v (VStr "John"))
    | None => Raise KeyError
    end.

Definition backend : Storage.t := Storage.mk true [].

(** A database opened on an empty store. *)
Definition empty_db : t := __init__ backend ∅ ∅.

(** A database opened on a store that holds John and Jane. *)
Definition two_db : t :=
  __init__ backend {[ 0 := john; 1 := jane ]} {[ "default" := [0; 1] ]}.

(** A database whose only document has no name. *)
Definition anonymous_db : t :=
  __init__ backend {[ 0 := anonymous ]} {[ "default" := [0] ]}.

(** The same store with an index on ["name"]. *)
Definition indexed_db : t := snd (create_index ["name"] two_db).

(** A collection with a schema that requires an email address. *)
Definition users_schema : Schema.CollectionSchema :=
  [ ("name", Schema.mkField true (Some "string"));
    ("email", Schema.mkField true (Some "string"));
    ("age", Schema.mkField false (Some "number")) ].

(** A store with that collection, and Jane, who has no email address, as
    a caller's dict at location 0. *)
Definition users_db : t :=
  snd ((create_collection "users" users_schema ;; new_dict jane) empty_db).

(** A stand-in for [len(str(d))] in the examples, which do not read the
    statistics. *)
Definition no_len : Document -> nat := fun _ => 0.

(** An index on ["name"] is created on an empty store, then John and
    Jane are inserted. *)
Definition inserted_db (str_len : Document -> nat) : t :=
  snd ((create_index ["name"] ;;
        a <- new_dict john ;; insert str_len a "default" ;;
        b <- new_dict jane ;; insert str_len b "default") empty_db).

(** An index on ["age"] is created on an empty store, then the one
    dict object that holds John is inserted twice: positions 0 and 1 of
    the collection are the same object. *)
Definition aliased_db : t :=
  snd ((create_index ["age"] ;;
        a <- new_dict john ;; insert no_len a "default" ;; insert no_len a "default")
         empty_db).

End Examples.

(** * Properties *)

Import AtomicDB.

Ltac run_monad :=
  cbv beta iota zeta delta
    [bind ret gets modify lift raise when zoom on_indexes
     collection_of read copy new_dict dict_update _save] in *.

(** ** Reading scans *)

(** A scan reads documents and changes nothing. *)
Lemma filter_docs_state test docs self : snd (filter_docs test docs self) = self.
Proof.
  induction docs as [|doc rest IH]; [reflexivity|].
  simpl. run_monad.
  destruct (test (deref (heap self) doc)) as [b|e]; [|reflexivity].
  destruct (filter_docs test rest self) as [[kept|e] self'] eqn:E;
    simpl in IH; subst; reflexivity.
Qed.

(** A scan on which the test evaluates keeps exactly the matching
    documents, the stored objects themselves and in their order. *)
Lemma filter_docs_ok test docs self :
  evaluates test (heap self) docs ->
  fst (filter_docs test docs self) = Ok (List.filter (is_match test (heap self)) docs).
Proof.
  induction docs as [|doc rest IH]; intros Hev; [reflexivity|].
  simpl. run_monad. unfold is_match at 1.
  destruct (Hev doc) as [b Hb]; [left|]. rewrite Hb.
  assert (Hrest : evaluates test (heap self) rest).
  { intros d Hd. apply Hev. by right. }
  specialize (IH Hrest).
  pose proof (filter_docs_state test rest self) as Hst.
  destruct (filter_docs test rest self) as [[kept|e] self']; simpl in *; [|discriminate].
  inversion IH; subst. by destruct b.
Qed.

(** A scan never returns an exception other than one the test raised. *)
Lemma filter_docs_raise test docs self e :
  fst (filter_docs test docs self) = Raise e ->
  exists doc, doc ∈ docs /\ test (deref (heap self) doc) = Raise e.
Proof.
  induction docs as [|doc rest IH]; [discriminate|].
  simpl. run_monad.
  destruct (test (deref (heap self) doc)) as [b|e'] eqn:Hb.
  - pose proof (filter_docs_state test rest self) as Hst.
    destruct (filter_docs test rest self) as [[kept|e'] self']; simpl in *; [discriminate|].
    intros [= ->]. destruct IH as (d & Hd & He); [reflexivity|].
    exists d. split; [by right|done].
  - simpl. intros [= ->]. exists doc. split; [left|done].
Qed.

(** Copying every document of a list always succeeds. *)
Lemma copy_all_ok docs self : exists copies, fst (copy_all docs self) = Ok copies.
Proof.
  revert self. induction docs as [|doc rest IH]; intros self; [by eexists|].
  simpl. run_monad.
  match goal with |- context [copy_all rest ?s] => destruct (IH s) as [cs Hcs] end.
  match goal with |- context [copy_all rest ?s] =>
    destruct (copy_all rest s) as [[cs'|e] s'] end; simpl in *; [by eexists|discriminate].
Qed.

(** The placeholder extracts nothing, so no query selects an index. *)
Lemma search_docs_is_full_scan q collection self :
  search_docs (AQuery q) collection self = full_scan (Query.match_ q) collection self.
Proof. reflexivity. Qed.

Lemma get_docs_is_full_scan query collection self :
  get_docs query collection self = full_scan (query_test query) collection self.
Proof. destruct query; reflexivity. Qed.

Lemma search_docs_is_full_scan_any query collection self :
  search_docs query collection self = full_scan (query_test query) collection self.
Proof. destruct query; reflexivity. Qed.

Lemma full_scan_missing test collection self :
  _collections self !! collection = None ->
  fst (full_scan test collection self) = Raise KeyError.
Proof. intros H. unfold full_scan. run_monad. by rewrite H. Qed.

Lemma full_scan_found test collection self docs :
  _collections self !! collection = Some docs ->
  full_scan test collection self = filter_docs test docs self.
Proof. intros H. unfold full_scan. run_monad. by rewrite H. Qed.

(** ** C1: equality-condition extraction and the planner *)

(** C1, as the code has it: for every query, an AND of equality leaves
    as much as one built with OR, NOT, a range, a regular expression or a
    containment test, the extraction returns the empty mapping; so
    whatever indexes exist, [search] does the full scan, and the
    documents it collects are exactly the documents of the collection
    on which the query holds. *)
Theorem extraction_empty_search_scans (q : Query) (collection : string) (self : AtomicDB.t) :
  Query.get_equality_conditions q = [] /\
  search_docs (AQuery q) collection self = full_scan (Query.match_ q) collection self /\
  (forall docs,
     _collections self !! collection = Some docs ->
     evaluates (Query.match_ q) (heap self) docs ->
     fst (search_docs (AQuery q) collection self)
       = Ok (List.filter (is_match (Query.match_ q) (heap self)) docs)).
Proof.
  split; [reflexivity|]. split; [reflexivity|].
  intros docs Hc Hev. rewrite search_docs_is_full_scan, (full_scan_found _ _ _ _ Hc).
  by apply filter_docs_ok.
Qed.

(** The theorem at work on the store of John and Jane with an index on
    ["name"]: the search for [name == "Jane"] is the scan, which finds
    Jane at position 1. *)
Lemma extraction_empty_search_scans_witness :
  fst (search_docs (AQuery (Examples.name_is "Jane")) "default" Examples.indexed_db) = Ok [1].
Proof.
  destruct (extraction_empty_search_scans (Examples.name_is "Jane") "default"
              Examples.indexed_db) as (_ & _ & Hscan).
  rewrite (Hscan [0; 1]); [reflexivity|reflexivity|].
  intros doc _. eexists. reflexivity.
Defined.

(** C1 fails as stated: the AND of the two equality leaves [name == "John"]
    and [age == 30] extracts no condition at all, where the claim has the
    two-field mapping. *)
Lemma and_of_equalities_extracts_nothing :
  let q := Query.__and__ (Examples.name_is "John") (Examples.age_is 30) in
  Query.get_equality_conditions q = [] /\
  ~ (assoc_lookup "name" (Query.get_equality_conditions q) = Some (VStr "John") /\
     assoc_lookup "age" (Query.get_equality_conditions q) = Some (VInt 30)).
Proof. split; [reflexivity|]. intros [H _]. discriminate H. Qed.

(** ** C2: [get], [search] and [all] never return *)

(** Whatever list of documents it is given, [QueryResult] called with the
    database instance as a second argument raises. *)
Lemma construct_raises (m : M AtomicDB.t (list loc)) self :
  exists e,
    fst ((docs <- m ;; lift (QueryResult.__init__ docs [DatabaseInstance])) self) = Raise e
    /\ (e = TypeError \/ fst (m self) = Raise e).
Proof.
  run_monad. destruct (m self) as [[docs|e] self']; simpl.
  - exists TypeError. auto.
  - exists e. auto.
Qed.

(** The scan ends at the first document on which the test raises, with
    the exception of the test. *)
Lemma filter_docs_first_raise test before doc after self e :
  evaluates test (heap self) before ->
  test (deref (heap self) doc) = Raise e ->
  fst (filter_docs test (before ++ doc :: after) self) = Raise e.
Proof.
  intros Hev Hdoc. induction before as [|d before IH]; simpl.
  - run_monad. by rewrite Hdoc.
  - destruct (Hev d) as [b Hb]; [by left|].
    run_monad. rewrite Hb. simpl.
    assert (IH' : fst (filter_docs test (before ++ doc :: after) self) = Raise e).
    { apply IH. intros x Hx. apply Hev. by right. }
    destruct (filter_docs test (before ++ doc :: after) self) as [[kept|e'] s]; simpl in *;
      [discriminate|done].
Qed.

(** C2, as the code has it: no call of [get], [search] or [all] returns
    a result, in any state and for any query and collection. On a
    collection that does not exist all three raise [KeyError]. On a
    collection that exists, [all] raises the [TypeError] of the
    [QueryResult] constructor, which is given the database instance as a
    second positional argument; [get] and [search] raise that
    [TypeError] when the query evaluates on every document, and
    otherwise the exception the query raises on the first document on
    which it raises. *)
Theorem get_search_all_raise (self : AtomicDB.t) (query : QueryArg) (collection : string) :
  (exists e, fst (get query collection self) = Raise e) /\
  (exists e, fst (search query collection self) = Raise e) /\
  (exists e, fst (all collection self) = Raise e) /\
  (_collections self !! collection = None ->
   fst (get query collection self) = Raise KeyError /\
   fst (search query collection self) = Raise KeyError /\
   fst (all collection self) = Raise KeyError) /\
  (forall docs,
     _collections self !! collection = Some docs ->
     fst (all collection self) = Raise TypeError /\
     (evaluates (query_test query) (heap self) docs ->
      fst (get query collection self) = Raise TypeError /\
      fst (search query collection self) = Raise TypeError) /\
     (forall before doc after e,
        docs = before ++ doc :: after ->
        evaluates (query_test query) (heap self) before ->
        query_test query (deref (heap self) doc) = Raise e ->
        fst (get query collection self) = Raise e /\
        fst (search query collection self) = Raise e)).
Proof.
  assert (Hall : forall docs, _collections self !! collection = Some docs ->
                              fst (all collection self) = Raise TypeError).
  { intros docs H. unfold all. run_monad. rewrite H. simpl.
    destruct (copy_all_ok docs self) as [copies Hc].
    destruct (copy_all docs self) as [[cs|e] s]; simpl in *; [done|discriminate]. }
  assert (Hscan : forall e,
            fst (full_scan (query_test query) collection self) = Raise e ->
            fst (get query collection self) = Raise e /\
            fst (search query collection self) = Raise e).
  { intros e He. unfold get, search. run_monad.
    rewrite get_docs_is_full_scan, search_docs_is_full_scan_any.
    destruct (full_scan (query_test query) collection self) as [[kept|e'] s]; simpl in *;
      [discriminate|]. by injection He as ->. }
  split; [|split; [|split; [|split]]].
  - destruct (construct_raises (get_docs query collection) self) as (e & He & _). by exists e.
  - destruct (construct_raises (search_docs query collection) self) as (e & He & _). by exists e.
  - destruct (_collections self !! collection) as [docs|] eqn:H.
    + exists TypeError. by apply (Hall docs).
    + exists KeyError. unfold all. run_monad. by rewrite H.
  - intros H. destruct (Hscan KeyError (full_scan_missing _ _ _ H)) as [Hg Hs].
    split; [exact Hg|]. split; [exact Hs|].
    unfold all. run_monad. by rewrite H.
  - intros docs H. split; [by apply (Hall docs)|]. split.
    + intros Hev.
      pose proof (filter_docs_ok _ _ _ Hev) as Hok.
      unfold get, search. run_monad.
      rewrite get_docs_is_full_scan, search_docs_is_full_scan_any.
      rewrite (full_scan_found _ _ _ _ H).
      destruct (filter_docs (query_test query) docs self) as [[kept|e] s]; simpl in *;
        [done|discriminate].
    + intros before doc after e -> Hev Hdoc. apply Hscan.
      rewrite (full_scan_found _ _ _ _ H).
      by apply filter_docs_first_raise.
Qed.

(** The theorem at work on the store that holds John and Jane. *)
Lemma get_search_all_raise_witness :
  fst (all "default" Examples.two_db) = Raise TypeError /\
  fst (get (AQuery (Examples.name_is "John")) "default" Examples.two_db) = Raise TypeError /\
  fst (search (AQuery (Examples.name_is "John")) "default" Examples.two_db) = Raise TypeError /\
  fst (get (AQuery (Examples.name_is "John")) "archive" Examples.two_db) = Raise KeyError.
Proof.
  destruct (get_search_all_raise Examples.two_db (AQuery (Examples.name_is "John")) "default")
    as (_ & _ & _ & _ & H).
  destruct (H [0; 1]) as (Hall & Hq & _); [reflexivity|].
  split; [exact Hall|].
  destruct Hq as [Hg Hs]; [intros doc _; eexists; reflexivity|].
  split; [exact Hg|]. split; [exact Hs|].
  destruct (get_search_all_raise Examples.two_db (AQuery (Examples.name_is "John")) "archive")
    as (_ & _ & _ & Hmissing & _).
  apply Hmissing. reflexivity.
Defined.

(** C2 fails as stated: a caller's function that reads a key the document
    lacks raises [KeyError] during the scan of [get], and [all] on a
    collection that does not exist raises [KeyError]; neither is a
    [TypeError]. *)
Lemma get_and_all_raise_key_error :
  fst (get (ACallable Examples.name_is_john) "default" Examples.anonymous_db) = Raise KeyError /\
  fst (all "archive" Examples.anonymous_db) = Raise KeyError /\
  Raise KeyError <> Raise (A := QueryResult.t) TypeError.
Proof. split; [|split]; [vm_compute; reflexivity..|discriminate]. Qed.

(** ** C3: index consistency is lost by [remove] *)

(** C3 at its failing input: an index on ["name"] is created, John is
    inserted (position 0) and then Jane (position 1). After
    [remove(name == "John")] the collection is Jane alone, at position 0,
    but the index still answers Jane's name with position 1, where there
    is no document. *)
Lemma index_stale_after_remove (str_len : Document -> nat) :
  let before := Examples.inserted_db str_len in
  let self := snd (remove (AQuery (Examples.name_is "John")) "default" before) in
  fst (remove (AQuery (Examples.name_is "John")) "default" before) = Ok 1 /\
  exists docs index,
    _collections self !! "default" = Some docs /\
    deref (heap self) <$> docs = [Examples.jane] /\
    IndexManager.get_index ["name"] (_indexes self) = Some index /\
    Index._get_key index Examples.jane = Some [VStr "Jane"] /\
    Index.find_all [VStr "Jane"] index = Ok {[ 1 ]} /\
    docs !! 1 = None.
Proof.
  split; [vm_compute; reflexivity|].
  eexists _, _. repeat split; vm_compute; reflexivity.
Qed.

(** ** C4: the documents of a search are not copies *)

(** The scan returns locations of the list it is given. *)
Lemma filter_docs_sublist test docs self kept :
  fst (filter_docs test docs self) = Ok kept -> kept ⊆ docs.
Proof.
  revert kept. induction docs as [|doc rest IH]; intros kept.
  - simpl. by intros [= <-].
  - simpl. run_monad.
    destruct (test (deref (heap self) doc)) as [b|e]; [|discriminate].
    destruct (filter_docs test rest self) as [[kept'|e] s]; simpl in *; [|discriminate].
    intros [= <-]. specialize (IH kept' eq_refl).
    intros x Hx. destruct b.
    + apply elem_of_cons in Hx as [->|Hx]; [left|right; by apply IH].
    + right. by apply IH.
Qed.

(** The full scan allocates nothing and returns locations of the
    collection itself. *)
Lemma full_scan_shares test collection self docs kept :
  _collections self !! collection = Some docs ->
  fst (full_scan test collection self) = Ok kept ->
  snd (full_scan test collection self) = self /\ kept ⊆ docs.
Proof.
  intros H. rewrite (full_scan_found _ _ _ _ H). intros Hk.
  split; [apply filter_docs_state|by eapply filter_docs_sublist].
Qed.

(** Whatever the query, the documents [search] collects are locations of
    the collection, and no object was created for them. *)
Lemma search_docs_shares query collection self docs found :
  _collections self !! collection = Some docs ->
  fst (search_docs query collection self) = Ok found ->
  snd (search_docs query collection self) = self /\ found ⊆ docs.
Proof. rewrite search_docs_is_full_scan_any. apply full_scan_shares. Qed.

(** C4 at its failing input: the store holds John (age 30) and Jane. The
    documents [search(name == "John")] collects are the stored object of
    John, not a copy; the call then raises [TypeError] in the
    [QueryResult] constructor, so no result is returned at all. After
    [update({"age": 31}, name == "John")] the collected list reads John
    with age 31. *)
Lemma search_result_follows_update :
  let q := AQuery (Examples.name_is "John") in
  let found := search_docs q "default" Examples.two_db in
  let later := snd (update {[ "age" := VInt 31 ]} q "default" (snd found)) in
  fst (search q "default" Examples.two_db) = Raise TypeError /\
  fst found = Ok [0] /\
  _collections (snd found) !! "default" = Some [0; 1] /\
  deref (heap (snd found)) <$> [0] = [Examples.john] /\
  deref (heap later) <$> [0] = [ {[ "name" := VStr "John"; "age" := VInt 31 ]} ].
Proof. repeat split; vm_compute; reflexivity. Qed.

(** ** C5: [insert] and the schema *)

Lemma check_type_spec field field_type value :
  match Schema.check_type field field_type value with
  | Ok _ => forall type_name, field_type = Some type_name -> ~ wrong_type type_name value
  | Raise e =>
      exists type_name,
        field_type = Some type_name /\ wrong_type type_name value /\
        e = ValidationError (MustBe field type_name)
  end.
Proof.
  unfold Schema.check_type, Schema.declares, wrong_type.
  repeat (case_bool_decide; simpl); subst; try congruence;
    repeat match goal with
           | |- context [negb (?f value)] => destruct (f value) eqn:?; simpl
           end;
    try (eexists; split; [reflexivity|]; split; [|reflexivity]; tauto);
    intros type_name Hty; subst; intros [[? ?]|[[? ?]|[[? ?]|[[? ?]|[? ?]]]]];
    congruence.
Qed.

Lemma validate_against_schema_spec document schema :
  match Schema._validate_against_schema document schema with
  | Ok _ => ~ violates schema document
  | Raise e => violates schema document /\ exists reason, e = ValidationError reason
  end.
Proof.
  induction schema as [|[field field_schema] rest IH]; simpl.
  - intros (f & fs & Hin & _). by apply elem_of_nil in Hin.
  - assert (Hrest : violates rest document -> violates ((field, field_schema) :: rest) document).
    { intros (f & fs & Hin & H). exists f, fs. split; [by right|done]. }
    destruct (document !! field) as [value|] eqn:Hdoc.
    + pose proof (check_type_spec field (Schema.type_ field_schema) value) as Hck.
      destruct (Schema.check_type field (Schema.type_ field_schema) value) as [[]|e].
      * destruct (Schema._validate_against_schema document rest) as [[]|e].
        -- intros (f & fs & Hin & H). apply elem_of_cons in Hin as [[= -> ->]|Hin].
           ++ rewrite Hdoc in H. destruct H as (tn & Hty & Hw). by apply (Hck tn).
           ++ apply IH. by exists f, fs.
        -- destruct IH as [Hv Hr]. auto.
      * destruct Hck as (tn & Hty & Hw & ->). split; [|by eexists].
        exists field, field_schema. split; [left|]. rewrite Hdoc. by exists tn.
    + destruct (Schema.required field_schema) eqn:Hreq.
      * split; [|by eexists]. exists field, field_schema. split; [left|]. by rewrite Hdoc.
      * destruct (Schema._validate_against_schema document rest) as [[]|e].
        -- intros (f & fs & Hin & H). apply elem_of_cons in Hin as [[= -> ->]|Hin].
           ++ rewrite Hdoc in H. congruence.
           ++ apply IH. by exists f, fs.
        -- destruct IH as [Hv Hr]. auto.
Qed.

(** Validation raises exactly on the documents that violate the schema
    declared for their collection, and then it raises [ValidationError]. *)
Lemma validate_document_spec collection document schemas :
  match Schema.validate_document collection document schemas with
  | Ok _ =>
      forall schema, Schema._schemas schemas !! collection = Some schema ->
                     ~ violates schema document
  | Raise e =>
      (exists schema, Schema._schemas schemas !! collection = Some schema /\
                      violates schema document) /\
      exists reason, e = ValidationError reason
  end.
Proof.
  unfold Schema.validate_document.
  destruct (Schema._schemas schemas !! collection) as [schema|] eqn:H; [|by intros].
  pose proof (validate_against_schema_spec document schema) as Hv.
  destruct schema as [|entry rest]; [by intros ? [= <-]|].
  destruct (Schema._validate_against_schema document (entry :: rest)) as [[]|e].
  - by intros ? [= <-].
  - destruct Hv as [Hv Hr]. split; [by eexists|done].
Qed.

(** Telling the indexes of a document raises nothing but the [TypeError]
    of a key that cannot be hashed. *)
Lemma index_add_document_raise doc_id doc index e :
  fst (Index.add_document doc_id doc index) = Raise e -> e = TypeError.
Proof.
  unfold Index.add_document, Index.add, Index.hash. run_monad.
  destruct (Index._get_key index doc) as [key|]; [|discriminate].
  destruct (hash_tuple key); simpl; [|by intros [= <-]].
  destruct (negb _); discriminate.
Qed.

Lemma for_values_raise {K V} (f : M V unit) (P : Exn -> Prop) (l : list (K * V)) e :
  (forall v e, fst (f v) = Raise e -> P e) ->
  fst (for_values f l) = Raise e -> P e.
Proof.
  intros Hf. induction l as [|[k v] r IH]; simpl; [discriminate|].
  specialize (Hf v). destruct (f v) as [[[]|e'] v'].
  - destruct (for_values f r) as [[[]|e''] r']; simpl in *; [discriminate|].
    intros [= ->]. by apply IH.
  - simpl. intros [= ->]. by apply Hf.
Qed.

Lemma add_document_raise doc_id doc indexes e :
  fst (IndexManager.add_document doc_id doc indexes) = Raise e -> e = TypeError.
Proof.
  unfold IndexManager.add_document, IndexManager.for_indexes.
  pose proof (for_values_raise (K := list string) (Index.add_document doc_id doc)
                (fun e => e = TypeError) (IndexManager._indexes indexes) e) as H.
  destruct (for_values _ _) as [res l]. simpl in *. apply H.
  intros v e'. apply index_add_document_raise.
Qed.

(** Once the document is valid, [insert] appends it, tells the indexes
    its position, and finishes unless an index raises. *)
Lemma insert_valid str_len self document collection :
  let doc := deref (heap self) document in
  let docs := default [] (_collections self !! collection) ++ [document] in
  let appended := set_collection collection docs self in
  Schema.validate_document collection doc (_schema self) = Ok tt ->
  insert str_len document collection self =
    match IndexManager.add_document (length docs - 1) doc (_indexes self) with
    | (Ok _, indexes) =>
        (Ok (length docs - 1),
         finish_insert str_len collection doc docs (set_indexes indexes appended))
    | (Raise e, indexes) => (Raise e, set_indexes indexes appended)
    end.
Proof.
  intros doc docs appended Hvalid. unfold insert, finish_insert. run_monad.
  fold doc. rewrite Hvalid. subst appended docs.
  unfold set_collection, set_collections. simpl.
  destruct (_collections self !! collection) as [l|] eqn:Hc; simpl.
  - rewrite Hc. simpl. rewrite lookup_insert_eq. simpl.
    destruct (IndexManager.add_document _ doc (_indexes self)) as [[[]|e] ix]; reflexivity.
  - rewrite !lookup_insert_eq. simpl. rewrite insert_insert_eq.
    destruct (IndexManager.add_document _ doc (_indexes self)) as [[[]|e] ix]; reflexivity.
Qed.

(** C5: [insert] raises [ValidationError] if and only if a schema is
    declared for the collection and the document violates it; when it
    does, the state is the one before the call, so the collection is
    unchanged; when [insert] returns, the document was appended to the
    collection and the identifier returned is its position. It does
    return that position whenever the document is valid and the indexes
    accept it. *)
Theorem insert_validates (str_len : Document -> nat) (self : AtomicDB.t)
    (document : loc) (collection : string) :
  let doc := deref (heap self) document in
  let old := default [] (_collections self !! collection) in
  let r := fst (insert str_len document collection self) in
  let self' := snd (insert str_len document collection self) in
  ((exists reason, r = Raise (ValidationError reason)) <->
   (exists schema, Schema._schemas (_schema self) !! collection = Some schema /\
                   violates schema doc)) /\
  (forall reason, r = Raise (ValidationError reason) -> self' = self) /\
  (forall doc_id, r = Ok doc_id ->
     _collections self' !! collection = Some (old ++ [document]) /\
     doc_id = length old) /\
  ((forall schema, Schema._schemas (_schema self) !! collection = Some schema ->
                   ~ violates schema doc) ->
   fst (IndexManager.add_document (length old) doc (_indexes self)) = Ok tt ->
   r = Ok (length old)).
Proof.
  intros doc old r self'. subst r self'.
  pose proof (validate_document_spec collection doc (_schema self)) as Hv.
  destruct (Schema.validate_document collection doc (_schema self)) as [[]|e] eqn:Hvalid.
  - rewrite (insert_valid str_len self document collection Hvalid). fold doc old.
    replace (length (old ++ [document]) - 1) with (length old)
      by (rewrite length_app; simpl; lia).
    pose proof (add_document_raise (length old) doc (_indexes self)) as Hraise.
    destruct (IndexManager.add_document (length old) doc (_indexes self)) as [[[]|e] ix];
      simpl in *.
    + split; [|split; [|split]].
      * split; [intros [? [=]]|]. intros (schema & Hs & Hviol). by destruct (Hv schema Hs).
      * intros ? [=].
      * intros doc_id [= <-]. split; [|done]. unfold finish_insert. simpl.
        by rewrite lookup_insert_eq.
      * done.
    + specialize (Hraise e eq_refl). subst e. split; [|split; [|split]].
      * split; [intros [? [=]]|]. intros (schema & Hs & Hviol). by destruct (Hv schema Hs).
      * intros ? [=].
      * intros ? [=].
      * intros _ [=].
  - destruct Hv as [Hviol [reason ->]].
    assert (Hins : insert str_len document collection self
                   = (Raise (ValidationError reason), self)).
    { unfold insert. run_monad. fold doc. by rewrite Hvalid. }
    rewrite Hins. simpl. split; [|split; [|split]].
    + split; [done|by eexists].
    + done.
    + intros ? [=].
    + intros Hno. destruct Hviol as (schema & Hs & Hviol). by destruct (Hno schema Hs).
Qed.

(** The theorem at work: Jane, who has no email address, is refused by
    the collection that requires one, and the store is unchanged. *)
Lemma insert_validates_witness :
  (exists reason,
     fst (insert Examples.no_len 0 "users" Examples.users_db) = Raise (ValidationError reason)) /\
  snd (insert Examples.no_len 0 "users" Examples.users_db) = Examples.users_db.
Proof.
  pose proof (insert_validates Examples.no_len Examples.users_db 0 "users") as (Hiff & Hsame & _).
  assert (Hraise : exists reason,
    fst (insert Examples.no_len 0 "users" Examples.users_db) = Raise (ValidationError reason)).
  { apply Hiff. exists Examples.users_schema. split; [vm_compute; reflexivity|].
    exists "email", (Schema.mkField true (Some "string")).
    split; [right; left|]. vm_compute. reflexivity. }
  split; [exact Hraise|]. destruct Hraise as [reason Hr]. exact (Hsame reason Hr).
Defined.

(** ** Lemmas on one index *)

Ltac run_index :=
  cbv beta iota zeta delta
    [bind ret gets modify lift raise when Index.hash Index.add Index.discard
     Index.add_document Index.remove_document Index.update_document] in *.

Lemma hash_value_eq a b ka kb :
  hash_value a = Some ka -> hash_value b = Some kb -> py_eq a b = true <-> ka = kb.
Proof.
  destruct a, b; cbn; try done; intros [= <-] [= <-]; try (split; congruence).
  - destruct b, b0; cbn; split; congruence.
  - rewrite Z.eqb_eq. split; congruence.
  - rewrite Z.eqb_eq. split; congruence.
  - rewrite Z.eqb_eq. split; congruence.
  - rewrite String.eqb_eq. split; congruence.
Qed.

Lemma hash_tuple_eq k1 : forall k2 h1 h2,
  hash_tuple k1 = Some h1 -> hash_tuple k2 = Some h2 -> py_eq_tuple k1 k2 = true <-> h1 = h2.
Proof.
  induction k1 as [|a k1 IH]; intros [|b k2] h1 h2; cbn.
  - intros [= <-] [= <-]. done.
  - intros [= <-]. destruct (hash_value b), (hash_tuple k2); intros [= <-]; split; congruence.
  - destruct (hash_value a), (hash_tuple k1); intros [= <-] [= <-]; split; congruence.
  - destruct (hash_value a) as [ka|] eqn:Ha; [|done].
    destruct (hash_tuple k1) as [h1'|] eqn:H1; [|done].
    destruct (hash_value b) as [kb|] eqn:Hb; [|done].
    destruct (hash_tuple k2) as [h2'|] eqn:H2; [|done].
    intros [= <-] [= <-]. rewrite andb_true_iff, (hash_value_eq _ _ _ _ Ha Hb), (IH _ _ _ eq_refl H2).
    split; [intros [-> ->]; done | intros [= -> ->]; done].
Qed.

Lemma index_eta (index : Index.t) : Index.mk (Index.fields index) (Index._index index) = index.
Proof. by destruct index. Qed.

Lemma add_document_unfold doc_id doc index :
  Index.add_document doc_id doc index =
    match Index._get_key index doc with
    | None => (Ok tt, index)
    | Some key =>
        match hash_tuple key with
        | None => (Raise TypeError, index)
        | Some k => (Ok tt, added k doc_id index)
        end
    end.
Proof.
  run_index. destruct (Index._get_key index doc) as [key|]; [|done].
  destruct (hash_tuple key) as [k|]; cbn; [|done].
  unfold added, Index.has_key, Index.set_bucket, Index.bucket. cbn.
  destruct (Index._index index !! k) as [s|] eqn:Hk; cbn.
  - by rewrite ?Hk.
  - by rewrite ?lookup_insert_eq, ?insert_insert_eq.
Qed.

Lemma remove_document_unfold doc_id doc index :
  Index.remove_document doc_id doc index =
    match Index._get_key index doc with
    | None => (Ok tt, index)
    | Some key =>
        match hash_tuple key with
        | None => (Raise TypeError, index)
        | Some k => (Ok tt, discarded k doc_id index)
        end
    end.
Proof.
  run_index. destruct (Index._get_key index doc) as [key|]; [|done].
  destruct (hash_tuple key) as [k|]; cbn; [|done].
  unfold discarded. destruct (Index.has_key index k) eqn:Hk; cbn; [|done].
  unfold Index.bucket, Index.set_bucket, Index.del_bucket. cbn.
  rewrite lookup_insert_eq. cbn. case_bool_decide; cbn; [|done].
  by rewrite delete_insert_eq.
Qed.





(** ** C6: [remove] scans left to right *)



Lemma set_collection_same collection docs self :
  _collections self !! collection = Some docs ->
  set_indexes (_indexes self) (set_collection collection docs self) = self.
Proof.
  intros H. destruct self as [h c i s st]. unfold set_indexes, set_collection, set_collections.
  simpl in *. by rewrite insert_id.
Qed.

Lemma remove_loop_spec test collection pending :
  forall fuel kept count self,
    length pending < fuel ->
    _collections self !! collection = Some (kept ++ pending) ->
    evaluates test (heap self) pending ->
    fst (notify_removals (removals test (heap self) pending (length kept)) (_indexes self))
      = Ok tt ->
    remove_loop fuel test collection (length kept) count self =
      (Ok (count + length (List.filter (is_match test (heap self)) pending)),
       set_indexes
         (snd (notify_removals (removals test (heap self) pending (length kept))
                 (_indexes self)))
         (set_collection collection
            (kept ++ List.filter (fun doc => negb (is_match test (heap self) doc)) pending)
            self)).
Proof.
  induction pending as [|doc rest IH]; intros fuel kept count self Hfuel Hc Hev Hix.
  - destruct fuel as [|fuel]; [simpl in Hfuel; lia|].
    simpl. run_monad. rewrite Hc. simpl.
    rewrite app_nil_r in *. rewrite lookup_ge_None_2 by lia.
    rewrite Nat.add_0_r. f_equal. symmetry. by apply set_collection_same.
  - destruct fuel as [|fuel]; [simpl in Hfuel; lia|].
    simpl in Hfuel. simpl. run_monad. rewrite Hc. simpl.
    rewrite list_lookup_middle by done.
    destruct (Hev doc) as [b Hb]; [left|].
    assert (Hrest : evaluates test (heap self) rest).
    { intros d Hd. apply Hev. by right. }
    assert (Hm : is_match test (heap self) doc = b).
    { unfold is_match. rewrite Hb. by destruct b. }
    simpl in Hix. rewrite Hm in *. rewrite Hb. destruct b; simpl.
    + simpl in Hix. run_monad.
      destruct (IndexManager.remove_document (length kept) (deref (heap self) doc)
                  (_indexes self)) as [[[]|e] ix] eqn:Hrm; simpl in *; [|discriminate].
      rewrite (IH fuel kept (count + 1)); simpl; try done; try lia.
      * f_equal; [f_equal; lia|].
        unfold set_indexes, set_collection, set_collections. simpl.
        by rewrite insert_insert_eq.
      * rewrite lookup_insert_eq. f_equal. by rewrite delete_middle.
    + replace (length kept + 1) with (length (kept ++ [doc]))
        by (rewrite length_app; simpl; lia).
      replace (S (length kept)) with (length (kept ++ [doc])) in *
        by (rewrite length_app; simpl; lia).
      rewrite (IH fuel (kept ++ [doc]) count); simpl; try done; try lia.
      * by rewrite <- app_assoc.
      * by rewrite <- app_assoc.
Qed.



(** The loop of [remove] always ends: the iterations it is given
    suffice, whatever the test and the indexes do. *)
Lemma index_remove_document_raise doc_id doc index e :
  fst (Index.remove_document doc_id doc index) = Raise e -> e = TypeError.
Proof.
  unfold Index.remove_document, Index.discard, Index.hash. run_monad.
  destruct (Index._get_key index doc) as [key|]; [|discriminate].
  destruct (hash_tuple key); simpl; [|by intros [= <-]].
  destruct (Index.has_key index l); [|discriminate].
  destruct (bool_decide _); discriminate.
Qed.

Lemma remove_document_raise doc_id doc indexes e :
  fst (IndexManager.remove_document doc_id doc indexes) = Raise e -> e = TypeError.
Proof.
  unfold IndexManager.remove_document, IndexManager.for_indexes.
  pose proof (for_values_raise (K := list string) (Index.remove_document doc_id doc)
                (fun e => e = TypeError) (IndexManager._indexes indexes) e) as H.
  destruct (for_values _ _) as [res l]. simpl in *. apply H.
  intros v e'. apply index_remove_document_raise.
Qed.

Lemma remove_loop_fuel test collection :
  (forall d, test d <> Raise OutOfFuel) ->
  forall fuel i count self docs,
    _collections self !! collection = Some docs ->
    length docs - i < fuel ->
    fst (remove_loop fuel test collection i count self) <> Raise OutOfFuel.
Proof.
  intros Htest. induction fuel as [|fuel IH]; intros i count self docs Hc Hfuel; [lia|].
  simpl. run_monad. rewrite Hc. simpl.
  destruct (docs !! i) as [doc|] eqn:Hi; [|discriminate].
  apply lookup_lt_Some in Hi as Hlt.
  destruct (test (deref (heap self) doc)) as [[]|e] eqn:Ht; simpl.
  - pose proof (remove_document_raise i (deref (heap self) doc) (_indexes self)) as Hrm.
    destruct (IndexManager.remove_document i (deref (heap self) doc) (_indexes self))
      as [[[]|e] ix]; simpl in *.
    + apply (IH _ _ _ (delete i docs)).
      * simpl. by rewrite lookup_insert_eq.
      * rewrite length_delete by (by eexists). lia.
    + rewrite (Hrm e eq_refl). discriminate.
  - apply (IH _ _ _ docs); [done|lia].
  - intros [= ->]. by apply (Htest (deref (heap self) doc)).
Qed.

Lemma remove_ends query collection self :
  (forall d, query_test query d <> Raise OutOfFuel) ->
  fst (remove query collection self) <> Raise OutOfFuel.
Proof.
  intros Htest. unfold remove. run_monad.
  destruct (_collections self !! collection) as [docs|] eqn:Hc.
  - pose proof (remove_loop_fuel _ collection Htest (S (length docs)) 0 0 self docs Hc) as H.
    simpl default.
    destruct (remove_loop (S (length docs)) (query_test query) collection 0 0 self)
      as [[count|e] s]; simpl in *.
    + destruct (0 <? count); discriminate.
    + apply H. lia.
  - simpl. run_monad. rewrite Hc. simpl. discriminate.
Qed.

(** ** C7: [update] merges the fields into the matching documents *)

Lemma merged_lookup fields test h0 docs : forall h l,
  foldl (merge_one fields test h0) h docs !! l =
    if bool_decide (l ∈ docs) && is_match test h0 l
    then Some (fields ∪ deref h0 l)
    else h !! l.
Proof.
  induction docs as [|doc rest IH]; intros h l; simpl.
  - done.
  - rewrite IH. unfold merge_one.
    destruct (decide (l = doc)) as [->|Hne].
    + rewrite (bool_decide_eq_true_2 (doc ∈ doc :: rest)) by left.
      destruct (is_match test h0 doc) eqn:Hm; simpl.
      * rewrite lookup_insert_eq. rewrite andb_true_r. by destruct (bool_decide _).
      * by rewrite andb_false_r.
    + assert (Hb : bool_decide (l ∈ doc :: rest) = bool_decide (l ∈ rest)).
      { apply bool_decide_ext. rewrite elem_of_cons.
        split; [intros [?|?]; [congruence|done]|by right]. }
      rewrite Hb. destruct (bool_decide (l ∈ rest) && is_match test h0 l); [done|].
      destruct (is_match test h0 doc); [by rewrite lookup_insert_ne|done].
Qed.

Lemma update_scan_spec fields test h0 docs :
  forall i count self,
    NoDup docs ->
    (forall doc, doc ∈ docs -> deref (heap self) doc = deref h0 doc) ->
    evaluates test h0 docs ->
    fst (notify_changes (changes fields test h0 docs i) (_indexes self)) = Ok tt ->
    update_scan fields test i docs count self =
      (Ok (count + length (List.filter (is_match test h0) docs)),
       set_indexes (snd (notify_changes (changes fields test h0 docs i) (_indexes self)))
         (set_heap (foldl (merge_one fields test h0) (heap self) docs) self)).
Proof.
  induction docs as [|doc rest IH]; intros i count self Hnd Hag Hev Hix.
  - simpl. run_monad. rewrite Nat.add_0_r. by destruct self.
  - simpl. run_monad.
    apply NoDup_cons in Hnd as [Hnotin Hnd].
    rewrite (Hag doc) by left.
    destruct (Hev doc) as [b Hb]; [left|].
    assert (Hrest : evaluates test h0 rest).
    { intros d Hd. apply Hev. by right. }
    assert (Hm : is_match test h0 doc = b).
    { unfold is_match. rewrite Hb. by destruct b. }
    simpl in Hix. unfold merge_one at 2. rewrite Hm in *. rewrite Hb. destruct b; simpl.
    + rewrite (Hag doc) by left.
      replace (deref (<[doc:=fields ∪ deref h0 doc]> (heap self)) doc)
        with (fields ∪ deref h0 doc) by (unfold deref; by rewrite lookup_insert_eq).
      simpl in Hix. run_monad.
      destruct (IndexManager.update_document i (deref h0 doc) (fields ∪ deref h0 doc)
                  (_indexes self)) as [[[]|e] ix] eqn:Hup; simpl in *; [|discriminate].
      rewrite IH; simpl; try done.
      * f_equal. f_equal. lia.
      * intros d Hd. unfold deref. rewrite lookup_insert_ne; [by apply Hag; right|].
        intros ->. done.
    + rewrite IH; simpl; try done. intros d Hd. apply Hag. by right.
Qed.

Lemma saves_log_save data storage :
  Storage.saves (Storage.log (Storage.Save data) storage) = Storage.saves storage + 1.
Proof.
  unfold Storage.saves, Storage.log. simpl.
  by rewrite List.filter_app, length_app.
Qed.

(** C7, as the code has it: on a collection whose positions hold
    distinct dict objects, on which the query evaluates, and with
    indexes that accept the notifications, [update] returns the number
    of matching documents. Each of them has the
    fields merged in: a key of [fields] has the new value, any other key
    keeps its own. Every other object is as before. The index manager is
    told of the (old, new) pair of each matching document at its
    position. The collections are saved exactly once if the count is
    positive and not at all if it is zero. *)
Theorem update_merges (self : AtomicDB.t) (fields : Document) (query : QueryArg)
    (collection : string) (docs : list loc) :
  let test := query_test query in
  let h := heap self in
  let count := length (List.filter (is_match test h) docs) in
  let told := notify_changes (changes fields test h docs 0) (_indexes self) in
  _collections self !! collection = Some docs ->
  NoDup docs ->
  evaluates test h docs ->
  fst told = Ok tt ->
  exists self',
    update fields query collection self = (Ok count, self') /\
    (forall doc, doc ∈ docs -> is_match test h doc = true ->
       exists new_doc,
         heap self' !! doc = Some new_doc /\
         forall key,
           new_doc !! key =
             match fields !! key with
             | Some value => Some value
             | None => deref h doc !! key
             end) /\
    (forall l, ~ (l ∈ docs /\ is_match test h l = true) -> heap self' !! l = h !! l) /\
    _indexes self' = snd told /\
    _collections self' = _collections self /\
    Storage.saves (_storage self') =
      Storage.saves (_storage self) + (if 0 <? count then 1 else 0).
Proof.
  intros test h count told Hc Hnd Hev Hix.
  pose proof (update_scan_spec fields test h docs 0 0 self Hnd (fun _ _ => eq_refl) Hev Hix)
    as Hscan.
  change (0 + length (List.filter (is_match test h) docs)) with count in Hscan.
  fold told in Hscan.
  assert (Hupd : update fields query collection self =
                 (count' <- update_scan fields test 0 docs 0 ;;
                  when (0 <? count') _save ;; ret count') self).
  { unfold update. destruct query; run_monad; simpl; by rewrite Hc. }
  rewrite Hupd. unfold bind at 1. rewrite Hscan.
  set (scanned := set_indexes (snd told)
                    (set_heap (foldl (merge_one fields test h) (heap self) docs) self)).
  exists (if 0 <? count then snd (_save scanned) else scanned).
  split; [run_monad; by destruct (0 <? count)|].
  assert (Hheap : heap (if 0 <? count then snd (_save scanned) else scanned)
                  = foldl (merge_one fields test h) h docs).
  { by destruct (0 <? count). }
  rewrite Hheap. split; [|split; [|split; [|split]]].
  - intros doc Hin Hm. exists (fields ∪ deref h doc). split.
    + rewrite merged_lookup. by rewrite bool_decide_eq_true_2, Hm.
    + intros key. rewrite lookup_union. destruct (fields !! key), (deref h doc !! key); done.
  - intros l Hl. rewrite merged_lookup.
    destruct (bool_decide (l ∈ docs) && is_match test h l) eqn:E; [|done].
    apply andb_true_iff in E as [Hin Hm]. apply bool_decide_eq_true in Hin. tauto.
  - by destruct (0 <? count).
  - by destruct (0 <? count).
  - destruct (0 <? count); simpl; [apply saves_log_save|lia].
Qed.

(** The theorem at work: John turns 31, Jane is untouched, and the
    store is saved once. *)
Lemma update_merges_witness :
  exists self',
    update {[ "age" := VInt 31 ]} (AQuery (Examples.name_is "John")) "default" Examples.indexed_db
      = (Ok 1, self') /\
    deref (heap self') 0 = {[ "name" := VStr "John"; "age" := VInt 31 ]} /\
    deref (heap self') 1 = Examples.jane /\
    Storage.saves (_storage self') = 1.
Proof.
  destruct (update_merges Examples.indexed_db {[ "age" := VInt 31 ]}
              (AQuery (Examples.name_is "John")) "default" [0; 1])
    as (self' & Hup & _ & _ & _ & _ & Hsaves).
  - reflexivity.
  - apply NoDup_cons. split; [by intros ?%list_elem_of_singleton|].
    apply NoDup_singleton.
  - intros doc _. eexists. reflexivity.
  - vm_compute. reflexivity.
  - exists self'. split; [exact Hup|].
    assert (Hself : self' = snd (update {[ "age" := VInt 31 ]}
                       (AQuery (Examples.name_is "John")) "default" Examples.indexed_db))
      by (by rewrite Hup).
    rewrite Hself. repeat split; vm_compute; reflexivity.
Defined.

(** C7 fails as stated where one dict object stands at two positions:
    John, aged 30, is at positions 0 and 1, and both match [age == 30].
    The scan merges the fields into the object at position 0 and tells
    the index of position 0; at position 1 it meets the same object,
    now aged 31, which no longer matches. The count is 1 for two
    matching positions, and the index still has position 1 under the
    age 30. *)
Lemma update_misses_aliased_position :
  let self := Examples.aliased_db in
  let q := AQuery (Examples.age_is 30) in
  let fields : Document := {[ "age" := VInt 31 ]} in
  let self' := snd (update fields q "default" self) in
  _collections self !! "default" = Some [0; 0] /\
  List.filter (is_match (query_test q) (heap self)) [0; 0] = [0; 0] /\
  fst (update fields q "default" self) = Ok 1 /\
  fst (update fields q "default" self)
    <> Ok (length (List.filter (is_match (query_test q) (heap self)) [0; 0])) /\
  deref (heap self') 0 = {[ "name" := VStr "John"; "age" := VInt 31 ]} /\
  (Index.find_all [VInt 30] <$> IndexManager.get_index ["age"] (_indexes self'))
    = Some (Ok {[ 1 ]}) /\
  (Index.find_all [VInt 31] <$> IndexManager.get_index ["age"] (_indexes self'))
    = Some (Ok {[ 0 ]}).
Proof.
  repeat split; try (vm_compute; reflexivity).
  vm_compute. discriminate.
Qed.

(** ** C8: the pool never holds more handles than its maximum *)

Section Pool.
Import ConnectionPool.

Ltac pool_simpl :=
  cbv beta iota zeta delta
    [pbind pret praise catch with_lock queue_get _create_connection get_connection
     return_connection close_all below_capacity qsize set_lock set_available set_in_use
     set_flag handles pool_inv after
     _max_connections _available _in_use _lock in_use created is_empty is_full_or_empty] in *.

Ltac case_ltb :=
  match goal with
  | |- context [(?a <? ?b)%Z] => destruct (Z.ltb_spec a b)
  end.

Lemma length_list_remove c l :
  c ∈ l -> S (length (list_remove c l)) = length l.
Proof.
  induction l as [|x r IH]; [by intros ?%elem_of_nil|].
  simpl. destruct (decide (c = x)) as [->|Hne]; [done|].
  intros [?|Hin]%elem_of_cons; [done|]. simpl. by rewrite IH.
Qed.

Lemma create_connection_inv max_connections p :
  pool_inv max_connections p -> pool_inv max_connections (snd (_create_connection p)).
Proof.
  destruct p as [m av iu lk fl cr]. pool_simpl. intros (-> & Hle & Hlk).
  destruct lk; simpl; [auto|].
  case_ltb; simpl; [|split; [done|split; [lia|done]]].
  rewrite length_app. simpl. split; [done|]. split; [lia|done].
Qed.

Lemma return_connection_inv max_connections c p :
  pool_inv max_connections p -> pool_inv max_connections (snd (return_connection c p)).
Proof.
  destruct p as [m av iu lk fl cr]. pool_simpl. intros (-> & Hle & Hlk).
  destruct lk; simpl; [auto|].
  case_bool_decide as Hin; simpl; [|auto].
  apply length_list_remove in Hin. rewrite length_app. simpl.
  split; [done|]. split; [lia|done].
Qed.

Lemma close_all_inv max_connections p :
  pool_inv max_connections p -> pool_inv max_connections (snd (close_all p)).
Proof.
  destruct p as [m av iu lk fl cr]. pool_simpl. intros (-> & Hle & Hlk).
  destruct lk; simpl; [auto|]. split; [done|]. split; [lia|done].
Qed.

Lemma get_connection_inv max_connections p :
  pool_inv max_connections p -> pool_inv max_connections (snd (get_connection p)).
Proof.
  destruct p as [m av iu lk fl cr]. pool_simpl. intros (-> & Hle & Hlk).
  destruct av as [|c rest], lk; simpl in *.
  - auto.
  - case_ltb; simpl.
    + split; [done|]. split; [lia|]. intros _. lia.
    + split; [done|]. split; [lia|done].
  - split; [done|]. split; [lia|]. intros _. lia.
  - rewrite length_app. simpl. split; [done|]. split; [lia|done].
Qed.

Lemma reachable_inv max_connections p :
  reachable max_connections p -> pool_inv max_connections p.
Proof.
  induction 1 as [p Hinit|c p _ IH].
  - unfold __init__ in Hinit. pool_simpl. simpl in Hinit.
    revert Hinit. case_ltb; simpl; intros Hinit; [|discriminate].
    injection Hinit as <-. simpl. split; [done|]. split; [lia|done].
  - destruct c; simpl.
    + by apply get_connection_inv.
    + by apply return_connection_inv.
    + by apply close_all_inv.
    + by apply create_connection_inv.
Qed.

(** C8: in every pool reached from the constructor by calls of
    [get_connection], [return_connection], [close_all] and
    [_create_connection], the handles in the queue and the handles in use
    are together at most [max_connections]; and when the pool is at
    capacity with no handle in the queue, [get_connection] raises
    [queue.Empty] and leaves the pool as it is. *)
Theorem pool_bounded (max_connections : Z) (p : ConnectionPool.t) :
  reachable max_connections p ->
  (Z.of_nat (length (_available p)) + Z.of_nat (length (_in_use p)) <= max_connections)%Z /\
  (_available p = [] ->
   (max_connections <= Z.of_nat (length (_in_use p)))%Z ->
   get_connection p = (Done (Raise QueueEmpty), p)).
Proof.
  intros Hreach. apply reachable_inv in Hreach as (Hmax & Hle & Hlk).
  split; [exact Hle|]. intros Hav Hfull.
  destruct p as [m av iu lk fl cr]. pool_simpl. simpl in *. subst av m.
  destruct lk; [specialize (Hlk eq_refl); simpl in Hlk; lia|].
  simpl. case_ltb; [lia|].
  reflexivity.
Qed.

(** The theorem at work on a pool of one connection that is handed out:
    the next [get_connection] raises [queue.Empty]. *)
Lemma pool_bounded_witness :
  let p := after GetConnection (snd (__init__ 1)) in
  (Z.of_nat (length (_available p)) + Z.of_nat (length (_in_use p)) <= 1)%Z /\
  get_connection p = (Done (Raise QueueEmpty), p).
Proof.
  intros p.
  destruct (pool_bounded 1 p) as [Hbound Hfull].
  - apply reachable_call. apply reachable_init. reflexivity.
  - split; [exact Hbound|]. apply Hfull; [reflexivity|]. simpl. lia.
Defined.

(** Below capacity the call does not create a handle: [get_connection]
    holds the lock when it calls [_create_connection], which waits for
    the same lock. *)
Lemma get_connection_blocks_below_capacity :
  let p := after GetConnection (snd (__init__ 2)) in
  fst (get_connection p) = Blocked /\ _lock (snd (get_connection p)) = true.
Proof. split; reflexivity. Qed.

End Pool.

(** ** C9: [sort_by] and a missing field *)

Lemma py_order_none_l op v : py_order op VNone v = None.
Proof. by destruct v. Qed.

Lemma py_order_none_r op v : py_order op v VNone = None.
Proof. by destruct v. Qed.

Lemma string_compare_refl s : String.compare s s = Eq.
Proof.
  pose proof (String.compare_antisym s s) as H.
  destruct (String.compare s s); simpl in H; done.
Qed.

(** No value is smaller than itself. *)
Fixpoint py_order_lt_irrefl (v : Value) : py_order OpLt v v <> Some true.
Proof.
  destruct v as [|b|n|s|l|d]; simpl; try discriminate.
  - rewrite Z.compare_refl. discriminate.
  - rewrite Z.compare_refl. discriminate.
  - rewrite string_compare_refl. discriminate.
  - induction l as [|x xs IH]; simpl; [discriminate|].
    destruct (py_eq x x); [exact IH|apply py_order_lt_irrefl].
Qed.

Section SortedBy.
Context {A : Type} (key : A -> Value).

Lemma insert_by_perm x l r : insert_by (key_lt key) x l = Ok r -> r ≡ₚ x :: l.
Proof.
  revert r. induction l as [|y l IH]; intros r; simpl.
  - by intros [= <-].
  - destruct (key_lt key y x) as [[]|e]; [|by intros [= <-]|discriminate].
    destruct (insert_by (key_lt key) x l) as [r'|e]; [|discriminate].
    intros [= <-]. rewrite (IH r' eq_refl). apply Permutation_swap.
Qed.

Lemma sorted_by_perm l r : sorted_by (key_lt key) l = Ok r -> r ≡ₚ l.
Proof.
  revert r. induction l as [|x l IH]; intros r; simpl.
  - by intros [= <-].
  - destruct (sorted_by (key_lt key) l) as [r'|e]; [|discriminate].
    intros H%insert_by_perm. rewrite H. by rewrite (IH r' eq_refl).
Qed.

Lemma insert_by_raise x l e : insert_by (key_lt key) x l = Raise e -> e = TypeError.
Proof.
  induction l as [|y l IH]; simpl; [discriminate|].
  unfold key_lt at 1. destruct (py_order OpLt (key y) (key x)) as [[]|]; simpl.
  - destruct (insert_by (key_lt key) x l) as [r'|e']; [discriminate|].
    intros [= <-]. by apply IH.
  - discriminate.
  - by intros [= <-].
Qed.

Lemma sorted_by_raise l e : sorted_by (key_lt key) l = Raise e -> e = TypeError.
Proof.
  induction l as [|x l IH]; simpl; [discriminate|].
  destruct (sorted_by (key_lt key) l) as [r'|e']; [apply insert_by_raise|].
  intros [= <-]. by apply IH.
Qed.

(** A list of two or more elements, one of them with the key [None],
    cannot be sorted: [None] is compared with some other key. *)
Lemma sorted_by_none l :
  2 <= length l -> (exists x, x ∈ l /\ key x = VNone) ->
  sorted_by (key_lt key) l = Raise TypeError.
Proof.
  induction l as [|x l IH]; simpl; [lia|]. intros Hlen (z & Hz & Hk).
  destruct (sorted_by (key_lt key) l) as [r|e] eqn:Hsort.
  - pose proof (sorted_by_perm _ _ Hsort) as Hperm.
    destruct r as [|y r].
    { apply Permutation_nil_l in Hperm. subst l. simpl in Hlen. lia. }
    simpl. unfold key_lt at 1.
    assert (key x = VNone \/ key x <> VNone) as [Hx|Hx]
      by (destruct (key x); auto).
    { by rewrite Hx, py_order_none_r. }
    apply elem_of_cons in Hz as [->|Hz]; [done|].
    destruct (decide (2 <= length l)) as [Hl|Hl].
    { assert (Hraise := IH Hl (ex_intro _ z (conj Hz Hk))). discriminate Hraise. }
    destruct l as [|z' [|? ?]]; simpl in *; [lia| |lia].
    apply list_elem_of_singleton in Hz as ->.
    apply Permutation_length in Hperm as Hlen'. destruct r; [|simpl in Hlen'; lia].
    apply Permutation_singleton_r in Hperm. injection Hperm as ->.
    by rewrite Hk, py_order_none_l.
  - by rewrite (sorted_by_raise _ _ Hsort).
Qed.

(** The sort moves an element only past elements with another key. *)
Lemma insert_by_stable k x l r :
  insert_by (key_lt key) x l = Ok r -> with_key key k r = with_key key k (x :: l).
Proof.
  unfold with_key. revert r. induction l as [|y l IH]; intros r; simpl.
  - by intros [= <-].
  - unfold key_lt at 1.
    destruct (py_order OpLt (key y) (key x)) as [[]|] eqn:Hyx; simpl; [| |discriminate].
    + destruct (insert_by (key_lt key) x l) as [r'|e]; [|discriminate].
      intros [= <-]. specialize (IH r' eq_refl).
      assert (Hne : key y <> key x).
      { intros Heq. rewrite Heq in Hyx. by apply py_order_lt_irrefl in Hyx. }
      rewrite !filter_cons in *.
      destruct (decide (key y = k)) as [Hy|Hy], (decide (key x = k)) as [Hx|Hx];
        try congruence; by rewrite IH.
    + by intros [= <-].
Qed.

Lemma sorted_by_stable k l r :
  sorted_by (key_lt key) l = Ok r -> with_key key k r = with_key key k l.
Proof.
  revert r. induction l as [|x l IH]; intros r; simpl.
  - by intros [= <-].
  - destruct (sorted_by (key_lt key) l) as [r'|e]; [|discriminate].
    intros H%(insert_by_stable k). rewrite H. unfold with_key in *.
    rewrite !filter_cons. by rewrite (IH r' eq_refl).
Qed.

Lemma insert_by_sorted x l r :
  Sorted (in_order key) l -> insert_by (key_lt key) x l = Ok r -> Sorted (in_order key) r.
Proof.
  revert r. induction l as [|y l IH]; intros r Hs; simpl.
  - intros [= <-]. by repeat constructor.
  - destruct (key_lt key y x) as [[]|e] eqn:Hyx; [| |discriminate].
    + destruct (insert_by (key_lt key) x l) as [r'|e] eqn:Hins; [|discriminate].
      intros [= <-]. apply Sorted_inv in Hs as [Hs Hhd].
      constructor; [by apply IH|].
      destruct l as [|z l]; simpl in Hins.
      * injection Hins as <-. constructor. by left.
      * destruct (key_lt key z x) as [[]|]; [| |discriminate].
        -- destruct (insert_by (key_lt key) x l); [|discriminate]. injection Hins as <-.
           constructor. by apply HdRel_inv in Hhd.
        -- injection Hins as <-. constructor. by left.
    + intros [= <-]. constructor; [done|]. constructor. by right.
Qed.

Lemma sorted_by_sorted l r :
  sorted_by (key_lt key) l = Ok r -> Sorted (in_order key) r.
Proof.
  revert r. induction l as [|x l IH]; intros r; simpl.
  - intros [= <-]. constructor.
  - destruct (sorted_by (key_lt key) l) as [r'|e]; [|discriminate].
    apply insert_by_sorted. by apply IH.
Qed.

End SortedBy.

(** The half of C9 that holds: when [sort_by] returns, the result holds
    the same documents, in ascending order of the key (descending with
    [reverse]), and the documents with one key are in their original
    order. *)
Lemma sort_by_stable (h : gmap loc Document) (field : string) (reverse : bool)
    (self result : QueryResult.t) :
  let key := fun doc => doc_get (deref h doc) field in
  QueryResult.sort_by h field reverse self = Ok result ->
  QueryResult._documents result ≡ₚ QueryResult._documents self /\
  (forall k, with_key key k (QueryResult._documents result)
             = with_key key k (QueryResult._documents self)) /\
  Sorted (if reverse then flip (in_order key) else in_order key)
         (QueryResult._documents result).
Proof.
  intros key. unfold QueryResult.sort_by, py_sorted. fold key.
  destruct self as [docs]. simpl. destruct reverse.
  - destruct (sorted_by (key_lt key) (list.reverse docs)) as [r|e] eqn:Hsort; [|discriminate].
    simpl. intros [= <-]. simpl. split; [|split].
    + rewrite reverse_Permutation, (sorted_by_perm _ _ _ Hsort). apply reverse_Permutation.
    + intros k. unfold with_key. rewrite filter_reverse.
      pose proof (sorted_by_stable key k _ _ Hsort) as Hst. unfold with_key in Hst.
      by rewrite Hst, filter_reverse, reverse_involutive.
    + apply Sorted_reverse. by apply (sorted_by_sorted key _ _ Hsort).
  - destruct (sorted_by (key_lt key) docs) as [r|e] eqn:Hsort; [|discriminate].
    simpl. intros [= <-]. simpl. split; [|split].
    + by apply (sorted_by_perm key).
    + intros k. by apply (sorted_by_stable key).
    + by apply (sorted_by_sorted key _ _ Hsort).
Qed.

(** C9, where the code departs from it: on a result of two or more
    documents of which one lacks the field, [sort_by] raises [TypeError],
    whichever the direction of the sort. The key of the document that
    lacks the field is [None], and [None] is not ordered against any
    value; the document is given no place. *)
Theorem sort_by_raises_without_field (h : gmap loc Document) (field : string)
    (reverse : bool) (self : QueryResult.t) :
  2 <= length (QueryResult._documents self) ->
  (exists doc, doc ∈ QueryResult._documents self /\ deref h doc !! field = None) ->
  QueryResult.sort_by h field reverse self = Raise TypeError.
Proof.
  intros Hlen (doc & Hin & Hnone).
  assert (Hkey : doc_get (deref h doc) field = VNone) by (unfold doc_get; by rewrite Hnone).
  unfold QueryResult.sort_by, py_sorted. destruct reverse.
  - rewrite sorted_by_none; [done|by rewrite length_reverse|].
    exists doc. split; [by apply elem_of_reverse|done].
  - rewrite sorted_by_none; [done|done|]. by exists doc.
Qed.

(** C9 at its failing input: a result of two documents, John with an age
    and Zed without one. [sort_by("age")] raises [TypeError] in either
    direction. *)
Lemma sort_by_raises_without_field_witness :
  let h : gmap loc Document := {[ 0 := Examples.john; 1 := {[ "name" := VStr "Zed" ]} ]} in
  let result := QueryResult.mk [0; 1] in
  QueryResult.sort_by h "age" false result = Raise TypeError /\
  QueryResult.sort_by h "age" true result = Raise TypeError.
Proof.
  intros h result.
  assert (Hlen : 2 <= length (QueryResult._documents result)) by (simpl; lia).
  assert (Hdoc : exists doc, doc ∈ QueryResult._documents result /\ deref h doc !! "age" = None).
  { exists 1. split; [right; left|]. vm_compute. reflexivity. }
  split; exact (sort_by_raises_without_field h "age" _ result Hlen Hdoc).
Defined.

(** The same result sorts by a field that both documents have. *)
Lemma sort_by_name_example :
  let h : gmap loc Document := {[ 0 := Examples.john; 1 := {[ "name" := VStr "Zed" ]} ]} in
  QueryResult.sort_by h "name" false (QueryResult.mk [1; 0]) = Ok (QueryResult.mk [0; 1]) /\
  QueryResult.sort_by h "name" true (QueryResult.mk [0; 1]) = Ok (QueryResult.mk [1; 0]).
Proof. split; vm_compute; reflexivity. Qed.

(** ** C10: [clear] leaves the indexes alone *)

(** C10: in every state and for every collection name, [clear] returns
    with the index manager exactly as it was, so every index keeps the
    positions of the cleared documents; the documents themselves and the
    schema are untouched, the collection, if there is one, becomes the
    empty list and is saved, and the backend is cleared where it can be. *)
Theorem clear_keeps_indexes (self : AtomicDB.t) (collection : string) :
  let present := bool_decide (is_Some (_collections self !! collection)) in
  let self' := snd (clear collection self) in
  fst (clear collection self) = Ok tt /\
  _indexes self' = _indexes self /\
  (forall fields values,
     Index.find_all values <$> IndexManager.get_index fields (_indexes self') =
     Index.find_all values <$> IndexManager.get_index fields (_indexes self)) /\
  heap self' = heap self /\
  _schema self' = _schema self /\
  _collections self' =
    (if present then <[collection := []]> (_collections self) else _collections self) /\
  Storage.calls (_storage self') =
    Storage.calls (_storage self)
    ++ (if present then [Storage.Save (snapshot (set_collection collection [] self))] else [])
    ++ (if Storage.has_clear (_storage self) then [Storage.Clear] else []).
Proof.
  unfold clear. run_monad. simpl.
  destruct (bool_decide (is_Some (_collections self !! collection))); simpl;
    destruct (Storage.has_clear (_storage self)) eqn:Hc; simpl;
    rewrite ?Hc; simpl; rewrite ?app_nil_r, <- ?app_assoc; auto 10.
Qed.

(** * Further properties

    Properties of the methods beyond those the specification states. *)

(** ** The algebra of queries *)

(** X1. The connectives of [Query] obey the laws of Boolean algebra
    on every document, outcome for outcome, a raise included: De Morgan
    for [~(a & b)] and [~(a | b)], double negation, and associativity of
    [&] and [|]. Both connectives short-circuit: a false left operand
    decides [&] and a true one decides [|], whatever the right operand
    would do. *)
Theorem query_boolean_laws (a b c : Query) (doc : Document) :
  Query.test (Query.__invert__ (Query.__and__ a b)) doc
    = Query.test (Query.__or__ (Query.__invert__ a) (Query.__invert__ b)) doc /\
  Query.test (Query.__invert__ (Query.__or__ a b)) doc
    = Query.test (Query.__and__ (Query.__invert__ a) (Query.__invert__ b)) doc /\
  Query.test (Query.__invert__ (Query.__invert__ a)) doc = Query.test a doc /\
  Query.test (Query.__and__ (Query.__and__ a b) c) doc
    = Query.test (Query.__and__ a (Query.__and__ b c)) doc /\
  Query.test (Query.__or__ (Query.__or__ a b) c) doc
    = Query.test (Query.__or__ a (Query.__or__ b c)) doc /\
  (Query.test a doc = Ok false -> Query.test (Query.__and__ a b) doc = Ok false) /\
  (Query.test a doc = Ok true -> Query.test (Query.__or__ a b) doc = Ok true).
Proof.
  cbn. destruct (Query.test a doc) as [[]|]; cbn;
    destruct (Query.test b doc) as [[]|]; cbn; repeat split; congruence.
Qed.

Lemma cmp_holds_ge_lt c : cmp_holds OpGe c = negb (cmp_holds OpLt c).
Proof. by destruct c. Qed.

Lemma cmp_holds_le_gt c : cmp_holds OpLe c = negb (cmp_holds OpGt c).
Proof. by destruct c. Qed.

Fixpoint py_order_ge_lt (a b : Value) {struct a} :
  py_order OpGe a b = negb <$> py_order OpLt a b
with py_order_le_gt (a b : Value) {struct a} :
  py_order OpLe a b = negb <$> py_order OpGt a b.
Proof.
  - destruct a as [| | | |l|d], b as [| | | |l'|d']; cbn; try reflexivity;
      try (by match goal with |- context [match ?c with _ => _ end] => destruct c end).
    revert l'. induction l as [|x xs IH]; intros [|y ys]; cbn; try reflexivity.
    destruct (py_eq x y); [apply IH | apply py_order_ge_lt].
  - destruct a as [| | | |l|d], b as [| | | |l'|d']; cbn; try reflexivity;
      try (by match goal with |- context [match ?c with _ => _ end] => destruct c end).
    revert l'. induction l as [|x xs IH]; intros [|y ys]; cbn; try reflexivity.
    destruct (py_eq x y); [apply IH | apply py_order_le_gt].
Qed.

(** X2. On every document and every literal of the embedding, whose
    values are [None], booleans, integers, strings, and lists and dicts
    of these, [field != v] evaluates as [~(field == v)], [field >= v] as
    [~(field < v)], and [field <= v] as [~(field > v)]; where the
    comparison raises [TypeError], both sides raise it. Floats are not
    values of the embedding and the law is not stated for them: with a
    NaN, [field >= v] is false where [~(field < v)] is true. *)
Theorem field_negations (field : Field.t) (value : Value) (doc : Document) :
  Query.test (Field.__ne__ field value) doc
    = Query.test (Query.__invert__ (Field.__eq__ field value)) doc /\
  Query.test (Field.__ge__ field value) doc
    = Query.test (Query.__invert__ (Field.__lt__ field value)) doc /\
  Query.test (Field.__le__ field value) doc
    = Query.test (Query.__invert__ (Field.__gt__ field value)) doc.
Proof.
  cbn. rewrite py_order_ge_lt, py_order_le_gt.
  split; [done|].
  split; by destruct (py_order _ _ _).
Qed.

Lemma apply_operator_leaf re_search op field value q doc :
  leaf_of op field value = Some q ->
  _apply_operator re_search (doc_get doc (Field.name field)) op value = Query.test q doc.
Proof.
  unfold leaf_of, _apply_operator.
  repeat (destruct (String.eqb op _); [intros [= <-]; reflexivity|]).
  done.
Qed.

Lemma apply_operators_leaves re_search ops field q doc :
  leaves_of field ops = Some q ->
  apply_operators re_search (doc_get doc (Field.name field)) ops = Query.test q doc.
Proof.
  revert q. induction ops as [|[op value] rest IH]; intros q; cbn.
  - by intros [= <-].
  - destruct (leaf_of op field value) as [l|] eqn:Hl; [|done]. cbn.
    destruct (leaves_of field rest) as [r|] eqn:Hr; [|done]. cbn.
    intros [= <-]. cbn.
    rewrite (apply_operator_leaf re_search _ _ _ _ doc Hl), (IH r eq_refl).
    by destruct (Query.test l doc) as [[]|].
Qed.

(** X3. A dict query built from literals and the operators [$eq],
    [$ne], [$gt], [$gte], [$lt], [$lte] is the conjunction of the
    corresponding [Field] leaves: [_matches_query] gives, on every
    document, the outcome of that [Query], a [TypeError] included. *)
Theorem matches_query_as_query (re_search : Value -> Value -> Res bool)
    (query : list (string * Value)) (q : Query) (doc : Document) :
  as_query query = Some q ->
  _matches_query re_search doc query = Query.test q doc.
Proof.
  revert q. induction query as [|[field value] rest IH]; intros q; cbn.
  - by intros [= <-].
  - destruct value as [| | | | |ops];
      try (destruct (as_query rest) as [r|]; [|done]; cbn; intros [= <-]; cbn;
           rewrite (IH r eq_refl); by destruct (py_eq _ _)).
    destruct (leaves_of _ ops) as [l|] eqn:Hl; [|done]. cbn.
    destruct (as_query rest) as [r|]; [|done]. cbn. intros [= <-]. cbn.
    rewrite <- (apply_operators_leaves re_search _ _ _ doc Hl). cbn.
    rewrite (IH r eq_refl).
    by destruct (apply_operators _ _ _) as [[]|].
Qed.

(** The theorem at work on an example. *)
Lemma matches_query_as_query_witness :
  exists q,
    as_query [("name", VStr "John"); ("age", VDict [("$gte", VInt 18); ("$lt", VInt 65)])]
      = Some q /\
    _matches_query (fun _ _ => Ok false) Examples.john
      [("name", VStr "John"); ("age", VDict [("$gte", VInt 18); ("$lt", VInt 65)])]
      = Query.test q Examples.john.
Proof.
  eexists. split; [reflexivity|]. apply matches_query_as_query. reflexivity.
Defined.

(** ** Dict queries: [find] and [find_one] *)

Lemma find_unfold re_search query collection self :
  find re_search query collection self =
    match _collections self !! collection with
    | None => (Ok (QueryResult.mk []), self)
    | Some docs =>
        match query with
        | None | Some [] => (Ok (QueryResult.mk docs), self)
        | Some q =>
            match filter_docs (fun doc => _matches_query re_search doc q) docs self with
            | (Ok found, s) => (Ok (QueryResult.mk found), s)
            | (Raise e, s) => (Raise e, s)
            end
        end
    end.
Proof.
  unfold find. run_monad.
  destruct (_collections self !! collection) as [docs|] eqn:Hc; cbn; rewrite ?Hc; cbn;
    [|done].
  by destruct query as [[|kv q]|].
Qed.

Lemma find_state re_search query collection self :
  snd (find re_search query collection self) = self.
Proof.
  rewrite find_unfold.
  destruct (_collections self !! collection) as [docs|]; [|done].
  destruct query as [[|kv q]|]; try done.
  pose proof (filter_docs_state (fun doc => _matches_query re_search doc (kv :: q)) docs self) as Hs.
  destruct (filter_docs _ docs self) as [[m|e] s]; cbn in *; by subst.
Qed.

Lemma filter_all {A} (l : list A) : List.filter (fun _ => true) l = l.
Proof. induction l; cbn; congruence. Qed.

Lemma matches_literals re_search query doc :
  Forall (fun kv => is_dict kv.2 = false) query ->
  _matches_query re_search doc query = Ok (has_literals query doc).
Proof.
  induction 1 as [|[field value] rest Hv _ IH]; cbn; [done|].
  destruct value; cbn in *; try done; rewrite IH; by destruct (py_eq _ _).
Qed.

(** X4. [find] never changes the database. On a collection that does
    not exist it returns an empty result instead of raising; without a
    query, or with an empty one, it returns all documents of the
    collection; and with a query that evaluates on every document it
    returns the documents that match, in the order of the collection. *)
Theorem find_scans (re_search : Value -> Value -> Res bool) (self : AtomicDB.t)
    (query : option (list (string * Value))) (collection : string) :
  snd (find re_search query collection self) = self /\
  (_collections self !! collection = None ->
   fst (find re_search query collection self) = Ok (QueryResult.mk [])) /\
  (forall docs,
     _collections self !! collection = Some docs ->
     (query = None \/ query = Some [] ->
      fst (find re_search query collection self) = Ok (QueryResult.mk docs)) /\
     (forall q,
        query = Some q ->
        evaluates (fun doc => _matches_query re_search doc q) (heap self) docs ->
        fst (find re_search query collection self)
          = Ok (QueryResult.mk
                  (List.filter (is_match (fun doc => _matches_query re_search doc q) (heap self))
                     docs)))).
Proof.
  split; [apply find_state|]. split.
  - intros Hc. by rewrite find_unfold, Hc.
  - intros docs Hc. split.
    + intros Hq. rewrite find_unfold, Hc. by destruct Hq as [-> | ->].
    + intros q -> Hev. rewrite find_unfold, Hc.
      destruct q as [|kv q].
      * cbn. f_equal. f_equal. symmetry. unfold is_match. cbn. apply filter_all.
      * pose proof (filter_docs_ok _ docs self Hev) as Hok.
        destruct (filter_docs _ docs self) as [[m|e] s]; cbn in *; congruence.
Qed.

(** The theorem at work on an example. *)
Lemma find_scans_witness :
  fst (find (fun _ _ => Ok false) (Some [("age", VDict [("$gt", VInt 26)])]) "default"
         Examples.two_db) = Ok (QueryResult.mk [0]).
Proof.
  pose proof (find_scans (fun _ _ => Ok false) Examples.two_db
                (Some [("age", VDict [("$gt", VInt 26)])]) "default") as (_ & _ & H).
  destruct (H [0; 1] eq_refl) as [_ H']. rewrite (H' _ eq_refl); [reflexivity|].
  intros doc Hd. vm_compute in Hd.
  apply elem_of_cons in Hd as [->|Hd]; [by eexists|].
  apply elem_of_cons in Hd as [->|Hd]; [by eexists|].
  by apply elem_of_nil in Hd.
Defined.

(** X5. With a query of literals only, [find] never raises: it
    returns the documents that equal every literal at its field (a
    missing field compares as [None]), and [find_one] returns the first
    of them, or [None] when there is none. *)
Theorem find_by_literals (re_search : Value -> Value -> Res bool) (self : AtomicDB.t)
    (query : list (string * Value)) (collection : string) (docs : list loc) :
  _collections self !! collection = Some docs ->
  Forall (fun kv => is_dict kv.2 = false) query ->
  let found := List.filter (fun doc => has_literals query (deref (heap self) doc)) docs in
  find re_search (Some query) collection self = (Ok (QueryResult.mk found), self) /\
  find_one re_search query collection self = (Ok (head found), self).
Proof.
  intros Hc Hq found.
  assert (find re_search (Some query) collection self = (Ok (QueryResult.mk found), self)) as Hf.
  { rewrite find_unfold, Hc.
    assert (evaluates (fun doc => _matches_query re_search doc query) (heap self) docs) as Hev.
    { intros doc _. rewrite (matches_literals _ _ _ Hq). by eexists. }
    assert (List.filter (is_match (fun doc => _matches_query re_search doc query) (heap self))
              docs = found) as Hfound.
    { apply List.filter_ext. intros doc. unfold is_match.
      rewrite (matches_literals _ _ _ Hq). by destruct (has_literals _ _). }
    destruct query as [|kv q].
    - subst found. cbn. by rewrite filter_all.
    - pose proof (filter_docs_ok _ docs self Hev) as Hok.
      pose proof (filter_docs_state (fun doc => _matches_query re_search doc (kv :: q))
                    docs self) as Hst.
      destruct (filter_docs _ docs self) as [[m|e] s]; cbn in *; congruence. }
  split; [done|].
  unfold find_one. run_monad. by rewrite Hf.
Qed.

(** The theorem at work on an example. *)
Lemma find_by_literals_witness :
  find (fun _ _ => Ok false) (Some [("name", VStr "Jane")]) "default" Examples.two_db
    = (Ok (QueryResult.mk [1]), Examples.two_db) /\
  find_one (fun _ _ => Ok false) [("name", VStr "Jane")] "default" Examples.two_db
    = (Ok (Some 1), Examples.two_db).
Proof.
  apply (find_by_literals (fun _ _ => Ok false) Examples.two_db [("name", VStr "Jane")]
           "default" [0; 1]).
  - reflexivity.
  - repeat constructor.
Defined.

Lemma apply_unknown_operator re_search field_value op op_value :
  op ∉ known_operators -> _apply_operator re_search field_value op op_value = Ok false.
Proof.
  intros Hop. unfold _apply_operator.
  repeat match goal with
  | |- context [String.eqb op ?s] =>
      destruct (String.eqb_spec op s) as [->|_];
      [exfalso; apply Hop; unfold known_operators; set_solver|]
  end.
  done.
Qed.

Lemma filter_docs_none test docs self :
  (forall doc, test doc = Ok false) -> filter_docs test docs self = (Ok [], self).
Proof.
  intros Ht. induction docs as [|doc rest IH]; [done|].
  cbn. run_monad. rewrite Ht, IH. done.
Qed.

(** X6. An operator that [_apply_operator] does not know is not an
    error: a query on it matches no document, so [find] returns an empty
    result whatever the collection holds. *)
Theorem unknown_operator_matches_nothing (re_search : Value -> Value -> Res bool)
    (self : AtomicDB.t) (field op : string) (value : Value) (collection : string) :
  op ∉ known_operators ->
  find re_search (Some [(field, VDict [(op, value)])]) collection self
    = (Ok (QueryResult.mk []), self).
Proof.
  intros Hop. rewrite find_unfold.
  destruct (_collections self !! collection) as [docs|]; [|done].
  rewrite filter_docs_none; [done|].
  intros doc. cbn. by rewrite apply_unknown_operator.
Qed.

(** The theorem at work on an example. *)
Lemma unknown_operator_matches_nothing_witness :
  find (fun _ _ => Ok true) (Some [("age", VDict [("$between", VInt 0)])]) "default"
    Examples.two_db = (Ok (QueryResult.mk []), Examples.two_db).
Proof.
  apply unknown_operator_matches_nothing. unfold known_operators.
  intros H. repeat (apply elem_of_cons in H as [H|H]; [discriminate H|]).
  by apply elem_of_nil in H.
Defined.

(** X7. [{field: {"$exists": b}}] tests whether the value of the field
    is not [None], not whether the key is there; it agrees with the leaf
    [Field.exists] on every document except one that holds the field
    with the value [None]. *)
Theorem exists_operator_ignores_none (re_search : Value -> Value -> Res bool)
    (field : Field.t) (doc : Document) (b : bool) :
  _matches_query re_search doc [(Field.name field, VDict [("$exists", VBool b)])]
    = Ok (Bool.eqb (negb (is_none (doc_get doc (Field.name field)))) b) /\
  (_matches_query re_search doc [(Field.name field, VDict [("$exists", VBool true)])]
     = Query.test (Field.exists_ field) doc
   <-> doc !! Field.name field <> Some VNone).
Proof.
  cbn. unfold _apply_operator, doc_get. cbn.
  destruct (doc !! Field.name field) as [v|] eqn:Hv; cbn.
  - split; [by destruct v, b|].
    destruct v; cbn; split; congruence.
  - split; [by destruct b|].
    split; congruence.
Qed.

Lemma filter_docs_evaluates test docs self kept :
  fst (filter_docs test docs self) = Ok kept -> evaluates test (heap self) docs.
Proof.
  revert kept. induction docs as [|d r IH]; intros kept; cbn.
  - intros _ doc Hd. by apply elem_of_nil in Hd.
  - run_monad. destruct (test (deref (heap self) d)) as [b|e] eqn:Ht; cbn; [|done].
    destruct (filter_docs test r self) as [[k|e] s] eqn:Hf; cbn in *; [|done].
    intros _ doc [->|Hd]%elem_of_cons; [by eexists|]. by eapply IH.
Qed.

Lemma range_operator_raises re_search field_value op op_value :
  op ∈ ["$gt"; "$gte"; "$lt"; "$lte"] ->
  _apply_operator re_search VNone op op_value = Raise TypeError /\
  forall e, _apply_operator re_search field_value op op_value = Raise e -> e = TypeError.
Proof.
  intros Hop. repeat (apply elem_of_cons in Hop as [->|Hop]);
    try (by apply elem_of_nil in Hop);
    (split; [by destruct op_value|]); intros e; unfold _apply_operator; cbn;
    destruct (py_order _ field_value op_value); cbn; congruence.
Qed.

(** X8. A range operator ([$gt], [$gte], [$lt], [$lte]) needs the
    field in every document: when one document of the collection lacks
    it, [find] raises [TypeError] and returns no result at all; the
    database is unchanged. *)
Theorem range_query_needs_field (re_search : Value -> Value -> Res bool)
    (self : AtomicDB.t) (field op : string) (value : Value) (collection : string)
    (docs : list loc) (doc : loc) :
  op ∈ ["$gt"; "$gte"; "$lt"; "$lte"] ->
  _collections self !! collection = Some docs ->
  doc ∈ docs ->
  deref (heap self) doc !! field = None ->
  find re_search (Some [(field, VDict [(op, value)])]) collection self
    = (Raise TypeError, self).
Proof.
  intros Hop Hc Hd Hf.
  rewrite (surjective_pairing (find _ _ _ _)), find_state. f_equal.
  rewrite find_unfold, Hc.
  set (test := fun doc => _matches_query re_search doc [(field, VDict [(op, value)])]).
  assert (forall d e, test d = Raise e -> e = TypeError) as Hraise.
  { intros d e. unfold test. cbn.
    destruct (_apply_operator re_search (doc_get d field) op value) as [[]|e'] eqn:Ha;
      try done.
    intros [= <-]. by apply (proj2 (range_operator_raises re_search (doc_get d field) op value Hop)). }
  assert (test (deref (heap self) doc) = Raise TypeError) as Hdoc.
  { unfold test. cbn. unfold doc_get. rewrite Hf. cbn.
    by rewrite (proj1 (range_operator_raises re_search VNone op value Hop)). }
  destruct (filter_docs test docs self) as [[kept|e] s] eqn:Hfd; cbn.
  - pose proof (filter_docs_evaluates test docs self kept) as Hev.
    rewrite Hfd in Hev. destruct (Hev eq_refl doc Hd) as [b Hb]. congruence.
  - pose proof (filter_docs_raise test docs self e) as Hr. rewrite Hfd in Hr.
    destruct (Hr eq_refl) as (d & _ & Hd'). by rewrite (Hraise _ _ Hd').
Qed.

(** The theorem at work on an example. *)
Lemma range_query_needs_field_witness :
  find (fun _ _ => Ok false) (Some [("age", VDict [("$gte", VInt 18)])]) "default"
    (__init__ Examples.backend {[ 0 := Examples.john; 1 := {[ "name" := VStr "Zed" ]} ]}
       {[ "default" := [0; 1] ]})
  = (Raise TypeError,
     __init__ Examples.backend {[ 0 := Examples.john; 1 := {[ "name" := VStr "Zed" ]} ]}
       {[ "default" := [0; 1] ]}).
Proof.
  apply (range_query_needs_field _ _ "age" "$gte" (VInt 18) "default" [0; 1] 1).
  - right. by left.
  - reflexivity.
  - right. by left.
  - reflexivity.
Defined.

(** ** One index *)

Lemma discarded_fields k doc_id index :
  Index.fields (discarded k doc_id index) = Index.fields index.
Proof.
  unfold discarded. destruct (Index.has_key index k); [|done]. by case_bool_decide.
Qed.

Lemma remove_document_fields doc_id doc index :
  Index.fields (snd (Index.remove_document doc_id doc index)) = Index.fields index.
Proof.
  rewrite remove_document_unfold.
  destruct (Index._get_key index doc) as [key|]; [|done].
  destruct (hash_tuple key); [apply discarded_fields|done].
Qed.

Lemma update_document_unfold doc_id old_doc new_doc index :
  Index.update_document doc_id old_doc new_doc index =
    if py_eq_key (Index._get_key index old_doc) (Index._get_key index new_doc)
    then (Ok tt, index)
    else (Index.remove_document doc_id old_doc ;; Index.add_document doc_id new_doc) index.
Proof.
  pose proof (remove_document_fields doc_id old_doc index) as Hf.
  unfold Index.update_document, Index.remove_document, Index.add_document in *.
  cbv beta iota zeta delta [bind ret gets] in *.
  destruct (py_eq_key _ _); [done|].
  match goal with
  | |- (let (_, _) := ?m in _) = _ => destruct m as [[[]|e] index']
  end; [|done].
  cbn in Hf. unfold Index._get_key. by rewrite Hf.
Qed.

Lemma added_no_empty k doc_id index :
  no_empty_bucket index -> no_empty_bucket (added k doc_id index).
Proof.
  intros Hne k' s. unfold added, Index.set_bucket. cbn.
  destruct (decide (k = k')) as [->|Hk].
  - rewrite lookup_insert_eq. intros [= <-]. set_solver.
  - rewrite lookup_insert_ne by done. apply Hne.
Qed.

Lemma discarded_no_empty k doc_id index :
  no_empty_bucket index -> no_empty_bucket (discarded k doc_id index).
Proof.
  intros Hne k' s. unfold discarded.
  destruct (Index.has_key index k); [|apply Hne].
  case_bool_decide as He; unfold Index.del_bucket, Index.set_bucket; cbn.
  - destruct (decide (k = k')) as [->|Hk].
    + by rewrite lookup_delete_eq.
    + rewrite lookup_delete_ne by done. apply Hne.
  - destruct (decide (k = k')) as [->|Hk].
    + rewrite lookup_insert_eq. by intros [= <-].
    + rewrite lookup_insert_ne by done. apply Hne.
Qed.

Lemma add_document_no_empty doc_id doc index :
  no_empty_bucket index -> no_empty_bucket (snd (Index.add_document doc_id doc index)).
Proof.
  intros Hne. rewrite add_document_unfold.
  destruct (Index._get_key index doc) as [key|]; [|done].
  destruct (hash_tuple key); [by apply added_no_empty|done].
Qed.

Lemma remove_document_no_empty doc_id doc index :
  no_empty_bucket index -> no_empty_bucket (snd (Index.remove_document doc_id doc index)).
Proof.
  intros Hne. rewrite remove_document_unfold.
  destruct (Index._get_key index doc) as [key|]; [|done].
  destruct (hash_tuple key); [by apply discarded_no_empty|done].
Qed.

Lemma update_document_no_empty doc_id old_doc new_doc index :
  no_empty_bucket index ->
  no_empty_bucket (snd (Index.update_document doc_id old_doc new_doc index)).
Proof.
  intros Hne. rewrite update_document_unfold.
  destruct (py_eq_key _ _); [done|].
  cbv beta iota zeta delta [bind].
  pose proof (remove_document_no_empty doc_id old_doc index Hne) as Hr.
  destruct (Index.remove_document doc_id old_doc index) as [[[]|e] index']; [|done].
  by apply add_document_no_empty.
Qed.

Lemma init_no_empty fields : no_empty_bucket (Index.__init__ fields).
Proof. intros k s. unfold Index.__init__. cbn. by rewrite lookup_empty. Qed.

(** X9. [Index.update_document] does nothing when the old and the new
    document have equal keys, and otherwise does what [remove_document]
    on the old document followed by [add_document] on the new one
    does, raises included. *)
Theorem update_document_moves (doc_id : nat) (old_doc new_doc : Document) (index : Index.t) :
  Index.update_document doc_id old_doc new_doc index =
    if py_eq_key (Index._get_key index old_doc) (Index._get_key index new_doc)
    then (Ok tt, index)
    else (Index.remove_document doc_id old_doc ;; Index.add_document doc_id new_doc) index.
Proof. apply update_document_unfold. Qed.

(** X10. After [add_document] of a document that has every
    indexed field with hashable values, [find_all] on any values equal
    to the document's key under [==] (so [True] finds [1]) returns the
    positions found before together with the new one; on all other
    values it returns what it returned before. The fields of the index
    are unchanged. *)
Theorem add_document_then_find (doc_id : nat) (doc : Document) (index : Index.t)
    (key : list Value) (k : list HKey) :
  Index._get_key index doc = Some key ->
  hash_tuple key = Some k ->
  let index' := snd (Index.add_document doc_id doc index) in
  fst (Index.add_document doc_id doc index) = Ok tt /\
  Index.fields index' = Index.fields index /\
  forall values,
    Index.find_all values index' =
      match Index.find_all values index with
      | Ok found => Ok (if py_eq_tuple key values then found ∪ {[ doc_id ]} else found)
      | Raise e => Raise e
      end.
Proof.
  intros Hkey Hk index'. subst index'. rewrite add_document_unfold, Hkey, Hk.
  split; [done|]. split; [done|].
  intros values. unfold Index.find_all.
  destruct (hash_tuple values) as [k'|] eqn:Hv; [|done].
  f_equal. unfold Index.bucket. cbn.
  pose proof (hash_tuple_eq _ _ _ _ Hk Hv) as Heq.
  destruct (py_eq_tuple key values).
  - assert (k = k') as <- by by apply Heq. by rewrite lookup_insert_eq.
  - rewrite lookup_insert_ne; [done|]. intros ->. by destruct Heq as [_ Heq]; discriminate Heq.
Qed.

(** The theorem at work on an example. *)
Lemma add_document_then_find_witness :
  let index := snd (Index.add_document 7 Examples.john (Index.__init__ ["name"])) in
  Index.find_all [VStr "John"] index = Ok {[ 7 ]} /\
  Index.find_all [VStr "Jane"] index = Ok ∅.
Proof.
  destruct (add_document_then_find 7 Examples.john (Index.__init__ ["name"])
              [VStr "John"] [KStr "John"] eq_refl eq_refl) as (_ & _ & H).
  split; rewrite H; cbn; f_equal; set_solver.
Defined.

(** X11. An index in which no bucket is empty stays so under
    [add_document], [remove_document] and [update_document], whatever
    their outcome. In such an index [find_one] never raises
    [StopIteration]; it returns [None] exactly when [find_all] is
    empty, and otherwise a position that [find_all] returns too. *)
Theorem buckets_never_empty (doc_id : nat) (doc new_doc : Document) (index : Index.t) :
  no_empty_bucket index ->
  no_empty_bucket (snd (Index.add_document doc_id doc index)) /\
  no_empty_bucket (snd (Index.remove_document doc_id doc index)) /\
  no_empty_bucket (snd (Index.update_document doc_id doc new_doc index)) /\
  forall values,
    Index.find_one values index <> Raise StopIteration /\
    (Index.find_one values index = Ok None <-> Index.find_all values index = Ok ∅) /\
    (forall found, Index.find_one values index = Ok (Some found) ->
                   exists all_found, Index.find_all values index = Ok all_found
                                     /\ found ∈ all_found).
Proof.
  intros Hne.
  split; [by apply add_document_no_empty|].
  split; [by apply remove_document_no_empty|].
  split; [by apply update_document_no_empty|].
  intros values. unfold Index.find_one, Index.find_all, Index.bucket.
  destruct (hash_tuple values) as [k|]; [|by repeat split].
  destruct (Index._index index !! k) as [s|] eqn:Hs; cbn; [|by repeat split; eauto].
  pose proof (Hne _ _ Hs) as Hs'.
  destruct (elements s) as [|x l] eqn:He.
  { by apply elements_empty_inv, leibniz_equiv in He. }
  cbn. repeat split; try congruence.
  intros found [= <-]. exists s. split; [done|].
  apply elem_of_elements. rewrite He. by left.
Qed.

(** The theorem at work on an example. *)
Lemma buckets_never_empty_witness :
  no_empty_bucket (snd (Index.add_document 0 Examples.john (Index.__init__ ["name"]))) /\
  Index.find_one [VStr "John"] (Index.__init__ ["name"]) <> Raise StopIteration.
Proof.
  destruct (buckets_never_empty 0 Examples.john Examples.john _ (init_no_empty ["name"]))
    as (Ha & _ & _ & Hf).
  split; [exact Ha | apply Hf].
Defined.

(** X12. In an index with no empty bucket, adding a document under a
    position the bucket of its key does not hold yet and then removing
    it again gives back the index as it was. *)
Theorem add_then_remove_restores (doc_id : nat) (doc : Document) (index : Index.t) :
  no_empty_bucket index ->
  (forall key k, Index._get_key index doc = Some key -> hash_tuple key = Some k ->
                 doc_id ∉ Index.bucket index k) ->
  snd ((Index.add_document doc_id doc ;; Index.remove_document doc_id doc) index) = index.
Proof.
  intros Hne Hnew. cbv beta iota zeta delta [bind].
  pose proof (add_document_unfold doc_id doc index) as Ha.
  destruct (Index._get_key index doc) as [key|] eqn:Hkey.
  - destruct (hash_tuple key) as [k|] eqn:Hk.
    + rewrite Ha, remove_document_unfold.
      assert (Index._get_key (added k doc_id index) doc = Some key) as -> by done.
      rewrite Hk. cbn.
      specialize (Hnew _ _ eq_refl Hk).
      unfold discarded, added, Index.has_key, Index.bucket, Index.set_bucket,
        Index.del_bucket in *. cbn.
      rewrite lookup_insert_eq. cbn.
      assert (forall s : gset nat, doc_id ∉ s -> (s ∪ {[doc_id]}) ∖ {[doc_id]} = s) as Hset.
      { intros s Hs. apply set_eq. intros x.
        rewrite elem_of_difference, elem_of_union, elem_of_singleton.
        split; [by intros [[?|?] ?] | intros ?; split; [by left | by intros ->]]. }
      rewrite Hset by done.
      destruct (Index._index index !! k) as [s|] eqn:Hs; cbn in *.
      * rewrite bool_decide_eq_false_2 by by eapply Hne.
        rewrite insert_insert_eq, insert_id by done. apply index_eta.
      * rewrite bool_decide_eq_true_2 by done.
        rewrite delete_insert_eq, delete_id by done. apply index_eta.
    + by rewrite Ha.
  - rewrite Ha. rewrite remove_document_unfold, Hkey. done.
Qed.

(** The theorem at work on an example. *)
Lemma add_then_remove_restores_witness :
  snd ((Index.add_document 1 Examples.john ;; Index.remove_document 1 Examples.john)
         (Index.__init__ ["name"])) = Index.__init__ ["name"].
Proof.
  apply add_then_remove_restores.
  - apply init_no_empty.
  - intros key k _ _. unfold Index.bucket. cbn. rewrite lookup_empty. apply not_elem_of_empty.
Defined.

(** ** The index manager *)

Lemma ltb_lt x y : String.ltb x y = true <-> String_as_OT.lt x y.
Proof.
  rewrite <- String_as_OT.cmp_lt. unfold String.ltb.
  change (String_as_OT.cmp x y) with (String.compare x y).
  destruct (String.compare x y); split; congruence.
Qed.

Lemma ltb_asym x y : String.ltb x y = true -> String.ltb y x = false.
Proof.
  unfold String.ltb. rewrite (String.compare_antisym x y).
  by destruct (String.compare y x).
Qed.

Lemma str_le_trans : Transitive str_le.
Proof.
  intros x y z Hxy Hyz. unfold str_le in *.
  destruct (String.ltb z x) eqn:Hzx; [|done].
  destruct (String.compare x y) eqn:Hc.
  - apply String.compare_eq_iff in Hc as ->. congruence.
  - assert (String.ltb x y = true) as Hlt by (unfold String.ltb; by rewrite Hc).
    apply ltb_lt in Hzx, Hlt.
    pose proof (String_as_OT.lt_trans _ _ _ Hzx Hlt) as H%ltb_lt. congruence.
  - unfold String.ltb in Hxy. rewrite (String.compare_antisym y x), Hc in Hxy. done.
Qed.

Lemma str_le_antisym : AntiSymm eq str_le.
Proof.
  intros x y Hxy Hyx. unfold str_le, String.ltb in *.
  rewrite (String.compare_antisym x y) in Hyx.
  destruct (String.compare y x) eqn:Hc; try done.
  by apply String.compare_eq_iff in Hc.
Qed.

Lemma insert_sorted_perm x l : insert_sorted x l ≡ₚ x :: l.
Proof.
  induction l as [|y r IH]; cbn; [done|].
  destruct (String.ltb y x); [|done].
  rewrite IH. apply Permutation_swap.
Qed.

Lemma sorted_perm l : sorted l ≡ₚ l.
Proof.
  induction l as [|x r IH]; [done|].
  cbn. fold (sorted r). by rewrite insert_sorted_perm, IH.
Qed.

Lemma insert_sorted_Sorted x l : Sorted str_le l -> Sorted str_le (insert_sorted x l).
Proof.
  induction 1 as [|y r Hr IH Hhd]; cbn; [by repeat constructor|].
  destruct (String.ltb y x) eqn:Hyx.
  - constructor; [done|].
    destruct r as [|z r]; cbn in *.
    + constructor. by apply ltb_asym.
    + destruct (String.ltb z x); constructor.
      * by inversion Hhd.
      * by apply ltb_asym.
  - constructor; [by constructor|]. by constructor.
Qed.

Lemma sorted_Sorted l : Sorted str_le (sorted l).
Proof.
  induction l as [|x r IH]; [constructor|].
  cbn. fold (sorted r). by apply insert_sorted_Sorted.
Qed.

Lemma sorted_permutation l l' : l ≡ₚ l' -> sorted l = sorted l'.
Proof.
  intros Hp. apply (@Sorted_unique _ str_le str_le_trans str_le_antisym);
    try apply sorted_Sorted.
  by rewrite !sorted_perm.
Qed.

Lemma assoc_lookup_app {V} (k : list string) (l : list (list string * V)) v :
  assoc_lookup k (l ++ [(k, v)]) =
    match assoc_lookup k l with Some v' => Some v' | None => Some v end.
Proof.
  induction l as [|[k' v'] r IH]; cbn.
  - by rewrite decide_True.
  - by destruct (decide (k = k')).
Qed.

Lemma assoc_lookup_app_ne {V} (k k0 : list string) (l : list (list string * V)) v :
  k <> k0 -> assoc_lookup k (l ++ [(k0, v)]) = assoc_lookup k l.
Proof.
  intros Hk. induction l as [|[k' v'] r IH]; cbn.
  - by rewrite decide_False.
  - by destruct (decide (k = k')).
Qed.

(** X13. [create_index] is idempotent and ignores the order of the
    field names: a second call with a permutation of the fields changes
    nothing, and the index is found under any permutation. The index
    keeps the field order of the call that created it, which is the
    order of the values [find_all] expects. Other indexes are
    untouched. *)
Theorem create_index_once (fields fields' : list string) (indexes : IndexManager.t) :
  fields ≡ₚ fields' ->
  let created := IndexManager.create_index fields indexes in
  IndexManager.create_index fields' created = created /\
  IndexManager.has_index fields' created = true /\
  (IndexManager.has_index fields indexes = false ->
   IndexManager.get_index fields' created = Some (Index.__init__ fields)) /\
  (forall other, sorted other <> sorted fields ->
     IndexManager.get_index other created = IndexManager.get_index other indexes).
Proof.
  intros Hp created. subst created.
  unfold IndexManager.create_index, IndexManager.has_index, IndexManager.get_index.
  rewrite <- (sorted_permutation _ _ Hp).
  destruct (assoc_lookup (sorted fields) (IndexManager._indexes indexes)) as [ix|] eqn:Hl; cbn.
  - rewrite Hl. split; [done|]. split; [by apply bool_decide_eq_true_2|].
    split; done.
  - rewrite assoc_lookup_app, Hl. split; [done|].
    split; [by apply bool_decide_eq_true_2|]. split; [done|].
    intros other Ho. by apply assoc_lookup_app_ne.
Qed.

(** The theorem at work on an example. *)
Lemma create_index_once_witness :
  let created := IndexManager.create_index ["name"; "age"] IndexManager.__init__ in
  IndexManager.create_index ["age"; "name"] created = created /\
  IndexManager.get_index ["age"; "name"] created = Some (Index.__init__ ["name"; "age"]).
Proof.
  destruct (create_index_once ["name"; "age"] ["age"; "name"] IndexManager.__init__)
    as (H1 & _ & H2 & _).
  - apply Permutation_swap.
  - split; [exact H1 | by apply H2].
Defined.

Lemma assoc_delete_lookup {V} (k k' : list string) (l : list (list string * V)) :
  NoDup l.*1 ->
  assoc_lookup k' (assoc_delete k l) = if decide (k' = k) then None else assoc_lookup k' l.
Proof.
  induction l as [|[k0 v] r IH]; cbn; intros Hnd.
  - by destruct (decide (k' = k)).
  - apply NoDup_cons in Hnd as [Hk0 Hnd].
    destruct (decide (k = k0)) as [<-|Hk].
    + destruct (decide (k' = k)) as [->|Hk']; [|done].
      clear IH. induction r as [|[k1 v1] r IHr]; cbn; [done|].
      cbn in Hk0. apply not_elem_of_cons in Hk0 as [Hk1 Hk0].
      apply NoDup_cons in Hnd as [_ Hnd].
      rewrite decide_False by done. by apply IHr.
    + cbn. rewrite (IH Hnd).
      destruct (decide (k' = k0)) as [->|Hk0']; [by rewrite decide_False|done].
Qed.

Lemma assoc_delete_keys {V} (k : list string) (l : list (list string * V)) :
  NoDup l.*1 -> NoDup (assoc_delete k l).*1.
Proof.
  induction l as [|[k0 v] r IH]; cbn; intros Hnd; [constructor|].
  apply NoDup_cons in Hnd as [Hk0 Hnd].
  destruct (decide (k = k0)); [done|]. cbn.
  apply NoDup_cons. split; [|by apply IH].
  intros Hin. apply Hk0. clear -Hin.
  induction r as [|[k1 v1] r IHr]; cbn in *; [done|].
  destruct (decide (k = k1)); [by right|].
  cbn in Hin. apply elem_of_cons in Hin as [->|Hin]; [by left|right; by apply IHr].
Qed.

Lemma assoc_lookup_None {V} (k : list string) (l : list (list string * V)) :
  assoc_lookup k l = None <-> k ∉ l.*1.
Proof.
  induction l as [|[k0 v] r IH]; cbn.
  - split; [intros _; apply not_elem_of_nil | done].
  - rewrite not_elem_of_cons. destruct (decide (k = k0)); [split; [done|by intros [? _]]|].
    rewrite IH. split; [done|by intros [_ ?]].
Qed.

Lemma for_values_keys {K V} (f : M V unit) (l : list (K * V)) :
  (snd (for_values f l)).*1 = l.*1.
Proof.
  induction l as [|[k v] r IH]; cbn; [done|].
  destruct (f v) as [[[]|e] v']; cbn; [|done].
  destruct (for_values f r) as [res r']; cbn in *. by rewrite IH.
Qed.

(** X14. With distinct keys in [_indexes], after [drop_index] the
    manager has no index for any permutation of the fields, and every
    other index is found as before. The keys stay distinct under every
    method of the manager. *)
Theorem drop_index_forgets (fields fields' : list string) (doc_id : nat)
    (doc new_doc : Document) (indexes : IndexManager.t) :
  distinct_keys indexes ->
  (fields ≡ₚ fields' -> IndexManager.has_index fields' (IndexManager.drop_index fields indexes) = false) /\
  (sorted fields' <> sorted fields ->
   IndexManager.get_index fields' (IndexManager.drop_index fields indexes)
     = IndexManager.get_index fields' indexes) /\
  distinct_keys (IndexManager.drop_index fields indexes) /\
  distinct_keys (IndexManager.create_index fields indexes) /\
  distinct_keys (snd (IndexManager.add_document doc_id doc indexes)) /\
  distinct_keys (snd (IndexManager.remove_document doc_id doc indexes)) /\
  distinct_keys (snd (IndexManager.update_document doc_id doc new_doc indexes)).
Proof.
  intros Hnd. unfold distinct_keys in *.
  unfold IndexManager.has_index, IndexManager.get_index, IndexManager.drop_index. cbn.
  split; [|split; [|split; [|split]]].
  - intros Hp. rewrite (assoc_delete_lookup _ _ _ Hnd), (sorted_permutation _ _ Hp).
    rewrite decide_True by done. apply bool_decide_eq_false_2. by intros [? ?].
  - intros Hne. rewrite (assoc_delete_lookup _ _ _ Hnd). by rewrite decide_False.
  - by apply assoc_delete_keys.
  - unfold IndexManager.create_index.
    destruct (assoc_lookup _ _) eqn:Hl; [done|]. cbn.
    rewrite fmap_app. cbn. apply NoDup_app. split; [done|].
    split; [|apply NoDup_singleton].
    intros x Hx Hx'. apply elem_of_cons in Hx' as [->|Hx']; [|by apply elem_of_nil in Hx'].
    by apply assoc_lookup_None in Hl.
  - unfold IndexManager.add_document, IndexManager.remove_document,
      IndexManager.update_document, IndexManager.for_indexes.
    repeat split;
      match goal with
      | |- context [for_values ?f ?l] =>
          pose proof (for_values_keys f l) as Hk;
          destruct (for_values f l) as [res l']; cbn in *; by rewrite Hk
      end.
Qed.

(** The theorem at work on an example. *)
Lemma drop_index_forgets_witness :
  let indexes := IndexManager.create_index ["name"; "age"] IndexManager.__init__ in
  IndexManager.has_index ["age"; "name"] (IndexManager.drop_index ["name"; "age"] indexes)
    = false.
Proof.
  refine (proj1 (drop_index_forgets ["name"; "age"] ["age"; "name"] 0 ∅ ∅ _ _) _).
  - unfold distinct_keys. cbn. apply NoDup_singleton.
  - apply Permutation_swap.
Defined.

(** ** Schema validation *)

(** X15. When [_validate_against_schema] raises, the error is about
    the first field, in the order of the schema, that the document
    violates: every field declared before it passes, and the message
    names the missing required field or the type the field must
    have. *)
Theorem first_violation_reported (document : Document) (schema : Schema.CollectionSchema)
    (e : Exn) :
  Schema._validate_against_schema document schema = Raise e ->
  exists passed field field_schema rest,
    schema = passed ++ (field, field_schema) :: rest /\
    Schema._validate_against_schema document passed = Ok tt /\
    ~ violates passed document /\
    match document !! field with
    | None => Schema.required field_schema = true /\ e = ValidationError (MissingRequired field)
    | Some value =>
        exists type_name,
          Schema.type_ field_schema = Some type_name /\ wrong_type type_name value /\
          e = ValidationError (MustBe field type_name)
    end.
Proof.
  induction schema as [|[field field_schema] rest IH]; cbn; [done|].
  assert (Schema._validate_against_schema document [] = Ok tt /\ ~ violates [] document)
    as [Hnil Hnv].
  { split; [done|]. intros (f & fs & Hin & _). by apply elem_of_nil in Hin. }
  destruct (document !! field) as [value|] eqn:Hf.
  - pose proof (check_type_spec field (Schema.type_ field_schema) value) as Hct.
    destruct (Schema.check_type field (Schema.type_ field_schema) value) as [[]|e'] eqn:Hc.
    + intros Hr. destruct (IH Hr) as (passed & f & fs & rest' & -> & Hok & Hnot & Hwhat).
      exists ((field, field_schema) :: passed), f, fs, rest'.
      split; [done|]. cbn. rewrite Hf, Hc. split; [done|].
      split; [|done].
      intros (f' & fs' & Hin & Hv). apply elem_of_cons in Hin as [[= -> ->]|Hin].
      * rewrite Hf in Hv. destruct Hv as (ty & Hty & Hw). by apply (Hct ty).
      * apply Hnot. by exists f', fs'.
    + intros [= ->]. exists [], field, field_schema, rest.
      rewrite Hf. by repeat split.
  - destruct (Schema.required field_schema) eqn:Hreq.
    + intros [= <-]. exists [], field, field_schema, rest. rewrite Hf. by repeat split.
    + intros Hr. destruct (IH Hr) as (passed & f & fs & rest' & -> & Hok & Hnot & Hwhat).
      exists ((field, field_schema) :: passed), f, fs, rest'.
      split; [done|]. cbn. rewrite Hf, Hreq. split; [done|].
      split; [|done].
      intros (f' & fs' & Hin & Hv). apply elem_of_cons in Hin as [[= -> ->]|Hin].
      * rewrite Hf in Hv. congruence.
      * apply Hnot. by exists f', fs'.
Qed.

(** The theorem at work on an example. *)
Lemma first_violation_reported_witness :
  exists passed field_schema rest,
    Examples.users_schema = passed ++ ("email", field_schema) :: rest /\
    Schema._validate_against_schema Examples.jane passed = Ok tt.
Proof.
  destruct (first_violation_reported Examples.jane Examples.users_schema
              (ValidationError (MissingRequired "email")) eq_refl)
    as (passed & field & fs & rest & Hs & Hok & _ & Hwhat).
  assert (field = "email") as ->.
  { destruct (Examples.jane !! field) as [v|].
    - by destruct Hwhat as (ty & _ & _ & [=]).
    - by destruct Hwhat as [_ [=]]. }
  by exists passed, fs, rest.
Defined.

(** X16. A field the schema does not declare plays no part in the
    validation: adding it to a document, with any value, or deleting
    it leaves the outcome unchanged. *)
Theorem undeclared_fields_accepted (document : Document) (schema : Schema.CollectionSchema)
    (field : string) (value : Value) :
  field ∉ schema.*1 ->
  Schema._validate_against_schema (<[field := value]> document) schema
    = Schema._validate_against_schema document schema /\
  Schema._validate_against_schema (delete field document) schema
    = Schema._validate_against_schema document schema.
Proof.
  induction schema as [|[f fs] rest IH]; cbn; [done|].
  intros [Hf Hrest]%not_elem_of_cons.
  destruct (IH Hrest) as [IHi IHd].
  rewrite lookup_insert_ne, lookup_delete_ne, IHi, IHd by done. done.
Qed.

(** The theorem at work on an example. *)
Lemma undeclared_fields_accepted_witness :
  Schema._validate_against_schema (<["nickname" := VInt 7]> Examples.john) Examples.users_schema
    = Schema._validate_against_schema Examples.john Examples.users_schema.
Proof.
  refine (proj1 (undeclared_fields_accepted Examples.john Examples.users_schema
                   "nickname" (VInt 7) _)).
  cbn. intros H. repeat (apply elem_of_cons in H as [H|H]; [discriminate H|]).
  by apply elem_of_nil in H.
Defined.

(** ** [insert] and [insert_many] *)

Lemma hashable_key doc fields : forall key,
  hashable_doc doc -> mapM (fun field => doc !! field) fields = Some key ->
  is_Some (hash_tuple key).
Proof.
  intros key Hh. revert key. induction fields as [|f r IH]; intros key; cbn.
  - intros [= <-]. by eexists.
  - destruct (doc !! f) as [v|] eqn:Hf; cbn; [|done].
    destruct (mapM _ r) as [vs|]; cbn; [|done].
    intros [= <-]. cbn.
    destruct (Hh _ _ Hf) as [k ->]. destruct (IH vs eq_refl) as [ks ->]. by eexists.
Qed.

Lemma index_add_document_ok doc_id doc index :
  hashable_doc doc -> fst (Index.add_document doc_id doc index) = Ok tt.
Proof.
  intros Hh. rewrite add_document_unfold.
  destruct (Index._get_key index doc) as [key|] eqn:Hk; [|done].
  destruct (hashable_key _ _ _ Hh Hk) as [k ->]. done.
Qed.

Lemma for_values_ok {K V} (f : M V unit) (l : list (K * V)) :
  (forall v, fst (f v) = Ok tt) ->
  for_values f l = (Ok tt, prod_map id (fun v => snd (f v)) <$> l).
Proof.
  intros Hf. induction l as [|[k v] r IH]; cbn; [done|].
  specialize (Hf v). destruct (f v) as [[[]|e] v']; cbn in *; [|done].
  by rewrite IH.
Qed.

Lemma add_document_ok doc_id doc indexes :
  hashable_doc doc ->
  IndexManager.add_document doc_id doc indexes = (Ok tt, told_add doc_id doc indexes).
Proof.
  intros Hh. unfold IndexManager.add_document, IndexManager.for_indexes.
  rewrite for_values_ok; [done|]. intros v. by apply index_add_document_ok.
Qed.

Lemma insert_invalid str_len self document collection e :
  Schema.validate_document collection (deref (heap self) document) (_schema self) = Raise e ->
  insert str_len document collection self = (Raise e, self).
Proof.
  intros Hv. unfold insert. run_monad. by rewrite Hv.
Qed.

Lemma insert_accepted str_len self document collection :
  accepted collection self document ->
  let doc := deref (heap self) document in
  let docs := default [] (_collections self !! collection) ++ [document] in
  insert str_len document collection self =
    (Ok (length docs - 1),
     finish_insert str_len collection doc docs
       (set_indexes (told_add (length docs - 1) doc (_indexes self))
          (set_collection collection docs self))).
Proof.
  intros [Hv Hh] doc docs.
  rewrite (insert_valid str_len self document collection Hv).
  fold doc docs. by rewrite (add_document_ok _ _ _ Hh).
Qed.

Lemma insert_many_app str_len pre post collection self :
  insert_many str_len (pre ++ post) collection self =
    (ids <- insert_many str_len pre collection ;;
     more <- insert_many str_len post collection ;;
     ret (ids ++ more)) self.
Proof.
  revert self. induction pre as [|d pre IH]; intros self; cbn.
  - run_monad. by destruct (insert_many str_len post collection self) as [[?|?] ?].
  - run_monad. destruct (insert str_len d collection self) as [[doc_id|e] s]; [|done].
    rewrite IH. run_monad.
    destruct (insert_many str_len pre collection s) as [[ids|e] s']; [|done].
    by destruct (insert_many str_len post collection s') as [[?|?] ?].
Qed.

Lemma insert_many_accepted str_len documents collection : forall self,
  Forall (accepted collection self) documents ->
  let old := default [] (_collections self !! collection) in
  let self' := snd (insert_many str_len documents collection self) in
  fst (insert_many str_len documents collection self)
    = Ok (seq (length old) (length documents)) /\
  default [] (_collections self' !! collection) = old ++ documents /\
  heap self' = heap self /\
  Schema._schemas (_schema self') = Schema._schemas (_schema self) /\
  Storage.saves (_storage self') = Storage.saves (_storage self) + length documents.
Proof.
  induction documents as [|d rest IH]; intros self Hacc old self'.
  - subst self'. cbn. rewrite app_nil_r. repeat split; try done; lia.
  - apply Forall_cons in Hacc as [Hd Hrest].
    subst self'. cbn [insert_many]. run_monad.
    rewrite (insert_accepted str_len self d collection Hd).
    set (s := finish_insert _ _ _ _ _).
    assert (heap s = heap self) as Hheap by done.
    assert (Schema._schemas (_schema s) = Schema._schemas (_schema self)) as Hsch by done.
    assert (_collections s !! collection = Some (old ++ [d])) as Hcoll.
    { subst s. cbn. by rewrite lookup_insert_eq. }
    assert (Storage.saves (_storage s) = Storage.saves (_storage self) + 1) as Hsave.
    { subst s. cbn. apply saves_log_save. }
    assert (Forall (accepted collection s) rest) as Hrest'.
    { eapply Forall_impl; [exact Hrest|]. intros x [Hv Hh]. unfold accepted.
      rewrite Hheap. split; [|done].
      unfold Schema.validate_document in *. by rewrite Hsch. }
    clearbody s.
    destruct (IH s Hrest') as (Hids & Hc & Hh & Hs & Hsv).
    destruct (insert_many str_len rest collection s) as [[ids|e] s'] eqn:Hm;
      cbn [fst snd] in *; [|done].
    rewrite Hcoll in *. cbn [default] in *. injection Hids as ->.
    rewrite length_app in *. cbn [length] in *. subst old.
    repeat split.
    + rewrite length_app. cbn [seq length]. f_equal. f_equal; [lia|]. f_equal. lia.
    + rewrite Hc. unfold id. by rewrite <- app_assoc.
    + congruence.
    + congruence.
    + lia.
Qed.

Lemma accepted_later collection self self' document :
  heap self' = heap self ->
  Schema._schemas (_schema self') = Schema._schemas (_schema self) ->
  Schema.validate_document collection (deref (heap self') document) (_schema self')
    = Schema.validate_document collection (deref (heap self) document) (_schema self).
Proof. intros Hh Hs. unfold Schema.validate_document. by rewrite Hh, Hs. Qed.

(** X17. [insert_many] and [insert_multiple] of documents that pass
    the schema and hold hashable values return consecutive ids, starting
    at the size of the collection; the documents are appended in order,
    the very objects passed in, no document is modified, and the
    collections are saved once per document. *)
Theorem insert_many_appends (str_len : Document -> nat) (self : AtomicDB.t)
    (documents : list loc) (collection : string) :
  Forall (accepted collection self) documents ->
  let old := default [] (_collections self !! collection) in
  let self' := snd (insert_many str_len documents collection self) in
  fst (insert_many str_len documents collection self)
    = Ok (seq (length old) (length documents)) /\
  fst (insert_multiple str_len documents collection self)
    = Ok (seq (length old) (length documents)) /\
  default [] (_collections self' !! collection) = old ++ documents /\
  heap self' = heap self /\
  Storage.saves (_storage self') = Storage.saves (_storage self) + length documents.
Proof.
  intros Hacc old self'.
  destruct (insert_many_accepted str_len documents collection self Hacc)
    as (Hids & Hc & Hh & _ & Hsv).
  by repeat split.
Qed.

(** X18. [insert_many] is not atomic: when a document fails
    validation, the error is raised, the documents before it stay
    inserted and saved, and the documents after it are not looked
    at. *)
Theorem insert_many_keeps_earlier (str_len : Document -> nat) (self : AtomicDB.t)
    (earlier : list loc) (rejected : loc) (later : list loc) (collection : string) (e : Exn) :
  Forall (accepted collection self) earlier ->
  Schema.validate_document collection (deref (heap self) rejected) (_schema self) = Raise e ->
  let old := default [] (_collections self !! collection) in
  let self' := snd (insert_many str_len (earlier ++ rejected :: later) collection self) in
  fst (insert_many str_len (earlier ++ rejected :: later) collection self) = Raise e /\
  default [] (_collections self' !! collection) = old ++ earlier /\
  Storage.saves (_storage self') = Storage.saves (_storage self) + length earlier.
Proof.
  intros Hacc Hrej old self'. subst self'.
  rewrite insert_many_app. run_monad.
  destruct (insert_many_accepted str_len earlier collection self Hacc)
    as (Hids & Hc & Hh & Hs & Hsv).
  destruct (insert_many str_len earlier collection self) as [[ids|e'] s]; cbn [fst snd] in *;
    [|done].
  cbn [insert_many]. run_monad.
  rewrite (insert_invalid str_len s rejected collection e).
  - done.
  - by rewrite (accepted_later collection self s rejected Hh Hs).
Qed.

Lemma assoc_lookup_fmap {V} (g : V -> V) (k : list string) (l : list (list string * V)) :
  assoc_lookup k (prod_map id g <$> l) = g <$> assoc_lookup k l.
Proof.
  induction l as [|[k' v] r IH]; cbn; [done|].
  by destruct (decide (k = k')).
Qed.

(** X19. After a successful [insert], every index whose fields the
    document has finds the document: [find_all] on the document's key
    holds the id that [insert] returned, and the collection holds the
    document at that id. *)
Theorem insert_indexes_document (str_len : Document -> nat) (self : AtomicDB.t)
    (document : loc) (collection : string) (fields : list string) (index : Index.t)
    (key : list Value) :
  accepted collection self document ->
  IndexManager.get_index fields (_indexes self) = Some index ->
  Index._get_key index (deref (heap self) document) = Some key ->
  let self' := snd (insert str_len document collection self) in
  exists doc_id index' found,
    fst (insert str_len document collection self) = Ok doc_id /\
    default [] (_collections self' !! collection) !! doc_id = Some document /\
    IndexManager.get_index fields (_indexes self') = Some index' /\
    Index.find_all key index' = Ok found /\
    doc_id ∈ found.
Proof.
  intros Hacc Hix Hkey self'. subst self'.
  rewrite (insert_accepted str_len self document collection Hacc).
  set (old := default [] (_collections self !! collection)).
  destruct (hashable_key _ _ _ (proj2 Hacc) Hkey) as [k Hk].
  exists (length (old ++ [document]) - 1),
    (snd (Index.add_document (length (old ++ [document]) - 1)
            (deref (heap self) document) index)),
    (Index.bucket index k ∪ {[ length (old ++ [document]) - 1 ]}).
  split; [done|]. split; [|split; [|split]].
  - cbn. rewrite lookup_insert_eq. cbn. rewrite length_app. cbn.
    replace (length old + 1 - 1) with (length old + 0) by lia.
    by rewrite lookup_app_r, Nat.add_0_r, Nat.sub_diag by lia.
  - cbn. unfold IndexManager.get_index, told_add in *. cbn.
    by rewrite assoc_lookup_fmap, Hix.
  - rewrite add_document_unfold, Hkey, Hk. cbn.
    unfold Index.find_all, Index.bucket. rewrite Hk. cbn. by rewrite lookup_insert_eq.
  - apply elem_of_union_r, elem_of_singleton. done.
Qed.

(** The theorem at work on an example. *)
Lemma insert_indexes_document_witness :
  exists index',
    IndexManager.get_index ["name"]
      (_indexes (snd (insert Examples.no_len 1 "default" Examples.indexed_db))) = Some index' /\
    exists found, Index.find_all [VStr "Jane"] index' = Ok found /\ 2 ∈ found.
Proof.
  destruct (insert_indexes_document Examples.no_len Examples.indexed_db 1 "default" ["name"]
              (Index.mk ["name"] {[ [KStr "John"] := {[0]}; [KStr "Jane"] := {[1]} ]})
              [VStr "Jane"])
    as (doc_id & index' & found & Hid & _ & Hix & Hf & Hin).
  - split; [reflexivity|]. intros field value. vm_compute.
    repeat case_match; intros [= <-]; by eexists.
  - vm_compute. reflexivity.
  - reflexivity.
  - exists index'. split; [exact Hix|]. exists found. split; [exact Hf|].
    vm_compute in Hid. by injection Hid as <-.
Defined.

(** X20. When an index rejects the document that [insert] adds (a
    list or a dict under an indexed field), [insert] raises [TypeError]
    after the document was appended: the document stays in the
    collection, but nothing is saved and the statistics are not
    updated. *)
Theorem failed_insert_keeps_document (str_len : Document -> nat) (self : AtomicDB.t)
    (document : loc) (collection : string) (e : Exn) :
  let doc := deref (heap self) document in
  let old := default [] (_collections self !! collection) in
  let self' := snd (insert str_len document collection self) in
  Schema.validate_document collection doc (_schema self) = Ok tt ->
  fst (IndexManager.add_document (length old) doc (_indexes self)) = Raise e ->
  fst (insert str_len document collection self) = Raise TypeError /\
  _collections self' !! collection = Some (old ++ [document]) /\
  _storage self' = _storage self /\
  _schema self' = _schema self.
Proof.
  intros doc old self' Hv Hadd. subst self'.
  rewrite (insert_valid str_len self document collection Hv).
  fold doc old. rewrite length_app. cbn [length].
  replace (length old + 1 - 1) with (length old) by lia.
  pose proof (add_document_raise (length old) doc (_indexes self) e Hadd) as ->.
  destruct (IndexManager.add_document (length old) doc (_indexes self)) as [[[]|e'] ixs];
    cbn in Hadd; [done|]. injection Hadd as ->.
  cbn. by rewrite lookup_insert_eq.
Qed.

Lemma hashable_doc_empty : hashable_doc ∅.
Proof. intros field value. by rewrite lookup_empty. Qed.

Lemma hashable_doc_insert field value doc :
  is_Some (hash_value value) -> hashable_doc doc -> hashable_doc (<[field := value]> doc).
Proof.
  intros Hv Hd f v. destruct (decide (field = f)) as [->|Hf].
  - rewrite lookup_insert_eq. by intros [= <-].
  - rewrite lookup_insert_ne by done. apply Hd.
Qed.

Lemma john_and_jane_hashable :
  hashable_doc Examples.john /\ hashable_doc Examples.jane.
Proof.
  split; repeat apply hashable_doc_insert; try apply hashable_doc_empty; by eexists.
Qed.

Lemma two_db_hashable document :
  document ∈ [0; 1] -> hashable_doc (deref (heap Examples.two_db) document).
Proof.
  intros Hd. apply elem_of_cons in Hd as [->|Hd]; [apply john_and_jane_hashable|].
  apply elem_of_cons in Hd as [->|Hd]; [apply john_and_jane_hashable|].
  by apply elem_of_nil in Hd.
Qed.

(** The theorem at work on an example. *)
Lemma insert_many_appends_witness :
  fst (insert_many Examples.no_len [1; 0] "archive" Examples.two_db) = Ok [0; 1] /\
  default [] (_collections (snd (insert_many Examples.no_len [1; 0] "archive" Examples.two_db))
                !! "archive") = [1; 0].
Proof.
  destruct (insert_many_appends Examples.no_len Examples.two_db [1; 0] "archive")
    as (Hids & _ & Hc & _).
  - repeat constructor; apply two_db_hashable; [right|]; by left.
  - split; [exact Hids | exact Hc].
Defined.

(** The theorem at work on an example. *)
Lemma insert_many_keeps_earlier_witness :
  let ann : Document := {[ "name" := VStr "Ann"; "email" := VStr "ann@example.org" ]} in
  let self := snd (new_dict ann Examples.users_db) in
  let self' := snd (insert_many Examples.no_len [1; 0; 1] "users" self) in
  fst (insert_many Examples.no_len [1; 0; 1] "users" self)
    = Raise (ValidationError (MissingRequired "email")) /\
  default [] (_collections self' !! "users") = [1] /\
  Storage.saves (_storage self') = Storage.saves (_storage self) + 1.
Proof.
  intros ann self self'.
  apply (insert_many_keeps_earlier Examples.no_len self [1] 0 [1] "users").
  - repeat constructor.
    change (deref (heap self) 1) with ann.
    repeat apply hashable_doc_insert; try apply hashable_doc_empty; by eexists.
  - reflexivity.
Defined.

(** The theorem at work on an example. *)
Lemma failed_insert_keeps_document_witness :
  let self := snd ((create_index ["tags"] ;; new_dict {[ "tags" := VList [] ]})
                     Examples.empty_db) in
  let self' := snd (insert Examples.no_len 0 "default" self) in
  fst (insert Examples.no_len 0 "default" self) = Raise TypeError /\
  _collections self' !! "default" = Some [0] /\
  _storage self' = _storage self.
Proof.
  intros self self'.
  destruct (failed_insert_keeps_document Examples.no_len self 0 "default" TypeError)
    as (Hr & Hc & Hs & _).
  - reflexivity.
  - reflexivity.
  - split; [exact Hr|]. split; [exact Hc | exact Hs].
Defined.

(** ** [create_index] and the documents already stored *)

Lemma positions_lookup h docs : forall i j document,
  docs !! j = Some document -> (i + j, deref h document) ∈ positions h docs i.
Proof.
  induction docs as [|d r IH]; intros i [|j] document; cbn; try done.
  - intros [= ->]. rewrite Nat.add_0_r. by left.
  - intros Hj. right. replace (i + S j) with (S i + j) by lia. by apply IH.
Qed.

Lemma positions_hashable h docs : forall i,
  (forall document, document ∈ docs -> hashable_doc (deref h document)) ->
  Forall (fun entry => hashable_doc entry.2) (positions h docs i).
Proof.
  induction docs as [|d r IH]; intros i Hh; cbn; constructor.
  - apply Hh. by left.
  - apply IH. intros x Hx. apply Hh. by right.
Qed.

Lemma told_all_lookup fields entries : forall indexes,
  IndexManager.get_index fields
    (foldl (fun m entry => told_add entry.1 entry.2 m) indexes entries)
  = filled entries <$> IndexManager.get_index fields indexes.
Proof.
  induction entries as [|[j d] r IH]; intros indexes; cbn.
  - by destruct (IndexManager.get_index fields indexes).
  - rewrite IH. unfold IndexManager.get_index, told_add. cbn.
    rewrite assoc_lookup_fmap. by destruct (assoc_lookup _ _).
Qed.

Lemma backfill_ok docs : forall i self,
  (forall document, document ∈ docs -> hashable_doc (deref (heap self) document)) ->
  backfill i docs self =
    (Ok tt,
     set_indexes
       (foldl (fun m entry => told_add entry.1 entry.2 m) (_indexes self)
          (positions (heap self) docs i))
       self).
Proof.
  induction docs as [|d r IH]; intros i self Hh; cbn.
  - by destruct self.
  - run_monad. rewrite add_document_ok by (apply Hh; by left).
    rewrite IH by (intros x Hx; apply Hh; by right). done.
Qed.

Lemma backfill_each_ok collections : forall self,
  (forall docs document, docs ∈ collections -> document ∈ docs ->
                         hashable_doc (deref (heap self) document)) ->
  backfill_each collections self =
    (Ok tt,
     set_indexes
       (foldl (fun m entry => told_add entry.1 entry.2 m) (_indexes self)
          (mjoin ((fun docs => positions (heap self) docs 0) <$> collections)))
       self).
Proof.
  induction collections as [|docs r IH]; intros self Hh; cbn.
  - by destruct self.
  - run_monad. rewrite backfill_ok by (intros x Hx; eapply Hh; [by left|done]).
    rewrite IH by (intros ds x Hds Hx; eapply Hh; [by right|done]).
    cbn. by rewrite foldl_app.
Qed.

Lemma add_document_grows doc_id doc index k :
  Index.fields (snd (Index.add_document doc_id doc index)) = Index.fields index /\
  Index.bucket index k ⊆ Index.bucket (snd (Index.add_document doc_id doc index)) k.
Proof.
  rewrite add_document_unfold.
  destruct (Index._get_key index doc) as [key|]; [|done].
  destruct (hash_tuple key) as [k'|]; [|done].
  split; [done|]. unfold added, Index.bucket, Index.set_bucket. cbn.
  destruct (decide (k' = k)) as [->|Hk].
  - rewrite lookup_insert_eq. cbn. apply union_subseteq_l.
  - by rewrite lookup_insert_ne.
Qed.

Lemma filled_grows entries : forall index k,
  Index.fields (filled entries index) = Index.fields index /\
  Index.bucket index k ⊆ Index.bucket (filled entries index) k.
Proof.
  induction entries as [|[j d] r IH]; intros index k; [done|].
  change (filled ((j, d) :: r) index) with (filled r (snd (Index.add_document j d index))).
  destruct (IH (snd (Index.add_document j d index)) k) as [Hf Hb].
  destruct (add_document_grows j d index k) as [Hf' Hb'].
  split; [congruence|]. etrans; done.
Qed.

Lemma filled_covers entries : forall index doc_id doc key k,
  (doc_id, doc) ∈ entries ->
  Index._get_key index doc = Some key ->
  hash_tuple key = Some k ->
  doc_id ∈ Index.bucket (filled entries index) k.
Proof.
  induction entries as [|[j d] r IH]; intros index doc_id doc key k Hin Hkey Hk.
  - by apply elem_of_nil in Hin.
  - change (filled ((j, d) :: r) index) with (filled r (snd (Index.add_document j d index))).
    apply elem_of_cons in Hin as [[= <- <-]|Hin].
    + apply (filled_grows r _ k). rewrite add_document_unfold, Hkey, Hk.
      unfold added, Index.bucket, Index.set_bucket. cbn. rewrite lookup_insert_eq. cbn.
      apply elem_of_union_r, elem_of_singleton. done.
    + eapply IH; [done| |done].
      unfold Index._get_key in *.
      by rewrite (proj1 (add_document_grows j d index k)).
Qed.

(** X21. On a database whose documents hold hashable values,
    [create_index] succeeds, saves nothing, and leaves documents and
    collections as they are; afterwards the index finds every document
    of every collection that has the indexed fields, under the position
    of the document in its own collection. *)
Theorem create_index_backfills (fields : list string) (self : AtomicDB.t) :
  (forall collection docs document,
     _collections self !! collection = Some docs -> document ∈ docs ->
     hashable_doc (deref (heap self) document)) ->
  let self' := snd (create_index fields self) in
  fst (create_index fields self) = Ok tt /\
  heap self' = heap self /\
  _collections self' = _collections self /\
  _storage self' = _storage self /\
  exists index,
    IndexManager.get_index fields (_indexes self') = Some index /\
    forall collection docs doc_id document key,
      _collections self !! collection = Some docs ->
      docs !! doc_id = Some document ->
      Index._get_key index (deref (heap self) document) = Some key ->
      exists found, Index.find_all key index = Ok found /\ doc_id ∈ found.
Proof.
  intros Hh self'. subst self'. unfold create_index. run_monad.
  rewrite backfill_each_ok.
  2:{ cbn. intros docs document Hd Hin.
      apply list_elem_of_fmap in Hd as ([c ds] & -> & Hd).
      apply elem_of_map_to_list in Hd. by eapply Hh. }
  cbn. repeat (split; [done|]).
  rewrite told_all_lookup.
  assert (exists index0, IndexManager.get_index fields
                           (IndexManager.create_index fields (_indexes self)) = Some index0)
    as [index0 H0].
  { unfold IndexManager.get_index, IndexManager.create_index.
    destruct (assoc_lookup (sorted fields) (IndexManager._indexes (_indexes self)))
      as [ix|] eqn:Hl; cbn.
    - rewrite Hl. by eexists.
    - clear. induction (IndexManager._indexes (_indexes self)) as [|[k v] r IH]; cbn.
      + rewrite decide_True by done. by eexists.
      + destruct (decide (sorted fields = k)); [by eexists|done]. }
  rewrite H0. cbn. eexists. split; [done|].
  intros collection docs doc_id document key Hc Hd Hkey.
  assert (hashable_doc (deref (heap self) document)) as Hhd.
  { eapply Hh; [done|]. by eapply list_elem_of_lookup_2. }
  destruct (hashable_key _ _ _ Hhd Hkey) as [k Hk].
  exists (Index.bucket (filled (mjoin ((fun docs => positions (heap self) docs 0)
                                           <$> (map_to_list (_collections self)).*2)) index0) k).
  unfold Index.find_all. rewrite Hk. split; [done|].
  eapply filled_covers; [|by rewrite <- Hkey; unfold Index._get_key;
                            rewrite (proj1 (filled_grows _ index0 k))|done].
  apply list_elem_of_join. exists (positions (heap self) docs 0). split.
  - by apply (positions_lookup _ _ 0).
  - apply list_elem_of_fmap. exists docs. split; [done|].
    apply list_elem_of_fmap. exists (collection, docs). split; [done|].
    by apply elem_of_map_to_list.
Qed.

(** The theorem at work on an example. *)
Lemma create_index_backfills_witness :
  exists index,
    IndexManager.get_index ["age"] (_indexes (snd (create_index ["age"] Examples.two_db)))
      = Some index /\
    exists found, Index.find_all [VInt 25] index = Ok found /\ 1 ∈ found.
Proof.
  destruct (create_index_backfills ["age"] Examples.two_db) as (_ & _ & _ & _ & index & Hix & H).
  - intros collection docs document Hc Hd.
    assert (docs = [0; 1]) as ->.
    { change (_collections Examples.two_db) with ({[ "default" := [0; 1] ]} : gmap string (list loc)) in Hc.
      apply lookup_singleton_Some in Hc as [_ <-]. done. }
    by apply two_db_hashable.
  - exists index. split; [exact Hix|].
    apply (H "default" [0; 1] 1 1 [VInt 25]); [reflexivity|reflexivity|].
    assert (Index.fields index = ["age"]) as Hf.
    { vm_compute in Hix. by injection Hix as <-. }
    unfold Index._get_key. rewrite Hf. reflexivity.
Defined.

(** ** [remove], twice *)

Lemma remove_result query collection self docs :
  let test := query_test query in
  let h := heap self in
  let count := length (List.filter (is_match test h) docs) in
  let told := notify_removals (removals test h docs 0) (_indexes self) in
  let removed :=
    set_indexes (snd told)
      (set_collection collection
         (List.filter (fun doc => negb (is_match test h doc)) docs) self) in
  _collections self !! collection = Some docs ->
  evaluates test h docs ->
  fst told = Ok tt ->
  remove query collection self =
    (Ok count, if 0 <? count then snd (_save removed) else removed).
Proof.
  intros test h count told removed Hc Hev Htold.
  unfold remove. run_monad. rewrite Hc. simpl default.
  change (query_test query) with test.
  pose proof (remove_loop_spec test collection docs (S (length docs)) [] 0 self) as Hloop.
  change (length (@nil loc)) with 0 in Hloop. change ([] ++ docs) with docs in Hloop.
  rewrite Hloop by (done || lia).
  change (0 + count) with count. fold told.
  change (set_indexes _ (set_collection _ ([] ++ _) self)) with removed.
  change (0 + length (List.filter (is_match test (heap self)) docs)) with count.
  by destruct (0 <? count).
Qed.

Lemma removals_none test h docs : forall i,
  (forall doc, doc ∈ docs -> is_match test h doc = false) -> removals test h docs i = [].
Proof.
  induction docs as [|d r IH]; intros i Hn; cbn; [done|].
  rewrite (Hn d) by by left. apply IH. intros x Hx. apply Hn. by right.
Qed.

Lemma filter_none {A} (f : A -> bool) (l : list A) :
  (forall x, x ∈ l -> f x = false) -> List.filter f l = [].
Proof.
  induction l as [|x r IH]; intros Hn; cbn; [done|].
  rewrite (Hn x) by by left. apply IH. intros y Hy. apply Hn. by right.
Qed.

Lemma filter_every {A} (f : A -> bool) (l : list A) :
  (forall x, x ∈ l -> f x = true) -> List.filter f l = l.
Proof.
  induction l as [|x r IH]; intros Hn; cbn; [done|].
  rewrite (Hn x) by by left. f_equal. apply IH. intros y Hy. apply Hn. by right.
Qed.

Lemma elem_of_List_filter {A} (f : A -> bool) (l : list A) x :
  x ∈ List.filter f l <-> x ∈ l /\ f x = true.
Proof. rewrite !list_elem_of_In. apply List.filter_In. Qed.

Lemma remove_nothing query collection self docs :
  _collections self !! collection = Some docs ->
  (forall doc, doc ∈ docs -> query_test query (deref (heap self) doc) = Ok false) ->
  remove query collection self = (Ok 0, self).
Proof.
  intros Hc Hn.
  assert (forall doc, doc ∈ docs -> is_match (query_test query) (heap self) doc = false) as Hm.
  { intros doc Hd. unfold is_match. by rewrite (Hn doc Hd). }
  rewrite (remove_result query collection self docs Hc).
  - rewrite (filter_none _ _ Hm). cbn [length Nat.ltb Nat.leb].
    rewrite (removals_none _ _ _ 0 Hm). cbn.
    rewrite filter_every by (intros x Hx; by rewrite (Hm x Hx)).
    f_equal. by apply (set_collection_same collection docs self).
  - intros doc Hd. eexists. by apply Hn.
  - by rewrite (removals_none _ _ _ 0 Hm).
Qed.

(** X22. [remove] is idempotent: after a [remove] that succeeded, the
    same [remove] again returns 0 and changes nothing; in particular it
    does not save again. *)
Theorem remove_twice_removes_once (self : AtomicDB.t) (query : QueryArg)
    (collection : string) (docs : list loc) :
  let test := query_test query in
  let once := snd (remove query collection self) in
  _collections self !! collection = Some docs ->
  evaluates test (heap self) docs ->
  fst (notify_removals (removals test (heap self) docs 0) (_indexes self)) = Ok tt ->
  remove query collection once = (Ok 0, once).
Proof.
  intros test once Hc Hev Htold. subst once.
  rewrite (remove_result query collection self docs Hc Hev Htold). fold test.
  set (kept := List.filter (fun doc => negb (is_match test (heap self) doc)) docs).
  set (removed := set_indexes _ (set_collection collection kept self)).
  cbn [snd].
  set (once := if 0 <? _ then snd (_save removed) else removed).
  assert (heap once = heap self) as Hh by (subst once; by destruct (0 <? _)).
  assert (_collections once !! collection = Some kept) as Hk.
  { subst once. destruct (0 <? _); cbn; by rewrite lookup_insert_eq. }
  apply (remove_nothing query collection once kept Hk).
  intros doc Hd. rewrite Hh. subst kept.
  apply elem_of_List_filter in Hd as [Hd Hm].
  destruct (Hev doc Hd) as [b Hb]. fold test. rewrite Hb.
  unfold is_match in Hm. rewrite Hb in Hm. by destruct b.
Qed.

(** The theorem at work on an example. *)
Lemma remove_twice_removes_once_witness :
  let once := snd (remove (AQuery (Examples.name_is "John")) "default" Examples.indexed_db) in
  remove (AQuery (Examples.name_is "John")) "default" once = (Ok 0, once).
Proof.
  apply (remove_twice_removes_once Examples.indexed_db (AQuery (Examples.name_is "John"))
           "default" [0; 1]).
  - reflexivity.
  - intros doc _. eexists. reflexivity.
  - vm_compute. reflexivity.
Defined.

(** ** [count], [contains] and [document_ids] *)

(** X23. [count] with a query and [contains] never return: they go
    through [search] and [get], which raise. Without a query, [count]
    returns the size of the collection and [document_ids] the positions
    from 0, and on a collection that does not exist both raise
    [KeyError]; either way these two leave the database unchanged. *)
Theorem count_and_contains_raise (self : AtomicDB.t) (query : QueryArg) (collection : string) :
  (exists e, fst (count (Some query) collection self) = Raise e) /\
  (exists e, fst (contains query collection self) = Raise e) /\
  (forall docs,
     _collections self !! collection = Some docs ->
     count None collection self = (Ok (length docs), self) /\
     document_ids collection self = (Ok (seq 0 (length docs)), self)) /\
  (_collections self !! collection = None ->
   count None collection self = (Raise KeyError, self) /\
   document_ids collection self = (Raise KeyError, self)).
Proof.
  split; [|split; [|split]].
  - destruct (construct_raises (search_docs query collection) self) as (e & He & _).
    exists e. unfold count, search. run_monad.
    destruct (search_docs query collection self) as [[docs|e'] s]; cbn in *; congruence.
  - destruct (construct_raises (get_docs query collection) self) as (e & He & _).
    exists e. unfold contains, get. run_monad.
    destruct (get_docs query collection self) as [[docs|e'] s]; cbn in *; congruence.
  - intros docs Hc. unfold count, document_ids. run_monad. by rewrite Hc.
  - intros Hc. unfold count, document_ids. run_monad. by rewrite Hc.
Qed.

(** ** Query results *)

Lemma pluck_doc_lookup fields doc k :
  QueryResult.pluck_doc fields doc !! k = if bool_decide (k ∈ fields) then doc !! k else None.
Proof.
  unfold QueryResult.pluck_doc.
  assert (forall acc : Document,
            foldl (fun plucked field =>
                     match doc !! field with
                     | Some value => <[field := value]> plucked
                     | None => plucked
                     end) acc fields !! k
            = match (if bool_decide (k ∈ fields) then doc !! k else None) with
              | Some v => Some v
              | None => acc !! k
              end) as H.
  { induction fields as [|f r IH]; intros acc; cbn; [done|].
    rewrite IH. destruct (decide (k = f)) as [->|Hk].
    - rewrite (bool_decide_eq_true_2 (f ∈ f :: r)) by by left.
      destruct (doc !! f) as [v|] eqn:Hf.
      + rewrite lookup_insert_eq. by case_bool_decide.
      + by case_bool_decide.
    - assert (bool_decide (k ∈ f :: r) = bool_decide (k ∈ r)) as ->.
      { apply bool_decide_ext. rewrite elem_of_cons. split; [by intros [?|?] | by right]. }
      destruct (doc !! f) as [v|]; [by rewrite lookup_insert_ne|done]. }
  rewrite H. rewrite lookup_empty. by destruct (if bool_decide _ then _ else _).
Qed.

Lemma exclude_doc_lookup fields : forall doc k,
  QueryResult.exclude_doc fields doc !! k
    = if bool_decide (k ∈ fields) then None else doc !! k.
Proof.
  unfold QueryResult.exclude_doc.
  induction fields as [|f r IH]; intros doc k; cbn; [done|].
  rewrite IH. destruct (decide (k = f)) as [->|Hk].
  - rewrite (bool_decide_eq_true_2 (f ∈ f :: r)) by by left.
    rewrite lookup_delete_eq. by case_bool_decide.
  - assert (bool_decide (k ∈ f :: r) = bool_decide (k ∈ r)) as ->.
    { apply bool_decide_ext. rewrite elem_of_cons. split; [by intros [?|?] | by right]. }
    by rewrite lookup_delete_ne.
Qed.

(** X24. For each document of a result, [pluck] gives the requested
    fields the document has, and [exclude] the document without them:
    the two dicts are disjoint and together they are the document. *)
Theorem pluck_and_exclude_split (h : gmap loc Document) (fields : list string)
    (self : QueryResult.t) (i : nat) (document : loc) :
  QueryResult._documents self !! i = Some document ->
  exists plucked excluded,
    QueryResult.pluck h fields self !! i = Some plucked /\
    QueryResult.exclude h fields self !! i = Some excluded /\
    (forall k, plucked !! k = if bool_decide (k ∈ fields) then deref h document !! k else None) /\
    (forall k, excluded !! k = if bool_decide (k ∈ fields) then None else deref h document !! k) /\
    plucked ##ₘ excluded /\
    plucked ∪ excluded = deref h document.
Proof.
  intros Hi. unfold QueryResult.pluck, QueryResult.exclude.
  rewrite !list_lookup_fmap, Hi. cbn.
  eexists _, _. split; [done|]. split; [done|].
  split; [apply pluck_doc_lookup|]. split; [apply exclude_doc_lookup|]. split.
  - apply map_disjoint_spec. intros k x y.
    rewrite pluck_doc_lookup, exclude_doc_lookup. by case_bool_decide.
  - apply map_eq. intros k. rewrite lookup_union, pluck_doc_lookup, exclude_doc_lookup.
    case_bool_decide; by destruct (deref h document !! k).
Qed.

(** The theorem at work on an example. *)
Lemma pluck_and_exclude_split_witness :
  exists plucked excluded,
    QueryResult.pluck {[ 0 := Examples.john ]} ["name"] (QueryResult.mk [0]) !! 0 = Some plucked /\
    QueryResult.exclude {[ 0 := Examples.john ]} ["name"] (QueryResult.mk [0]) !! 0
      = Some excluded /\
    plucked ∪ excluded = Examples.john.
Proof.
  destruct (pluck_and_exclude_split {[ 0 := Examples.john ]} ["name"] (QueryResult.mk [0])
              0 0 eq_refl) as (p & e & Hp & He & _ & _ & _ & Hu).
  exists p, e. split; [exact Hp|]. split; [exact He|]. exact Hu.
Defined.

Section SortTotal.
Context {A : Type} (key : A -> Value).

Lemma insert_by_total (P : Value -> Prop) x l :
  (forall a b, P a -> P b -> is_Some (py_order OpLt a b)) ->
  P (key x) -> Forall (fun y => P (key y)) l ->
  exists r, insert_by (key_lt key) x l = Ok r.
Proof.
  intros HP Hx. induction 1 as [|y r Hy Hr IH]; cbn; [by eexists|].
  unfold key_lt at 1. destruct (HP _ _ Hy Hx) as [b ->]. cbn.
  destruct b; [|by eexists]. destruct IH as [r' ->]. by eexists.
Qed.

Lemma sorted_by_total (P : Value -> Prop) l :
  (forall a b, P a -> P b -> is_Some (py_order OpLt a b)) ->
  Forall (fun y => P (key y)) l ->
  exists r, sorted_by (key_lt key) l = Ok r.
Proof.
  intros HP. induction 1 as [|x l Hx Hl IH]; cbn; [by eexists|].
  destruct IH as [r Hr]. rewrite Hr.
  apply (insert_by_total P); [done|done|].
  rewrite (sorted_by_perm key _ _ Hr). done.
Qed.
End SortTotal.

Lemma numbers_ordered a b :
  is_number a = true -> is_number b = true -> is_Some (py_order OpLt a b).
Proof. destruct a, b; cbn; try done; by eexists. Qed.

Lemma strings_ordered a b :
  is_str a = true -> is_str b = true -> is_Some (py_order OpLt a b).
Proof. destruct a, b; cbn; try done; by eexists. Qed.

(** A number that is smaller than another equals nothing the other
    equals. *)
Lemma smaller_number_differs a b k :
  is_number a = true -> is_number b = true ->
  py_order OpLt a b = Some true -> py_eq b k = true -> py_eq a k = false.
Proof.
  assert (forall n m : Z, cmp_holds OpLt (n ?= m)%Z = true -> (n < m)%Z) as Hlt.
  { intros n m. unfold Z.lt. by destruct (n ?= m)%Z. }
  assert (forall x y, Bool.eqb x y = (Z.b2z x =? Z.b2z y)%Z) as Hb by (by intros [] []).
  destruct a, b, k; cbn; try done; intros _ _ [= H%Hlt];
    rewrite ?Hb, ?Z.eqb_eq; intros <-; apply Z.eqb_neq; lia.
Qed.

Lemma smaller_string_differs a b k :
  is_str a = true -> is_str b = true ->
  py_order OpLt a b = Some true -> py_eq b k = true -> py_eq a k = false.
Proof.
  destruct a, b, k; cbn; try done. intros _ _ [= H] ->%String.eqb_eq.
  apply String.eqb_neq. intros ->. by rewrite string_compare_refl in H.
Qed.

Section SortStable.
Context {A : Type} (key : A -> Value) (P : Value -> Prop).

(** The sort moves an element only past elements that are smaller, which
    equal nothing it equals. *)
Lemma insert_by_same_key k x l r :
  (forall a b, P a -> P b -> py_order OpLt a b = Some true -> py_eq b k = true ->
               py_eq a k = false) ->
  P (key x) -> Forall (fun y => P (key y)) l ->
  insert_by (key_lt key) x l = Ok r -> same_key key k r = same_key key k (x :: l).
Proof.
  intros smaller_differs Hx Hl. revert r. induction Hl as [|y l Hy Hl IH]; intros r; cbn.
  - by intros [= <-].
  - unfold key_lt at 1.
    destruct (py_order OpLt (key y) (key x)) as [[]|] eqn:Hlt; cbn; [|by intros [= <-]|done].
    destruct (insert_by (key_lt key) x l) as [r'|e]; [|done].
    intros [= <-]. unfold same_key in *. cbn. rewrite (IH r' eq_refl). cbn.
    destruct (py_eq (key x) k) eqn:Hxk; [|done].
    by rewrite (smaller_differs _ _ Hy Hx Hlt Hxk).
Qed.

Lemma sorted_by_same_key k l r :
  (forall a b, P a -> P b -> py_order OpLt a b = Some true -> py_eq b k = true ->
               py_eq a k = false) ->
  Forall (fun y => P (key y)) l ->
  sorted_by (key_lt key) l = Ok r -> same_key key k r = same_key key k l.
Proof.
  intros smaller_differs Hl. revert r. induction Hl as [|x l Hx Hl IH]; intros r; cbn.
  - by intros [= <-].
  - destruct (sorted_by (key_lt key) l) as [r'|e] eqn:Hs; [|done].
    intros Hi.
    rewrite (insert_by_same_key k x r' r smaller_differs Hx);
      [|by rewrite (sorted_by_perm key _ _ Hs)|done].
    unfold same_key in *. cbn. by rewrite (IH r' eq_refl).
Qed.
End SortStable.

Lemma filter_reverse_bool {A} (f : A -> bool) (l : list A) :
  List.filter f (list.reverse l) = list.reverse (List.filter f l).
Proof.
  induction l as [|x l IH]; [done|].
  rewrite reverse_cons, List.filter_app, IH. cbn [List.filter].
  destruct (f x); [by rewrite reverse_cons | by rewrite app_nil_r].
Qed.

(** X25. When every document has the field and the values are all
    integers or booleans, or all strings, [sort_by] succeeds: the result
    holds the same documents, in ascending order of the field
    (descending with [reverse]), and documents whose values are equal
    under [==] (so [True] and [1]) keep their order. Floats are not
    values of the embedding, and nothing is said of them. *)
Theorem sort_by_sorts_stably (h : gmap loc Document) (field : string) (reverse : bool)
    (self : QueryResult.t) :
  let key := fun doc => doc_get (deref h doc) field in
  Forall (fun doc => is_number (key doc) = true) (QueryResult._documents self) \/
  Forall (fun doc => is_str (key doc) = true) (QueryResult._documents self) ->
  exists result,
    QueryResult.sort_by h field reverse self = Ok result /\
    QueryResult._documents result ≡ₚ QueryResult._documents self /\
    (forall k, same_key key k (QueryResult._documents result)
               = same_key key k (QueryResult._documents self)) /\
    Sorted (if reverse then flip (in_order key) else in_order key)
           (QueryResult._documents result).
Proof.
  intros key Hk.
  assert (forall l,
            Forall (fun doc => is_number (key doc) = true) l \/
            Forall (fun doc => is_str (key doc) = true) l ->
            exists r, sorted_by (key_lt key) l = Ok r /\
                      forall k, same_key key k r = same_key key k l) as Hs.
  { intros l [Hl|Hl].
    - destruct (sorted_by_total key (fun v => is_number v = true) l numbers_ordered Hl)
        as [r Hr].
      exists r. split; [done|]. intros k.
      apply (sorted_by_same_key key (fun v => is_number v = true)); [|done|done].
      intros a b. apply smaller_number_differs.
    - destruct (sorted_by_total key (fun v => is_str v = true) l strings_ordered Hl)
        as [r Hr].
      exists r. split; [done|]. intros k.
      apply (sorted_by_same_key key (fun v => is_str v = true)); [|done|done].
      intros a b. apply smaller_string_differs. }
  assert (exists result,
            QueryResult.sort_by h field reverse self = Ok result /\
            forall k, same_key key k (QueryResult._documents result)
                      = same_key key k (QueryResult._documents self))
    as (result & Hr & Hstable).
  { unfold QueryResult.sort_by, py_sorted. fold key.
    destruct reverse.
    - destruct (Hs (list.reverse (QueryResult._documents self))) as (r & -> & Hst).
      { destruct Hk as [Hk|Hk]; [left|right]; by rewrite reverse_Permutation. }
      eexists. split; [done|]. intros k. cbn. unfold same_key in *.
      by rewrite filter_reverse_bool, Hst, filter_reverse_bool, reverse_involutive.
    - destruct (Hs (QueryResult._documents self) Hk) as (r & -> & Hst).
      eexists. split; [done|]. exact Hst. }
  exists result. split; [done|].
  destruct (sort_by_stable h field reverse self result Hr) as (Hperm & _ & Hsorted).
  by repeat split.
Qed.

(** The theorem at work on an example: [True] and [1] are equal, and
    stay as they were in both directions. *)
Lemma sort_by_sorts_stably_witness :
  let h : gmap loc Document :=
    {[ 0 := {[ "rank" := VBool true ]}; 1 := {[ "rank" := VInt 1 ]};
       2 := {[ "rank" := VInt 0 ]} ]} in
  exists up down,
    QueryResult.sort_by h "rank" false (QueryResult.mk [0; 1; 2]) = Ok up /\
    QueryResult.sort_by h "rank" true (QueryResult.mk [0; 1; 2]) = Ok down /\
    same_key (fun doc => doc_get (deref h doc) "rank") (VInt 1) (QueryResult._documents up)
      = [0; 1] /\
    same_key (fun doc => doc_get (deref h doc) "rank") (VInt 1) (QueryResult._documents down)
      = [0; 1].
Proof.
  intros h.
  destruct (sort_by_sorts_stably h "rank" false (QueryResult.mk [0; 1; 2]))
    as (up & Hup & _ & Hsu & _); [left; repeat constructor|].
  destruct (sort_by_sorts_stably h "rank" true (QueryResult.mk [0; 1; 2]))
    as (down & Hdown & _ & Hsd & _); [left; repeat constructor|].
  exists up, down. split; [exact Hup|]. split; [exact Hdown|].
  split; [exact (Hsu (VInt 1)) | exact (Hsd (VInt 1))].
Defined.

(** ** The pool and its facade *)

Section PoolMore.
Import ConnectionPool.

Ltac pool_run :=
  cbv beta iota zeta delta
    [pbind pret praise catch with_lock queue_get _create_connection get_connection
     return_connection close_all below_capacity qsize set_lock set_available set_in_use
     set_flag after distinct_handles ConnectionPool.__init__
     _max_connections _available _in_use _lock in_use created is_empty is_full_or_empty] in *.

Ltac case_cap :=
  match goal with
  | |- context [(?a <? ?b)%Z] => destruct (a <? b)%Z
  end.

(** X26. Whenever the queue is empty and the pool is below its
    bound, [get_connection] blocks for good: it calls
    [_create_connection] while it holds the lock that
    [_create_connection] waits for. The lock stays held. *)
Theorem get_connection_deadlocks (p : ConnectionPool.t) :
  _lock p = false ->
  _available p = [] ->
  (Z.of_nat (length (_in_use p)) < _max_connections p)%Z ->
  get_connection p = (Blocked, set_lock true p).
Proof.
  destruct p as [m av iu lk fl cr]. pool_run. intros -> -> Hcap. cbn.
  destruct (Z.ltb_spec (Z.of_nat (length iu) + Z.of_nat 0) m); [done|lia].
Qed.

(** The theorem at work on an example. *)
Lemma get_connection_deadlocks_witness :
  let p := after GetConnection (snd (__init__ 2)) in
  get_connection p = (Blocked, set_lock true p).
Proof.
  apply get_connection_deadlocks; [reflexivity|reflexivity|vm_compute; reflexivity].
Defined.

(** X27. Once the lock is held by a call that never returns, every
    later call on the pool blocks: [_create_connection],
    [return_connection] and [close_all] at once, [get_connection] after
    it has taken a connection from the queue, if there is one, which is
    then lost. *)
Theorem locked_pool_blocks (p : ConnectionPool.t) (c : conn) :
  _lock p = true ->
  _create_connection p = (Blocked, p) /\
  return_connection c p = (Blocked, p) /\
  close_all p = (Blocked, p) /\
  fst (get_connection p) = Blocked /\
  _lock (snd (get_connection p)) = true /\
  snd (get_connection p) = set_available (tail (_available p)) p.
Proof.
  destruct p as [m av iu lk fl cr]. pool_run. intros ->.
  repeat split; by destruct av.
Qed.

(** The theorem at work on an example. *)
Lemma locked_pool_blocks_witness :
  let p := snd (get_connection (after GetConnection (snd (__init__ 2)))) in
  fst (get_connection p) = Blocked /\ return_connection 0 p = (Blocked, p).
Proof.
  intros p. destruct (locked_pool_blocks p 0 eq_refl) as (_ & Hr & _ & Hg & _).
  split; [exact Hg | exact Hr].
Defined.

Lemma list_remove_perm c l : c ∈ l -> l ≡ₚ c :: list_remove c l.
Proof.
  induction l as [|x r IH]; [by intros ?%elem_of_nil|].
  cbn. destruct (decide (c = x)) as [->|Hc]; [done|].
  intros [?|Hin]%elem_of_cons; [done|].
  rewrite (IH Hin) at 1. apply Permutation_swap.
Qed.

Lemma list_remove_notin c l : c ∉ l -> list_remove c (l ++ [c]) = l.
Proof.
  induction l as [|x r IH]; cbn.
  - intros _. by rewrite decide_True.
  - intros [Hx Hr]%not_elem_of_cons. rewrite decide_False by done. by rewrite IH.
Qed.

Lemma create_connection_distinct p :
  distinct_handles p -> distinct_handles (snd (_create_connection p)).
Proof.
  destruct p as [m av iu lk fl cr]. pool_run. intros [Hnd Hlt].
  destruct lk; [by split|]. case_cap; [|by split]. cbn.
  split.
  - rewrite <- app_assoc. rewrite (Permutation_app_comm [cr] iu), app_assoc.
    apply NoDup_app. split; [done|]. split; [|apply NoDup_singleton].
    intros x Hx ->%list_elem_of_singleton.
    rewrite Forall_forall in Hlt. specialize (Hlt _ Hx). lia.
  - rewrite <- app_assoc. rewrite (Permutation_app_comm [cr] iu), app_assoc.
    apply Forall_app. split; [|by repeat constructor].
    eapply Forall_impl; [exact Hlt|]. cbn. lia.
Qed.

Lemma return_connection_distinct c p :
  distinct_handles p -> distinct_handles (snd (return_connection c p)).
Proof.
  destruct p as [m av iu lk fl cr]. pool_run. intros [Hnd Hlt].
  destruct lk; [by split|]. case_bool_decide as Hin; [|by split]. cbn.
  assert ((av ++ [c]) ++ list_remove c iu ≡ₚ av ++ iu) as Hp.
  { rewrite <- app_assoc. cbn. by rewrite <- (list_remove_perm c iu Hin). }
  split; by rewrite Hp.
Qed.

Lemma close_all_distinct p :
  distinct_handles p -> distinct_handles (snd (close_all p)).
Proof.
  destruct p as [m av iu lk fl cr]. pool_run. intros [Hnd Hlt].
  destruct lk; [by split|]. cbn. split; constructor.
Qed.

Lemma get_connection_distinct p :
  distinct_handles p -> distinct_handles (snd (get_connection p)).
Proof.
  destruct p as [m av iu lk fl cr]. pool_run. intros [Hnd Hlt].
  destruct av as [|c rest], lk; cbn in *.
  - by split.
  - by case_cap.
  - apply NoDup_cons in Hnd as [_ Hnd]. apply Forall_cons in Hlt as [_ Hlt]. by split.
  - assert (rest ++ iu ++ [c] ≡ₚ c :: rest ++ iu) as Hp.
    { rewrite app_assoc. by rewrite Permutation_app_comm. }
    split; by rewrite Hp.
Qed.

Lemma reachable_distinct max_connections p :
  reachable max_connections p -> distinct_handles p.
Proof.
  induction 1 as [p Hinit|c p _ IH].
  - unfold ConnectionPool.__init__ in Hinit. pool_run. cbn in Hinit.
    destruct (Z.of_nat 0 + Z.of_nat 0 <? max_connections)%Z; cbn in Hinit; [|done].
    injection Hinit as <-. cbn. split; repeat constructor. apply not_elem_of_nil.
  - destruct c; cbn [after].
    + by apply get_connection_distinct.
    + by apply return_connection_distinct.
    + by apply close_all_distinct.
    + by apply create_connection_distinct.
Qed.

(** X28. In every pool that calls lead to, no connection is held
    twice: the queue and the list of connections in use share no
    element and repeat none. A connection that [get_connection] returns
    was not in use, is in use afterwards, and is no longer in the
    queue. *)
Theorem handles_never_shared (max_connections : Z) (p : ConnectionPool.t) (c : conn) :
  reachable max_connections p ->
  NoDup (_available p ++ _in_use p) /\
  (fst (get_connection p) = Done (Ok c) ->
   (c ∉ _in_use p) /\
   _in_use (snd (get_connection p)) = _in_use p ++ [c] /\
   (c ∉ _available (snd (get_connection p)))).
Proof.
  intros [Hnd _]%reachable_distinct. split; [done|].
  destruct p as [m av iu lk fl cr]. pool_run.
  destruct av as [|c' rest], lk; cbn in *; try done.
  - by case_cap.
  - intros [= ->]. apply NoDup_cons in Hnd as [Hc Hnd].
    apply not_elem_of_app in Hc as [Hc1 Hc2]. done.
Qed.

(** The theorem at work on an example. *)
Lemma handles_never_shared_witness :
  NoDup (_available (snd (__init__ 3)) ++ _in_use (snd (__init__ 3))).
Proof.
  refine (proj1 (handles_never_shared 3 (snd (__init__ 3)) 0 _)).
  apply reachable_init. reflexivity.
Defined.

(** X29. After [close_all] the pool is empty: returning a connection
    handed out before has no effect, and the next [get_connection]
    blocks for good, as for any empty pool below its bound. *)
Theorem closed_pool_deadlocks (p : ConnectionPool.t) (c : conn) :
  _lock p = false ->
  (0 < _max_connections p)%Z ->
  let closed := snd (close_all p) in
  fst (close_all p) = Done (Ok tt) /\
  return_connection c closed = (Done (Ok tt), closed) /\
  get_connection closed = (Blocked, set_lock true closed).
Proof.
  destruct p as [m av iu lk fl cr]. pool_run. intros -> Hmax. cbn.
  match goal with
  | |- context [(?a <? ?b)%Z] => destruct (Z.ltb_spec a b); [|lia]
  end.
  by repeat split.
Qed.

(** The theorem at work on an example. *)
Lemma closed_pool_deadlocks_witness :
  let closed := snd (close_all (snd (__init__ 2))) in
  get_connection closed = (Blocked, set_lock true closed).
Proof.
  refine (proj2 (proj2 (closed_pool_deadlocks (snd (__init__ 2)) 0 _ _))).
  - reflexivity.
  - vm_compute. reflexivity.
Defined.

(** X30. [ThreadSafeDatabase.execute] on a pool with a free lock and
    a connection in the queue runs the operation on the database of the
    first connection and returns that connection to the end of the
    queue on every exit: the outcome is the operation's, a raise
    included, and what the operation did to the database stays. *)
Theorem execute_returns_connection {A} (operation : M AtomicDB.t A)
    (self : ThreadSafeDatabase.t) (c : conn) (rest : list conn) :
  let pool := ThreadSafeDatabase._pool self in
  let db := ThreadSafeDatabase.dbs self c in
  _lock pool = false ->
  _available pool = c :: rest ->
  c ∉ _in_use pool ->
  ThreadSafeDatabase.execute operation self =
    (Done (fst (operation db)),
     ThreadSafeDatabase.mk
       (set_available (rest ++ [c]) (set_flag c false pool))
       (ThreadSafeDatabase.set_db c (snd (operation db)) (ThreadSafeDatabase.dbs self))).
Proof.
  destruct self as [[m av iu lk fl cr] dbs]. cbn. intros -> -> Hc.
  unfold ThreadSafeDatabase.execute. pool_run. cbn.
  destruct (operation (dbs c)) as [r db]. cbn.
  rewrite bool_decide_eq_true_2 by (apply elem_of_app; right; by left).
  by rewrite list_remove_notin, insert_insert_eq.
Qed.

(** The theorem at work on an example. *)
Lemma execute_returns_connection_witness :
  let self := ThreadSafeDatabase.mk (snd (__init__ 2)) (fun _ => Examples.two_db) in
  fst (ThreadSafeDatabase.atomic_update self) = Done (Raise AttributeError) /\
  ThreadSafeDatabase._pool (snd (ThreadSafeDatabase.atomic_update self)) = snd (__init__ 2) /\
  fst (ThreadSafeDatabase.get (AQuery AtomicDB.query) self) = Done (Raise TypeError) /\
  ThreadSafeDatabase._pool (snd (ThreadSafeDatabase.get (AQuery AtomicDB.query) self))
    = snd (__init__ 2).
Proof.
  intros self.
  assert (forall A (operation : M AtomicDB.t A),
            ThreadSafeDatabase.execute operation self =
              (Done (fst (operation Examples.two_db)),
               ThreadSafeDatabase.mk
                 (set_available ([] ++ [0]) (set_flag 0 false (snd (__init__ 2))))
                 (ThreadSafeDatabase.set_db 0 (snd (operation Examples.two_db))
                    (fun _ => Examples.two_db)))) as Hex.
  { intros A operation.
    apply (execute_returns_connection operation self 0 []); [reflexivity|reflexivity|].
    cbn. apply not_elem_of_nil. }
  unfold ThreadSafeDatabase.atomic_update, ThreadSafeDatabase.get. rewrite !Hex.
  repeat split; reflexivity.
Defined.

End PoolMore.
